(** * Conway's Game of Life with pthreads (life.c)

    A shallow embedding of [life.c]: the row partition computed by every
    worker, the grid pair and the cell transition of [thread_compute], the
    seeding done by [main], the start-up error paths of [main], and the
    workers themselves as interleaved labelled programs over the shared
    grids, counters, mutex and barrier. *)

From Stdlib Require Import ZArith Lia.
From Stdlib Require QArith_base.
From stdpp Require Import base list numbers strings.

Local Open Scope Z_scope.

(** ** Run parameters

    The globals [num_threads], [gridsize], [init_pct] and [num_iters], which
    [main] reads from the command line and never changes afterwards. *)

(** The value [atof] hands back: a finite double is a rational number; the
    other doubles are the two infinities and NaN. *)
Inductive dbl :=
  | Finite (q : QArith_base.Q)
  | PosInf
  | NegInf
  | NaN.

Record params := Params {
  num_threads : Z;
  gridsize : Z;
  init_pct : dbl;
  num_iters : Z
}.

(** ** C [int] arithmetic

    An [int] has 32 bits and holds the values of [in_int]; [/] on [int]
    truncates towards zero, which is [Z.quot].  The result of a signed
    operation is the mathematical one whenever that is representable;
    otherwise the compiled program keeps its low 32 bits, read in two's
    complement ([wrap]). *)

Definition INT_MAX : Z := 2147483647.
Definition INT_MIN : Z := -2147483648.
Definition in_int (x : Z) : Prop := INT_MIN <= x <= INT_MAX.

(** The [int] with the low 32 bits of [x]. *)
Definition wrap (x : Z) : Z := (x + 2147483648) mod 4294967296 - 2147483648.

(** [a + b], [a - b] and [a * b] on [int]. *)
Definition int_add (a b : Z) : Z := wrap (a + b).
Definition int_sub (a b : Z) : Z := wrap (a - b).
Definition int_mul (a b : Z) : Z := wrap (a * b).

(** [a / b] on [int].  The program divides by [num_threads] only, and only
    in the workers, where [num_threads] is at least 1: the quotient of an
    [int] by such a divisor is an [int]. *)
Definition int_div (a b : Z) : Z := a ÷ b.

(** ** Row partition (life.c:45-46)

    The two expressions come twice: [start_row_int] and [end_row_int] are
    the values the compiled program computes, every intermediate result an
    [int]; [start_row] and [end_row] are the values of the same
    expressions when no intermediate result leaves the [int] range, which
    is the case for [num_threads * gridsize < INT_MAX]
    ([partition_int_exact] below).  The workers below run on the latter. *)

(** [int start_row = me->thread_num * gridsize / num_threads + 1;] *)
Definition start_row_int (p : params) (thread_num : Z) : Z :=
  int_add (int_div (int_mul thread_num (gridsize p)) (num_threads p)) 1.

(** [int end_row = start_row + gridsize / num_threads - 1;] *)
Definition end_row_int (p : params) (thread_num : Z) : Z :=
  int_sub (int_add (start_row_int p thread_num)
                   (int_div (gridsize p) (num_threads p))) 1.

(** Row [r] is visited by the row loop of worker [t]
    ([for (i=start_row;i<=end_row;i++)]), with the bounds as the compiled
    program computes them. *)
Definition owns_int (p : params) (t r : Z) : Prop :=
  start_row_int p t <= r <= end_row_int p t.

(** The same without overflow. *)
Definition start_row (p : params) (thread_num : Z) : Z :=
  (thread_num * gridsize p) ÷ num_threads p + 1.

Definition end_row (p : params) (thread_num : Z) : Z :=
  start_row p thread_num + gridsize p ÷ num_threads p - 1.

(** Row [r] is visited by the row loop of worker [t]
    ([for (i=start_row;i<=end_row;i++)]). *)
Definition owns (p : params) (t r : Z) : Prop :=
  start_row p t <= r <= end_row p t.

Definition ownsb (p : params) (t r : Z) : bool :=
  (start_row p t <=? r) && (r <=? end_row p t).

(** The workers that [main] creates: [thread_num] runs over
    [0 .. num_threads-1]. *)
Definition is_worker (p : params) (t : Z) : Prop := 0 <= t < num_threads p.

Definition worker_ids (p : params) : list Z := seqZ 0 (num_threads p).

(** An interior row that no worker visits. *)
Definition unowned (p : params) (r : Z) : Prop :=
  1 <= r <= gridsize p /\ forall t, is_worker p t -> ~ owns p t r.

Definition unownedb (p : params) (r : Z) : bool :=
  (1 <=? r) && (r <=? gridsize p) &&
  forallb (fun t => negb (ownsb p t r)) (worker_ids p).

(** ** The grids

    [int **grid[2]]: two arrays of [gridsize+2] rows of [gridsize+2] cells. *)

Abbreviation grid := (list (list Z)).

Record grids := Grids { grid0 : grid; grid1 : grid }.

(** [grid[b]] *)
Definition sel (gs : grids) (b : Z) : grid :=
  if b =? 0 then grid0 gs else grid1 gs.

(** [g[i][j]] read *)
Definition get_cell (g : grid) (i j : Z) : Z :=
  (g !!! Z.to_nat i) !!! Z.to_nat j.

(** [g[i][j] = v] *)
Definition set_cell (g : grid) (i j v : Z) : grid :=
  alter (fun row => <[Z.to_nat j := v]> row) (Z.to_nat i) g.

(** [grid[b][i][j] = v] *)
Definition write (gs : grids) (b i j v : Z) : grids :=
  if b =? 0 then Grids (set_cell (grid0 gs) i j v) (grid1 gs)
  else Grids (grid0 gs) (set_cell (grid1 gs) i j v).

(** A grid as [main] allocates it for grid size [n]: [n+2] rows of [n+2]
    cells each. *)
Definition shaped (n : Z) (g : grid) : Prop :=
  length g = Z.to_nat (n + 2) /\
  Forall (fun row => length row = Z.to_nat (n + 2)) g.

Definition shaped2 (n : Z) (gs : grids) : Prop :=
  shaped n (grid0 gs) /\ shaped n (grid1 gs).

(** ** Counters

    The three statistics, kept once per worker ([local_live_count], ...)
    and once globally ([live_count], ...). *)

Inductive counter := Live | Death | Birth.

Record counts := Counts { c_live : Z; c_death : Z; c_birth : Z }.

Definition cnt (cs : counts) (c : counter) : Z :=
  match c with
  | Live => c_live cs
  | Death => c_death cs
  | Birth => c_birth cs
  end.

Definition cset (cs : counts) (c : counter) (v : Z) : counts :=
  match c with
  | Live => Counts v (c_death cs) (c_birth cs)
  | Death => Counts (c_live cs) v (c_birth cs)
  | Birth => Counts (c_live cs) (c_death cs) v
  end.

Definition zero_counts : counts := Counts 0 0 0.

(** ** The transition of one cell (life.c:66-86) *)

(** The sum of the eight neighbours, read from [g]. *)
Definition neigh_count (g : grid) (i j : Z) : Z :=
  get_cell g (i-1) (j-1) + get_cell g (i-1) j + get_cell g (i-1) (j+1) +
  get_cell g i (j-1) + get_cell g i (j+1) +
  get_cell g (i+1) (j-1) + get_cell g (i+1) j + get_cell g (i+1) (j+1).

(** The value the [switch] stores in [grid[curr][i][j]]. *)
Definition rule (n old : Z) : Z :=
  if n =? 2 then old else if n =? 3 then 1 else 0.

(** The body of the column loop: one cell, with the worker's local
    counters. *)
Definition cell_step (curr prev i j : Z) (st : grids * counts) : grids * counts :=
  let '(gs, lc) := st in
  let n := neigh_count (sel gs prev) i j in
  let old := get_cell (sel gs prev) i j in
  let '(gs', lc') :=
    if n =? 2 then
      (write gs curr i j old, lc)
    else if n =? 3 then
      (write gs curr i j 1,
       if old =? 0 then cset lc Birth (cnt lc Birth + 1) else lc)
    else
      (write gs curr i j 0,
       if old =? 0 then lc else cset lc Death (cnt lc Death + 1)) in
  (gs', cset lc' Live (cnt lc' Live + get_cell (sel gs' curr) i j)).

(** [for (j=1;j<=gridsize;j++)] *)
Definition row_loop (p : params) (curr prev i : Z) (st : grids * counts)
  : grids * counts :=
  foldl (fun st j => cell_step curr prev i j st) st (seqZ 1 (gridsize p)).

(** [for (i=start_row;i<=end_row;i++)]: the cells of worker [t] for one
    generation, starting from the local counters [lc]. *)
Definition sweep (p : params) (t curr prev : Z) (st : grids * counts)
  : grids * counts :=
  foldl (fun st i => row_loop p curr prev i st) st
        (seqZ (start_row p t) (end_row p t - start_row p t + 1)).

(** The cells visited by worker [t], in the order of the two loops. *)
Definition cells (p : params) (t : Z) : list (Z * Z) :=
  i ← seqZ (start_row p t) (end_row p t - start_row p t + 1);
  j ← seqZ 1 (gridsize p);
  [(i, j)].

(** ** Seeding (life.c:126-160)

    [srand48] and [drand48] are the C library's 48-bit linear congruential
    generator: [X' = (a * X + c) mod 2^48], and [drand48] returns
    [X' / 2^48], which a double holds exactly. *)

Definition srand48 (seedval : Z) : Z := (seedval mod 2^32) * 2^16 + 13070.

Definition drand48_next (x : Z) : Z := (25214903917 * x + 11) mod 2^48.

(** [drand48() < init_pct], for the generator state [x] that [drand48] has
    just produced. *)
Definition below (x : Z) (pct : dbl) : bool :=
  match pct with
  | Finite q => x * Z.pos (QArith_base.Qden q) <? QArith_base.Qnum q * 2^48
  | PosInf => true
  | NegInf => false
  | NaN => false
  end.

(** The grid after the zeroing loops of life.c:144-148. *)
Definition zero_grid (n : Z) : grid :=
  replicate (Z.to_nat (n + 2)) (replicate (Z.to_nat (n + 2)) 0).

(** The body of the seeding loops: grid 0, the generator state and
    [live_count]. *)
Definition seed_cell (pct : dbl) (i j : Z) (st : grid * Z * Z) : grid * Z * Z :=
  let '(g, x, lc) := st in
  let x' := drand48_next x in
  if below x' pct then (set_cell g i j 1, x', lc + 1)
  else (set_cell g i j 0, x', lc).

Definition seed_row (p : params) (i : Z) (st : grid * Z * Z) : grid * Z * Z :=
  foldl (fun st j => seed_cell (init_pct p) i j st) st (seqZ 1 (gridsize p)).

(** [srand48(0)] followed by the two seeding loops. *)
Definition seeding (p : params) : grid * Z * Z :=
  foldl (fun st i => seed_row p i st)
        (zero_grid (gridsize p), srand48 0, 0) (seqZ 1 (gridsize p)).

(** ** Output *)

Inductive line :=
  | InitialLine (live total : Z)
  | IterationLine (iter : Z)
  | CountersLine (living died born : Z).

Inductive errline :=
  | UsageLine (argv0 : string)
  | CreateFailedLine (thread : Z).

(** ** Start-up of [main] (life.c:121-124, 165-181)

    What the pthread library answers to the three kinds of creation call. *)
Record pthread_env := PthreadEnv {
  barrier_init_rc : Z;
  mutex_init_rc : Z;
  create_rc : Z -> Z
}.

(** How the start-up ends: with a call of [exit], or with [main] going on
    to join the workers it has created; in both cases with the lines written
    to standard error and the workers created so far. *)
Inductive outcome :=
  | Exits (status : Z) (stderr : list errline) (created : list Z)
  | Proceeds (stderr : list errline) (created : list Z).

(** The creation loop; [started] are the workers already running. *)
Fixpoint create_loop (env : pthread_env) (todo started : list Z) : outcome :=
  match todo with
  | [] => Proceeds [] started
  | t :: rest =>
      if create_rc env t =? 0 then create_loop env rest (started ++ [t])
      else Exits 1 [CreateFailedLine t] started
  end.

(** [pthread_barrier_init] and [pthread_mutex_init] are called between the
    argument check and the creation loop; their results are dropped. *)
Definition main_startup (argc : Z) (argv0 : string) (p : params)
    (env : pthread_env) : outcome :=
  if argc =? 5 then create_loop env (worker_ids p) []
  else Exits 1 [UsageLine argv0] [].

(** ** The workers as interleaved programs (life.c:38-115)

    Every worker runs [thread_compute]; a step of the program is one of the
    labelled statements below, executed by one worker on the shared state.
    The accesses to the global counters, the barrier and the mutex are steps
    of their own.  The cell loops of a worker are one step: they read the
    previous buffer, which no worker writes before all have gone through
    the barriers, and write cells of the worker's own rows, so that the
    loops of two workers can be run in either order ([sweeps_commute]
    below). *)

(** The two calls of [pthread_barrier_wait], life.c:94 and life.c:105. *)
Inductive site := B1 | B2.

Inductive label :=
  | LoopHead                         (* test, swap, "Iteration" line, zero the local counters *)
  | Sweep                            (* the two cell loops, as one step *)
  | Reset (c : counter)              (* live_count = 0; death_count = 0; birth_count = 0; *)
  | Arrive (b : site)                (* entering pthread_barrier_wait *)
  | Wait (b : site) (ticket : nat)   (* blocked inside pthread_barrier_wait *)
  | Lock                             (* pthread_mutex_lock *)
  | Load (c : counter)               (* reading the global of  x_count += local_x_count *)
  | Store (c : counter)              (* writing it back *)
  | Unlock                           (* pthread_mutex_unlock *)
  | Report                           (* the "Counters" line, iter++ *)
  | Done.                            (* return NULL *)

Record worker := Worker {
  pc : label;
  iter : Z;
  curr : Z;
  prev : Z;
  local : counts;
  tmp : Z
}.

Record state := State {
  mem : grids;
  shared : counts;
  mutex : bool;
  arrived : Z;
  epoch : nat;
  workers : list worker;
  stdout : list line
}.

Definition goto (w : worker) (l : label) : worker :=
  Worker l (iter w) (curr w) (prev w) (local w) (tmp w).

Definition with_worker (s : state) (t : nat) (w : worker) : state :=
  State (mem s) (shared s) (mutex s) (arrived s) (epoch s)
        (<[t := w]> (workers s)) (stdout s).

Definition with_shared (s : state) (cs : counts) : state :=
  State (mem s) cs (mutex s) (arrived s) (epoch s) (workers s) (stdout s).

Definition with_mutex (s : state) (m : bool) : state :=
  State (mem s) (shared s) m (arrived s) (epoch s) (workers s) (stdout s).

Definition with_mem (s : state) (gs : grids) : state :=
  State gs (shared s) (mutex s) (arrived s) (epoch s) (workers s) (stdout s).

(** [if (me->thread_num == 0) printf(...)] *)
Definition print0 (s : state) (t : nat) (l : line) : state :=
  match t with
  | O => State (mem s) (shared s) (mutex s) (arrived s) (epoch s) (workers s)
               (stdout s ++ [l])
  | S _ => s
  end.

(** Entering the barrier: the last of [num_threads] arrivals opens it for
    everybody and readies it for the next round. *)
Definition arrive (p : params) (s : state) : state :=
  if arrived s + 1 =? num_threads p then
    State (mem s) (shared s) (mutex s) 0 (S (epoch s)) (workers s) (stdout s)
  else
    State (mem s) (shared s) (mutex s) (arrived s + 1) (epoch s) (workers s)
          (stdout s).

(** The statement after each of the counter statements. *)
Definition after_reset (c : counter) : label :=
  match c with
  | Live => Reset Death
  | Death => Reset Birth
  | Birth => Arrive B1
  end.

Definition after_store (c : counter) : label :=
  match c with
  | Live => Load Death
  | Death => Load Birth
  | Birth => Unlock
  end.

Definition after_wait (b : site) : label :=
  match b with
  | B1 => Lock
  | B2 => Report
  end.

(** Worker number [t] of the list of workers is the one whose
    [thread_num] is [t]. *)
Definition tid (t : nat) : Z := Z.of_nat t.

(** One step of [thread_compute] by worker [t]; [None] when there is no
    such worker, or it is blocked (barrier not open, mutex taken) or has
    returned.  The loop counter [iter] is an [int] in the program and is
    counted on [Z] here: the two agree while [num_iters < INT_MAX], where
    [iter++] never leaves the [int] range ([iter_in_int] below); with
    [num_iters = INT_MAX] the test [iter<=num_iters] of the program cannot
    fail, and the statements on the length and the completion of a run
    below are for [num_iters < INT_MAX]. *)
Definition thread_compute (p : params) (t : nat) (s : state) : option state :=
  w ← workers s !! t;
  match pc w with
  | LoopHead =>
      if iter w <=? num_iters p then
        Some (with_worker (print0 s t (IterationLine (iter w))) t
                (Worker Sweep (iter w) (1 - curr w) (1 - prev w) zero_counts (tmp w)))
      else Some (with_worker s t (goto w Done))
  | Sweep =>
      let '(gs, lc) := sweep p (tid t) (curr w) (prev w) (mem s, local w) in
      Some (with_worker (with_mem s gs) t
              (Worker (Reset Live) (iter w) (curr w) (prev w) lc (tmp w)))
  | Reset c =>
      Some (with_worker (with_shared s (cset (shared s) c 0)) t
              (goto w (after_reset c)))
  | Arrive b =>
      Some (with_worker (arrive p s) t (goto w (Wait b (epoch s))))
  | Wait b ticket =>
      if decide (epoch s = ticket) then None
      else Some (with_worker s t (goto w (after_wait b)))
  | Lock =>
      if mutex s then None
      else Some (with_worker (with_mutex s true) t (goto w (Load Live)))
  | Load c =>
      Some (with_worker s t
              (Worker (Store c) (iter w) (curr w) (prev w) (local w)
                      (cnt (shared s) c)))
  | Store c =>
      Some (with_worker (with_shared s (cset (shared s) c (tmp w + cnt (local w) c))) t
              (goto w (after_store c)))
  | Unlock =>
      Some (with_worker (with_mutex s false) t (goto w (Arrive B2)))
  | Report =>
      Some (with_worker
              (print0 s t (CountersLine (c_live (shared s)) (c_death (shared s))
                                        (c_birth (shared s)))) t
              (Worker LoopHead (iter w + 1) (curr w) (prev w) (local w) (tmp w)))
  | Done => None
  end.

(** Running a schedule: the list of workers that take the successive
    steps. *)
Fixpoint exec (p : params) (sched : list nat) (s : state) : option state :=
  match sched with
  | [] => Some s
  | t :: rest => s' ← thread_compute p t s; exec p rest s'
  end.

(** The state in which [main] starts the workers.  [main] has printed the
    first line by then, with [live_count] and the [int] product
    [gridsize*gridsize] (life.c:162-163). *)
Definition init_worker : worker := Worker LoopHead 1 0 1 zero_counts 0.

Definition init_state (p : params) : state :=
  let '(g, _, lc) := seeding p in
  State (Grids g (zero_grid (gridsize p))) (Counts lc 0 0) false 0 O
        (replicate (Z.to_nat (num_threads p)) init_worker)
        [InitialLine lc (int_mul (gridsize p) (gridsize p))].

Definition reachable (p : params) (s : state) : Prop :=
  exists sched, exec p sched (init_state p) = Some s.

(** All workers have returned. *)
Definition finished (s : state) : Prop :=
  Forall (fun w => pc w = Done) (workers s).

(** ** Vocabulary for the statements below *)

(** The values a worker's [curr] and [prev] take: the two buffers, never
    the same one. *)
Definition buffers_ok (curr prev : Z) : Prop :=
  (curr = 0 /\ prev = 1) \/ (curr = 1 /\ prev = 0).

(** Replacing buffer [b]. *)
Definition put (gs : grids) (b : Z) (g : grid) : grids :=
  if b =? 0 then Grids g (grid1 gs) else Grids (grid0 gs) g.

(** Cell [(i, j)] lies inside an allocated grid of size [n], halo
    included. *)
Definition in_grid (n : Z) (ij : Z * Z) : Prop :=
  (0 <= ij.1 <= n + 1) /\ (0 <= ij.2 <= n + 1).

(** Cell [(i, j)] is a halo cell of a grid of size [n]. *)
Definition halo (n : Z) (ij : Z * Z) : Prop :=
  in_grid n ij /\ (ij.1 = 0 \/ ij.1 = n + 1 \/ ij.2 = 0 \/ ij.2 = n + 1).

(** What the [switch] makes of cell [(i, j)] of [g], and whether it counts
    a birth or a death there. *)
Definition next_state (g : grid) (ij : Z * Z) : Z :=
  rule (neigh_count g ij.1 ij.2) (get_cell g ij.1 ij.2).

Definition born (g : grid) (ij : Z * Z) : bool :=
  (neigh_count g ij.1 ij.2 =? 3) && (get_cell g ij.1 ij.2 =? 0).

Definition died (g : grid) (ij : Z * Z) : bool :=
  negb (neigh_count g ij.1 ij.2 =? 2) && negb (neigh_count g ij.1 ij.2 =? 3)
  && negb (get_cell g ij.1 ij.2 =? 0).

(** Storing [f] at every cell of a list. *)
Definition paint (f : Z * Z -> Z) (l : list (Z * Z)) (g : grid) : grid :=
  foldl (fun g ij => set_cell g ij.1 ij.2 (f ij)) g l.

(** The local counters after visiting the cells [l] of the previous
    grid [g]. *)
Definition tally (g : grid) (l : list (Z * Z)) (lc : counts) : counts :=
  foldl (fun lc ij =>
           Counts (c_live lc + next_state g ij)
                  (c_death lc + Z.b2z (died g ij))
                  (c_birth lc + Z.b2z (born g ij))) lc l.

(** The number of cells of [l] that satisfy [f]. *)
Definition count_cells (f : Z * Z -> bool) (l : list (Z * Z)) : Z :=
  Z.of_nat (length (filter (fun ij => f ij = true) l)).

(** A cell is dead when it holds 0 and live otherwise (the tests
    [!grid[prev][i][j]] and [grid[prev][i][j]] of the source). *)
Definition dead (g : grid) (ij : Z * Z) : bool := get_cell g ij.1 ij.2 =? 0.
Definition alive (g : grid) (ij : Z * Z) : bool := negb (dead g ij).

(** Cell [ij] is visited by no worker. *)
Definition unvisited (p : params) (ij : Z * Z) : Prop :=
  forall t, is_worker p t -> ij ∉ cells p t.

(** What holds of the grids and of every worker's [curr] and [prev] in all
    states of a run. *)
Definition well_formed (p : params) (s : state) : Prop :=
  shaped2 (gridsize p) (mem s) /\
  length (workers s) = Z.to_nat (num_threads p) /\
  Forall (fun w => buffers_ok (curr w) (prev w)) (workers s).

(** ** Concrete runs used below *)

(** [init_pct = 1.0]: every cell is seeded live. *)
Definition pct_one : dbl := Finite (QArith_base.Qmake 1 1).

(** [./life 1 3 1.0 1] *)
Definition run_1x3 : params := Params 1 3 pct_one 1.
(** [./life 2 3 1.0 1] *)
Definition run_2x3 : params := Params 2 3 pct_one 1.
(** [./life 3 5 1.0 1] *)
Definition run_3x5 : params := Params 3 5 pct_one 1.
(** [./life 2 4 1.0 1] *)
Definition run_2x4 : params := Params 2 4 pct_one 1.
(** [./life 2 2 1.0 2] *)
Definition run_2x2 : params := Params 2 2 pct_one 2.

(** The state a schedule leads to from the start ([init_state] again when
    the schedule cannot be run). *)
Definition after (p : params) (sched : list nat) : state :=
  default (init_state p) (exec p sched (init_state p)).

(** The unowned rows read as one block at the top of the interior: every
    interior row above some row [m] and no other. *)
Definition high_block (p : params) : Prop :=
  exists m, forall r, 1 <= r <= gridsize p -> (unowned p r <-> m < r).

Definition finishedb (s : state) : bool :=
  forallb (fun w => match pc w with Done => true | _ => false end) (workers s).

(** Complete schedules of the concrete runs: each worker runs until it
    blocks, then the next one does. *)
Definition sched_1x3 : list nat := replicate 19 0%nat.

Definition sched_2x3 : list nat :=
  replicate 6 0%nat ++ replicate 16 1%nat ++ replicate 13 0%nat ++
  replicate 3 1%nat.

(** Worker 0 first in every round. *)
Definition sched_2x2_a : list nat :=
  replicate 6 0%nat ++ replicate 16 1%nat ++ replicate 18 0%nat ++
  replicate 18 1%nat ++ replicate 13 0%nat ++ replicate 3 1%nat.

(** Worker 1 first in every round: it leaves the second barrier of
    generation 1, sweeps generation 2 and zeroes the global counters
    before worker 0 prints those of generation 1. *)
Definition sched_2x2_b : list nat :=
  replicate 6 1%nat ++ replicate 16 0%nat ++ replicate 18 1%nat ++
  replicate 18 0%nat ++ replicate 13 1%nat ++ replicate 3 0%nat.

(** [./life 0 4 1.0 1]: no workers, and a barrier for 0 threads. *)
Definition run_0x4 : params := Params 0 4 pct_one 1.

(** The error number [pthread_barrier_init] returns for a count of 0. *)
Definition EINVAL : Z := 22.

(** The pthread library when every creation call but the initialisation
    of the barrier succeeds. *)
Definition env_barrier_fails : pthread_env := PthreadEnv EINVAL 0 (fun _ => 0).

(** No schedule of fewer than [n] steps of worker 0 alone ends the run. *)
Definition solo_unfinished (p : params) (n : nat) : bool :=
  forallb (fun m =>
             match exec p (replicate m 0%nat) (init_state p) with
             | Some s => negb (finishedb s)
             | None => true
             end) (seq 0 n).

(** ** The barrier and mutex protocol *)

(** How many times a worker has entered the barrier. *)
Definition arrivals (w : worker) : Z :=
  2 * (iter w - 1) +
  match pc w with
  | LoopHead | Sweep | Reset _ | Arrive B1 | Done => 0
  | Wait B1 _ | Lock | Load _ | Store _ | Unlock | Arrive B2 => 1
  | Wait B2 _ | Report => 2
  end.

(** A worker held back by the barrier in round [e]. *)
Definition blocked (e : nat) (w : worker) : bool :=
  match pc w with
  | Wait _ ticket => Nat.eqb ticket e
  | _ => false
  end.

(** A worker and the barrier agree on the round: a worker outside the
    barrier has entered it as often as the barrier has opened, a worker
    inside it once more than its ticket says, and its ticket is the
    current round or the one before. *)
Definition in_sync (e : nat) (w : worker) : Prop :=
  match pc w with
  | Wait _ ticket =>
      arrivals w = Z.of_nat ticket + 1 /\ (ticket = e \/ S ticket = e)
  | _ => arrivals w = Z.of_nat e
  end.

(** Sums over the workers. *)
Definition sumZ {A} (f : A -> Z) (l : list A) : Z :=
  foldr (fun w a => f w + a) 0 l.

(** A worker between [pthread_mutex_lock] and [pthread_mutex_unlock]. *)
Definition in_cs (w : worker) : bool :=
  match pc w with
  | Load _ | Store _ | Unlock => true
  | _ => false
  end.

(** The order of the three counters in the source. *)
Definition counter_lt (c c' : counter) : bool :=
  match c, c' with
  | Live, Death | Live, Birth | Death, Birth => true
  | _, _ => false
  end.

(** The worker has added its local counter [c] to the global one in this
    generation. *)
Definition contributed (c : counter) (w : worker) : bool :=
  match pc w with
  | Load c' | Store c' => counter_lt c c'
  | Unlock | Arrive B2 | Wait B2 _ => true
  | _ => false
  end.

Definition contribution (c : counter) (w : worker) : Z :=
  if contributed c w then cnt (local w) c else 0.

(** The worker has zeroed the global counter [c] and not yet left the
    first barrier. *)
Definition reset_done (c : counter) (w : worker) : bool :=
  match pc w with
  | Reset c' => counter_lt c c'
  | Arrive B1 | Wait B1 _ => true
  | _ => false
  end.

(** The worker has gone through the second barrier call of its generation
    and has not yet started the next one. *)
Definition reduced (w : worker) : bool :=
  match pc w with
  | Wait B2 _ | Report => true
  | _ => false
  end.

(** The barrier's count and round against the workers. *)
Definition sync_inv (p : params) (s : state) : Prop :=
  Forall (in_sync (epoch s)) (workers s) /\
  arrived s = sumZ (fun w => Z.b2z (blocked (epoch s) w)) (workers s) /\
  (arrived s + 1 <= num_threads p \/ workers s = []).

(** The mutex against the workers. *)
Definition mutex_inv (s : state) : Prop :=
  sumZ (fun w => Z.b2z (in_cs w)) (workers s) = Z.b2z (mutex s).

(** The global counter [c] against the workers' local ones. *)
Definition counter_inv (c : counter) (s : state) : Prop :=
  (Z.odd (Z.of_nat (epoch s)) = true ->
   cnt (shared s) c = sumZ (contribution c) (workers s)) /\
  Forall (fun w => pc w = Store c -> tmp w = cnt (shared s) c) (workers s) /\
  (Z.even (Z.of_nat (epoch s)) = true ->
   Forall (fun w => reset_done c w = true -> cnt (shared s) c = 0) (workers s)) /\
  (Z.even (Z.of_nat (epoch s)) = true ->
   Forall (fun w => reduced w = true) (workers s) -> workers s <> [] ->
   cnt (shared s) c = sumZ (fun w => cnt (local w) c) (workers s)).

(** ** Workers and the grids *)

(** The worker has run the cell loops of its current generation. *)
Definition post_sweep (w : worker) : bool :=
  match pc w with
  | LoopHead | Sweep | Done => false
  | _ => true
  end.

(** The worker has not run the cell loops of a generation after [g]. *)
Definition not_ahead (g : Z) (w : worker) : Prop :=
  iter w <= g \/ (iter w = g + 1 /\ post_sweep w = false).

(** [curr] follows the parity of the generation, and the local counters
    are zero when the cell loops start. *)
Definition local_inv (w : worker) : Prop :=
  (curr w = (if post_sweep w then iter w else
               match pc w with Sweep => iter w | _ => iter w - 1 end) `mod` 2) /\
  prev w = 1 - curr w /\
  (pc w = Sweep -> local w = zero_counts).

(** What a worker that has run the cell loops of generation [g] has left
    behind, as long as no worker has started on the next generation: its
    local counters are the tally of its cells over the previous buffer, and
    its cells in the current buffer hold the next state of the previous
    buffer. *)
Definition swept_inv (p : params) (s : state) : Prop :=
  forall g, Forall (not_ahead g) (workers s) ->
  forall t w, workers s !! t = Some w -> iter w = g -> post_sweep w = true ->
    local w = tally (sel (mem s) (prev w)) (cells p (tid t)) zero_counts /\
    forall ij, ij ∈ cells p (tid t) ->
      get_cell (sel (mem s) (curr w)) ij.1 ij.2 =
      next_state (sel (mem s) (prev w)) ij.

(** All the cells that some worker visits. *)
Definition visited (p : params) : list (Z * Z) := worker_ids p ≫= cells p.

(** The states in which the reduction of generation [g] is complete: every
    worker has entered the second barrier call of generation [g], and none
    has come out of it yet. *)
Definition reduction_done (g : Z) (s : state) : Prop :=
  Forall (fun w => (exists tk, pc w = Wait B2 tk) /\ iter w = g) (workers s).

(** [./life 2 3 1.0 1] up to the moment the second worker has entered the
    second barrier. *)
Definition sched_2x3_reduced : list nat :=
  replicate 6 0%nat ++ replicate 16 1%nat ++ replicate 10 0%nat.

(** ** The run, one generation after the other

    The grids when the workers take turns: in generation [g] every worker
    in the order of its number runs its cell loops on the buffers of that
    generation. *)
Definition generation (p : params) (g : Z) (gs : grids) : grids :=
  foldl (fun gs t => (sweep p t (g `mod` 2) (1 - g `mod` 2) (gs, zero_counts)).1)
        gs (worker_ids p).

Fixpoint run_grids (p : params) (n : nat) : grids :=
  match n with
  | O => mem (init_state p)
  | S n' => generation p (Z.of_nat (S n')) (run_grids p n')
  end.

(** The worker has run the cell loops of generation [g]. *)
Definition has_swept (g : Z) (w : worker) : Prop :=
  g < iter w \/ (iter w = g /\ post_sweep w = true).

(** The generation a worker is in stays within the run. *)
Definition iter_inv (p : params) (w : worker) : Prop :=
  1 <= iter w /\ (iter w <= num_iters p + 1 \/ iter w = 1) /\
  (pc w = Done -> num_iters p < iter w) /\
  (pc w <> LoopHead -> pc w <> Done -> iter w <= num_iters p).

(** The grids of a state against the run by turns: when every worker has
    swept generation [n] and none generation [n + 2], the buffer of
    generation [n] is the one of the run by turns, and the other buffer
    holds the next state in the cells of the workers that have swept
    generation [n + 1] and is as in the run by turns elsewhere. *)
Definition ref_inv (p : params) (s : state) : Prop :=
  forall n : nat,
    Forall (has_swept (Z.of_nat n)) (workers s) ->
    Forall (fun w => ~ has_swept (Z.of_nat n + 2) w) (workers s) ->
    sel (mem s) (Z.of_nat n `mod` 2) = sel (run_grids p n) (Z.of_nat n `mod` 2) /\
    forall ij, in_grid (gridsize p) ij ->
      (forall t w, workers s !! t = Some w -> has_swept (Z.of_nat n + 1) w ->
         ij ∈ cells p (tid t) ->
         get_cell (sel (mem s) (1 - Z.of_nat n `mod` 2)) ij.1 ij.2 =
         next_state (sel (run_grids p n) (Z.of_nat n `mod` 2)) ij) /\
      ((forall t w, workers s !! t = Some w -> has_swept (Z.of_nat n + 1) w ->
          ij ∉ cells p (tid t)) ->
       get_cell (sel (mem s) (1 - Z.of_nat n `mod` 2)) ij.1 ij.2 =
       get_cell (sel (run_grids p n) (1 - Z.of_nat n `mod` 2)) ij.1 ij.2).

(** The same run with a single worker. *)
Definition single (p : params) : params :=
  Params 1 (gridsize p) (init_pct p) (num_iters p).

(** ** Progress of the workers *)

(** The worker can take its next step in state [s]: it has not returned,
    and neither the barrier nor the mutex holds it back. *)
Definition enabled (s : state) (w : worker) : bool :=
  match pc w with
  | Wait _ ticket => negb (Nat.eqb (epoch s) ticket)
  | Lock => negb (mutex s)
  | Done => false
  | _ => true
  end.

(** The place of a statement in the body of the loop of [thread_compute],
    counted in steps from the loop head; [Done] is one step after the loop
    head that ends the loop. *)
Definition position (l : label) : Z :=
  match l with
  | LoopHead => 0
  | Sweep => 1
  | Reset Live => 2
  | Reset Death => 3
  | Reset Birth => 4
  | Arrive B1 => 5
  | Wait B1 _ => 6
  | Lock => 7
  | Load Live => 8
  | Store Live => 9
  | Load Death => 10
  | Store Death => 11
  | Load Birth => 12
  | Store Birth => 13
  | Unlock => 14
  | Arrive B2 => 15
  | Wait B2 _ => 16
  | Report => 17
  | Done => 1
  end.

(** The steps a worker has taken: 18 for every generation it has been
    through, and its place in the current one. *)
Definition steps_taken (w : worker) : Z := 18 * (iter w - 1) + position (pc w).

(** The steps of a complete run. *)
Definition run_length (p : params) : Z :=
  Z.max 0 (num_threads p) * (18 * Z.max 0 (num_iters p) + 1).

(** ** Cell values *)

(** Every cell of a grid of size [n] holds 0 or 1. *)
Definition binary (n : Z) (g : grid) : Prop :=
  forall i j, in_grid n (i, j) -> get_cell g i j = 0 \/ get_cell g i j = 1.

(** ** The seeding, cell by cell *)

(** The interior cells in the order of the seeding loops of [main]: row
    after row, each from column 1 to column [n]. *)
Definition interior (n : Z) : list (Z * Z) :=
  i ← seqZ 1 n;
  j ← seqZ 1 n;
  [(i, j)].

(** The state of the generator after [k] calls of [drand48] since
    [srand48(0)]. *)
Definition draw (k : nat) : Z := Nat.iter k drand48_next (srand48 0).

(** The values of [init_pct] that every number drawn is below (1.0 and
    more), and those that none is below (0.0 and less, and NaN). *)
Definition seeds_all (pct : dbl) : bool :=
  match pct with
  | Finite q => Z.pos (QArith_base.Qden q) <=? QArith_base.Qnum q
  | PosInf => true
  | NegInf => false
  | NaN => false
  end.

Definition seeds_none (pct : dbl) : bool :=
  match pct with
  | Finite q => QArith_base.Qnum q <=? 0
  | PosInf => false
  | NegInf => true
  | NaN => true
  end.

(** ** Runs in which the cell loops change nothing *)

(** Both buffers all dead. *)
Definition zero_grids (n : Z) : grids := Grids (zero_grid n) (zero_grid n).

(** The cell loops of every worker, run on the grids as [main] leaves
    them, change no cell and count nothing. *)
Definition still (p : params) : Prop :=
  forall t curr prev, is_worker p t -> buffers_ok curr prev ->
    sweep p t curr prev (mem (init_state p), zero_counts) =
    (mem (init_state p), zero_counts).

(** A line of output that reports no living cell, no death and no birth,
    if it is a line of counters. *)
Definition quiet_line (l : line) : Prop :=
  match l with
  | CountersLine living died born => living = 0 /\ died = 0 /\ born = 0
  | _ => True
  end.

(** The statements at which a worker can find [live_count] as [main] left
    it: those before the first [live_count = 0], and [return]. *)
Definition before_reset (w : worker) : bool :=
  match pc w with
  | LoopHead | Sweep | Reset Live | Done => true
  | _ => false
  end.

(** What holds in every state of such a run. *)
Definition quiet (p : params) (s : state) : Prop :=
  mem s = mem (init_state p) /\
  c_death (shared s) = 0 /\ c_birth (shared s) = 0 /\
  (c_live (shared s) = 0 \/ Forall (fun w => before_reset w = true) (workers s)) /\
  Forall (fun w => local w = zero_counts /\ forall c, pc w = Store c -> tmp w = 0)
         (workers s) /\
  Forall quiet_line (stdout s).

(** ** The statistics of a generation *)

(** Generation [g] of the run by turns: the buffer that holds it. *)
Definition generation_grid (p : params) (g : Z) : grid :=
  sel (run_grids p (Z.to_nat g)) (g `mod` 2).

(** The statistics of generation [g] over the cells that some worker
    visits: the cells that live in generation [g], those that lived in
    generation [g - 1] and are dead in [g], and those that were dead and
    live. *)
Definition stats (p : params) (g : Z) : counts :=
  let before := generation_grid p (g - 1) in
  let now := generation_grid p g in
  Counts (count_cells (alive now) (visited p))
         (count_cells (fun ij => alive before ij && dead now ij) (visited p))
         (count_cells (fun ij => dead before ij && alive now ij) (visited p)).

(** The global counter [c] holds the statistics of the generation just
    reduced for as long as no worker has zeroed it for the next one. *)
Definition counters_kept (p : params) (c : counter) (s : state) : Prop :=
  forall g, Z.of_nat (epoch s) = 2 * g -> 1 <= g ->
    Forall (fun w => reset_done c w = false) (workers s) ->
    cnt (shared s) c = cnt (stats p g) c.

(** ** What a run prints *)

(** The worker has printed the line that opens its generation and not yet
    the counters of the generation. *)
Definition in_generation (w : worker) : bool :=
  match pc w with
  | LoopHead | Done => false
  | _ => true
  end.

(** The generations whose counters no worker can zero before worker 0 has
    printed them: every generation when there is one worker, and the last
    generation of the run. *)
Definition settled (p : params) (g : Z) : Prop :=
  num_threads p = 1 \/ g = num_iters p.

(** The lines that follow the first, in the order in which worker 0
    prints them. *)
Inductive item :=
  | IterationItem (g : Z)
  | CountersItem (g : Z).

Definition script (n : Z) : list item :=
  g ← seqZ 1 n;
  [IterationItem g; CountersItem g].

(** Line [l] is the line for item [it]; the counters of a settled
    generation are its statistics. *)
Definition prints (p : params) (it : item) (l : line) : Prop :=
  match it with
  | IterationItem g => l = IterationLine g
  | CountersItem g =>
      exists living died born,
        l = CountersLine living died born /\
        (settled p g -> Counts living died born = stats p g)
  end.

(** The output so far against the place of worker 0 in its loop. *)
Definition output_inv (p : params) (s : state) : Prop :=
  forall w, workers s !! 0%nat = Some w ->
    exists body,
      stdout s = InitialLine (seeding p).2 (int_mul (gridsize p) (gridsize p)) :: body /\
      Forall2 (prints p)
              (script (iter w - 1) ++
               (if in_generation w then [IterationItem (iter w)] else []))
              body.

(** What a complete run of one worker prints. *)
Definition expected_output (p : params) : list line :=
  InitialLine (seeding p).2 (int_mul (gridsize p) (gridsize p)) ::
  (g ← seqZ 1 (num_iters p);
   [IterationLine g;
    CountersLine (c_live (stats p g)) (c_death (stats p g)) (c_birth (stats p g))]).

(** [printf] takes every number of a line as an [int] ([%d]). *)
Definition line_in_int (l : line) : Prop :=
  match l with
  | InitialLine live total => in_int live /\ in_int total
  | IterationLine g => in_int g
  | CountersLine living died born => in_int living /\ in_int died /\ in_int born
  end.

(** ** The size of the counters *)

(** The number of interior cells. *)
Definition capacity (p : params) : Z :=
  Z.max 0 (gridsize p) * Z.max 0 (gridsize p).

(** ** The phases of a generation *)

(** The worker is between the two barrier calls of its generation, taking
    the mutex, adding its counts or giving the mutex back. *)
Definition accumulating (w : worker) : bool :=
  match pc w with
  | Lock | Load _ | Store _ | Unlock => true
  | _ => false
  end.

(** The worker is in the reduction of its generation: it has zeroed the
    global counters and entered the first barrier call, and has not yet
    left the second. *)
Definition reducing (w : worker) : bool :=
  match pc w with
  | Wait _ _ | Lock | Load _ | Store _ | Unlock | Arrive B2 => true
  | _ => false
  end.

(** The worker has not gone beyond the first barrier call of its
    generation, or has returned. *)
Definition opening (w : worker) : bool :=
  match pc w with
  | LoopHead | Sweep | Reset _ | Arrive B1 | Wait B1 _ | Done => true
  | _ => false
  end.

(** ** More concrete runs *)

(** [init_pct = 0.0]: no cell is seeded live. *)
Definition pct_zero : dbl := Finite (QArith_base.Qmake 0 1).

(** [./life 2 3 0.0 1] *)
Definition run_dead : params := Params 2 3 pct_zero 1.
(** [./life 3 2 1.0 1]: more workers than rows. *)
Definition run_3x2 : params := Params 3 2 pct_one 1.
(** [./life 2 3 1.0 0]: no generation. *)
Definition run_idle : params := Params 2 3 pct_one 0.

(** A complete schedule of three workers for one generation. *)
Definition sched_3x2 : list nat :=
  replicate 6 0%nat ++ replicate 6 1%nat ++ replicate 6 2%nat ++
  replicate 10 0%nat ++ replicate 10 1%nat ++ replicate 10 2%nat ++
  replicate 3 0%nat ++ replicate 3 1%nat ++ replicate 3 2%nat.

(** [./life 2 2 1.0 2] up to the moment worker 1 holds the mutex. *)
Definition sched_2x2_locked : list nat :=
  replicate 6 0%nat ++ replicate 8 1%nat.

(** [init_pct = 0.5] *)
Definition pct_half : dbl := Finite (QArith_base.Qmake 1 2).

(** [./life 2 4 0.5 2] *)
Definition run_2x4_half : params := Params 2 4 pct_half 2.

(** Worker 1 first, up to the moment both workers are in the second
    barrier call of generation 1. *)
Definition sched_2x4_reduced : list nat :=
  replicate 6 1%nat ++ replicate 16 0%nat ++ replicate 10 1%nat.

(** From there worker 1 leaves the barrier, goes through the printing
    statement, runs the cell loops of generation 2, zeroes the global
    counters and enters the first barrier call. *)
Definition sched_2x4_ahead : list nat := replicate 8 1%nat.

(** Then worker 0 leaves the second barrier call of generation 1, prints
    and runs generation 2, and both workers go to the end. *)
Definition sched_2x4_rest : list nat :=
  replicate 18 0%nat ++ replicate 13 1%nat ++ replicate 3 0%nat.

(** [./life 65536 131072 1.0 1]: the product [thread_num * gridsize] leaves
    the [int] range from worker 16384 on. *)
Definition run_overflow : params := Params 65536 131072 pct_one 1.

(** [./life 1 -46341 0.0 0]: the square of the grid size is above
    [INT_MAX]. *)
Definition run_square : params := Params 1 (-46341) pct_zero 0.

(** The error number [pthread_create] returns when it lacks the resources
    for another thread. *)
Definition EAGAIN : Z := 11.

(** The pthread library when the creation of worker 1 fails. *)
Definition env_create_fails : pthread_env :=
  PthreadEnv 0 0 (fun t => if t =? 1 then EAGAIN else 0).

(** * Properties *)

(** ** Row partition *)

Section Partition.
Variable p : params.
Hypothesis threads_pos : 1 <= num_threads p.
Hypothesis size_nonneg : 0 <= gridsize p.

Lemma start_row_floor t :
  0 <= t -> start_row p t = (t * gridsize p) `div` num_threads p + 1.
Proof.
  intros Ht. unfold start_row.
  rewrite Z.quot_div_nonneg by nia. reflexivity.
Qed.

Lemma end_row_floor t :
  0 <= t ->
  end_row p t =
  (t * gridsize p) `div` num_threads p + gridsize p `div` num_threads p.
Proof.
  intros Ht. unfold end_row. rewrite start_row_floor by done.
  rewrite (Z.quot_div_nonneg (gridsize p)) by lia. lia.
Qed.

(** Every worker's range lies among the interior rows. *)
Lemma range_interior t :
  is_worker p t -> 1 <= start_row p t /\ end_row p t <= gridsize p.
Proof.
  intros [Ht0 Htk].
  rewrite end_row_floor, start_row_floor by done.
  pose proof (Z.div_mod (t * gridsize p) (num_threads p)) as E1.
  pose proof (Z.mod_pos_bound (t * gridsize p) (num_threads p)) as B1.
  pose proof (Z.div_mod (gridsize p) (num_threads p)) as E2.
  pose proof (Z.mod_pos_bound (gridsize p) (num_threads p)) as B2.
  split; nia.
Qed.

(** Ranges come in the order of the worker index, one after the other. *)
Lemma ranges_ordered t1 t2 :
  0 <= t1 -> t1 < t2 -> end_row p t1 < start_row p t2.
Proof.
  intros H1 H12.
  rewrite end_row_floor, start_row_floor by lia.
  pose proof (Z.div_mod (t1 * gridsize p) (num_threads p)) as E1.
  pose proof (Z.mod_pos_bound (t1 * gridsize p) (num_threads p)) as B1.
  pose proof (Z.div_mod (gridsize p) (num_threads p)) as E2.
  pose proof (Z.mod_pos_bound (gridsize p) (num_threads p)) as B2.
  pose proof (Z.div_mod (t2 * gridsize p) (num_threads p)) as E3.
  pose proof (Z.mod_pos_bound (t2 * gridsize p) (num_threads p)) as B3.
  assert (Hstep : t1 * gridsize p + gridsize p <= t2 * gridsize p) by nia.
  assert (Hk : num_threads p * ((t1 * gridsize p) `div` num_threads p +
                                gridsize p `div` num_threads p)
               < num_threads p * ((t2 * gridsize p) `div` num_threads p + 1))
    by lia.
  apply Z.mul_lt_mono_pos_l in Hk; lia.
Qed.

Lemma owns_unique t1 t2 r :
  0 <= t1 -> 0 <= t2 -> owns p t1 r -> owns p t2 r -> t1 = t2.
Proof.
  unfold owns. intros H1 H2 O1 O2.
  destruct (Z.lt_trichotomy t1 t2) as [L | [E | L]]; [| done |].
  - pose proof (ranges_ordered t1 t2 H1 L). lia.
  - pose proof (ranges_ordered t2 t1 H2 L). lia.
Qed.

(** The ranges when the division is exact. *)
Lemma exact_ranges t :
  0 <= t -> gridsize p `mod` num_threads p = 0 ->
  start_row p t = t * (gridsize p `div` num_threads p) + 1 /\
  end_row p t = (t + 1) * (gridsize p `div` num_threads p).
Proof.
  intros Ht Hm.
  rewrite end_row_floor, start_row_floor by done.
  pose proof (Z.div_mod (gridsize p) (num_threads p)) as E2.
  assert (E : t * gridsize p =
              t * (gridsize p `div` num_threads p) * num_threads p) by nia.
  rewrite E, Z.div_mul by lia. lia.
Qed.

Lemma exact_cover r :
  gridsize p `mod` num_threads p = 0 -> 1 <= r <= gridsize p ->
  exists t, is_worker p t /\ owns p t r.
Proof.
  intros Hm Hr.
  set (q := gridsize p `div` num_threads p).
  pose proof (Z.div_mod (gridsize p) (num_threads p)) as E2. fold q in E2.
  assert (Hq : 0 < q) by nia.
  exists ((r - 1) `div` q).
  pose proof (Z.div_mod (r - 1) q) as E1.
  pose proof (Z.mod_pos_bound (r - 1) q) as B1.
  assert (H0 : 0 <= (r - 1) `div` q) by (apply Z.div_pos; lia).
  destruct (exact_ranges ((r - 1) `div` q) H0 Hm) as [Es Ee].
  fold q in Es, Ee.
  unfold is_worker, owns. rewrite Es, Ee. nia.
Qed.

(** The last interior row is left out as soon as the division has a
    remainder. *)
Lemma last_row_unowned :
  gridsize p `mod` num_threads p <> 0 -> unowned p (gridsize p).
Proof.
  intros Hm.
  pose proof (Z.div_mod (gridsize p) (num_threads p)) as E2.
  pose proof (Z.mod_pos_bound (gridsize p) (num_threads p)) as B2.
  assert (Hn : gridsize p <> 0).
  { intros E. rewrite E, Z.mod_0_l in Hm by lia. done. }
  split; [lia |].
  intros t [Ht0 Htk] [_ Hle].
  rewrite end_row_floor in Hle by done.
  pose proof (Z.div_mod (t * gridsize p) (num_threads p)) as E1.
  pose proof (Z.mod_pos_bound (t * gridsize p) (num_threads p)) as B1.
  set (k := num_threads p) in *. set (q := gridsize p `div` k) in *.
  set (r := gridsize p `mod` k) in *.
  set (q1 := (t * gridsize p) `div` k) in *.
  assert (Hq : 0 <= q) by (apply Z.div_pos; lia).
  assert (H1 : k * (q1 - t * q) < k * r) by nia.
  apply Z.mul_lt_mono_pos_l in H1; [| lia].
  assert (H2 : (t + 1) * q <= k * q) by nia.
  lia.
Qed.
End Partition.

(** The values computed on the way to [start_row] and [end_row] fit an
    [int], so the evaluation on [Z] is the one of the C expressions. *)
Lemma partition_in_int p t :
  is_worker p t -> 0 <= gridsize p ->
  num_threads p * gridsize p < INT_MAX ->
  in_int (t * gridsize p) /\
  in_int ((t * gridsize p) ÷ num_threads p) /\
  in_int (start_row p t) /\
  in_int (gridsize p ÷ num_threads p) /\
  in_int (start_row p t + gridsize p ÷ num_threads p) /\
  in_int (end_row p t).
Proof.
  intros [Ht0 Htk] Hn Hmax.
  assert (Hk : 1 <= num_threads p) by lia.
  pose proof (range_interior p Hk Hn t (conj Ht0 Htk)) as [Hs He].
  unfold end_row in *. unfold start_row in *.
  rewrite !Z.quot_div_nonneg in * by nia.
  pose proof (Z.div_mod (t * gridsize p) (num_threads p)) as E1.
  pose proof (Z.mod_pos_bound (t * gridsize p) (num_threads p)) as B1.
  pose proof (Z.div_mod (gridsize p) (num_threads p)) as E2.
  pose proof (Z.mod_pos_bound (gridsize p) (num_threads p)) as B2.
  assert (0 <= gridsize p `div` num_threads p) by (apply Z.div_pos; lia).
  assert (0 <= (t * gridsize p) `div` num_threads p) by (apply Z.div_pos; nia).
  assert (gridsize p <= num_threads p * gridsize p) by nia.
  assert (t * gridsize p <= num_threads p * gridsize p) by nia.
  unfold in_int, INT_MIN, INT_MAX in *. repeat split; nia.
Qed.

(** An [int] operation without overflow gives the mathematical result. *)
Lemma wrap_in_int x : in_int x -> wrap x = x.
Proof.
  unfold in_int, wrap, INT_MIN, INT_MAX. intros H.
  rewrite Z.mod_small; lia.
Qed.

Lemma wrap_range x : in_int (wrap x).
Proof.
  unfold in_int, wrap, INT_MIN, INT_MAX.
  pose proof (Z.mod_pos_bound (x + 2147483648) 4294967296). lia.
Qed.

(** Within the bound the compiled program computes [start_row] and
    [end_row]. *)
Lemma partition_int_exact p t :
  is_worker p t -> 0 <= gridsize p ->
  num_threads p * gridsize p < INT_MAX ->
  start_row_int p t = start_row p t /\ end_row_int p t = end_row p t.
Proof.
  intros Ht Hn Hmax.
  destruct (partition_in_int p t Ht Hn Hmax) as (H1 & H2 & H3 & H4 & H5 & H6).
  assert (Hs : start_row_int p t = start_row p t).
  { unfold start_row_int, int_add, int_div, int_mul.
    rewrite (wrap_in_int _ H1). by apply wrap_in_int. }
  split; [done |].
  unfold end_row_int, int_sub, int_add, int_div.
  rewrite Hs, (wrap_in_int _ H5). by apply wrap_in_int.
Qed.

Lemma owns_int_exact p t r :
  is_worker p t -> 0 <= gridsize p ->
  num_threads p * gridsize p < INT_MAX ->
  owns_int p t r <-> owns p t r.
Proof.
  intros Ht Hn Hmax. unfold owns_int, owns.
  by destruct (partition_int_exact p t Ht Hn Hmax) as [-> ->].
Qed.

Lemma ownsb_spec p t r : ownsb p t r = true <-> owns p t r.
Proof. unfold ownsb, owns. rewrite andb_true_iff, !Z.leb_le. done. Qed.

Lemma unownedb_spec p r : unownedb p r = true <-> unowned p r.
Proof.
  unfold unownedb, unowned, worker_ids, is_worker.
  rewrite !andb_true_iff, !Z.leb_le, forallb_forall.
  split.
  - intros [Hr Hall]. split; [done |]. intros t Ht Ho.
    specialize (Hall t). rewrite <- list_elem_of_In, elem_of_seqZ in Hall.
    rewrite <- ownsb_spec in Ho. rewrite Ho in Hall.
    discriminate Hall. lia.
  - intros [Hr Hall]. split; [done |]. intros t Ht.
    rewrite <- list_elem_of_In, elem_of_seqZ in Ht.
    destruct (ownsb p t r) eqn:E; [| done].
    apply ownsb_spec in E. destruct (Hall t); [lia | done].
Qed.

(** ** Cells of a grid *)

Lemma get_set_cell_ne g i j v i' j' :
  0 <= i -> 0 <= j -> 0 <= i' -> 0 <= j' -> (i, j) <> (i', j') ->
  get_cell (set_cell g i j v) i' j' = get_cell g i' j'.
Proof.
  intros Hi Hj Hi' Hj' Hne. unfold get_cell, set_cell.
  rewrite list_lookup_total_alter. case_decide as Hd; [| done].
  destruct Hd as [Hd _]. assert (i = i') as <- by lia.
  apply list_lookup_total_insert_ne. intros E. apply Hne. f_equal. lia.
Qed.

Lemma shaped_row n g i :
  shaped n g -> 0 <= i <= n + 1 -> length (g !!! Z.to_nat i) = Z.to_nat (n + 2).
Proof.
  intros [Hl Hr] Hi.
  apply (Forall_lookup_total_1 _ g (Z.to_nat i) Hr). lia.
Qed.

Lemma get_set_cell_eq n g i j v :
  shaped n g -> in_grid n (i, j) -> get_cell (set_cell g i j v) i j = v.
Proof.
  intros Hs [Hi Hj]. simpl in *. unfold get_cell, set_cell.
  rewrite list_lookup_total_alter_eq by (destruct Hs; lia).
  apply list_lookup_total_insert_eq. rewrite (shaped_row n) by done. lia.
Qed.

Lemma shaped_set_cell n g i j v : shaped n g -> shaped n (set_cell g i j v).
Proof.
  intros [Hl Hr]. split.
  - unfold set_cell. by rewrite length_alter.
  - apply Forall_alter; [done |]. intros row _ Hrow. by rewrite length_insert.
Qed.

Lemma shaped_zero_grid n : shaped n (zero_grid n).
Proof.
  split.
  - apply length_replicate.
  - apply Forall_replicate, length_replicate.
Qed.

Lemma get_zero_grid n i j : in_grid n (i, j) -> get_cell (zero_grid n) i j = 0.
Proof.
  intros [Hi Hj]. simpl in *. unfold get_cell, zero_grid.
  rewrite !lookup_total_replicate_2 by lia. done.
Qed.

(** Two grids of the same shape with the same cells are the same grid. *)
Lemma grid_ext n g g' :
  shaped n g -> shaped n g' ->
  (forall i j, in_grid n (i, j) -> get_cell g i j = get_cell g' i j) ->
  g = g'.
Proof.
  intros [Hl Hr] [Hl' Hr'] Hget.
  apply list_eq_same_length with (Z.to_nat (n + 2)); [done | done |].
  intros i row row' Hi Hrow Hrow'.
  pose proof (Forall_lookup_1 _ _ _ _ Hr Hrow) as Hlen.
  pose proof (Forall_lookup_1 _ _ _ _ Hr' Hrow') as Hlen'.
  simpl in Hlen, Hlen'.
  apply list_eq_same_length with (Z.to_nat (n + 2)); [done | done |].
  intros j x x' Hj Hx Hx'.
    specialize (Hget (Z.of_nat i) (Z.of_nat j)). unfold get_cell in Hget.
    rewrite !Nat2Z.id in Hget.
    rewrite (list_lookup_total_correct _ _ _ Hrow) in Hget.
    rewrite (list_lookup_total_correct _ _ _ Hrow') in Hget.
    rewrite (list_lookup_total_correct _ _ _ Hx) in Hget.
    rewrite (list_lookup_total_correct _ _ _ Hx') in Hget.
    apply Hget. split; simpl; lia.
Qed.

(** ** Painting a list of cells *)

Lemma paint_snoc f l ij g :
  paint f (l ++ [ij]) g = set_cell (paint f l g) ij.1 ij.2 (f ij).
Proof. unfold paint. by rewrite foldl_snoc. Qed.

Lemma shaped_paint n f l g : shaped n g -> shaped n (paint f l g).
Proof.
  intros Hs. induction l as [| ij l IH] using rev_ind; [done |].
  rewrite paint_snoc. by apply shaped_set_cell.
Qed.

Lemma get_paint_in n f l g ij :
  shaped n g -> Forall (in_grid n) l -> ij ∈ l ->
  get_cell (paint f l g) ij.1 ij.2 = f ij.
Proof.
  intros Hs. induction l as [| x l IH] using rev_ind; intros Hl Hin.
  - by apply elem_of_nil in Hin.
  - rewrite paint_snoc. apply Forall_app in Hl as [Hl Hx].
    apply Forall_inv in Hx.
    destruct (decide (x = ij)) as [-> | Hne].
    + destruct ij as [i j].
      apply (get_set_cell_eq n); [by apply shaped_paint | done].
    + assert (Hin' : ij ∈ l).
      { apply elem_of_app in Hin as [? | Hin]; [done |].
        apply list_elem_of_singleton in Hin. congruence. }
      specialize (IH Hl Hin').
      assert (Hij : in_grid n ij) by (by eapply Forall_forall in Hl).
      destruct x as [i j], ij as [i' j'], Hx as [? ?], Hij as [? ?].
      simpl in *. rewrite get_set_cell_ne; [done | lia .. |].
      congruence.
Qed.

Lemma get_paint_out n f l g i j :
  Forall (in_grid n) l -> 0 <= i -> 0 <= j -> (i, j) ∉ l ->
  get_cell (paint f l g) i j = get_cell g i j.
Proof.
  induction l as [| x l IH] using rev_ind; intros Hl Hi Hj Hnin; [done |].
  rewrite paint_snoc. apply Forall_app in Hl as [Hl Hx].
  apply Forall_inv in Hx. rewrite not_elem_of_app in Hnin.
  destruct Hnin as [Hnin Hx']. rewrite list_elem_of_singleton in Hx'.
  destruct x as [i' j'], Hx as [? ?]. simpl in *.
  rewrite get_set_cell_ne; [by apply IH | lia .. | congruence].
Qed.

(** ** The two buffers *)

Lemma sel_put_same gs b g : sel (put gs b g) b = g.
Proof. unfold sel, put. by destruct (b =? 0). Qed.

Lemma sel_put_other gs curr prev g :
  buffers_ok curr prev -> sel (put gs curr g) prev = sel gs prev.
Proof. by intros [[-> ->] | [-> ->]]. Qed.

Lemma put_put gs b g g' : put (put gs b g) b g' = put gs b g'.
Proof. unfold put. by destruct (b =? 0). Qed.

Lemma put_sel gs b : put gs b (sel gs b) = gs.
Proof. unfold put, sel. destruct gs. by destruct (b =? 0). Qed.

Lemma write_put gs b i j v :
  write gs b i j v = put gs b (set_cell (sel gs b) i j v).
Proof. unfold write, put, sel. by destruct (b =? 0). Qed.

Lemma buffers_ok_swap curr prev :
  buffers_ok curr prev -> buffers_ok (1 - curr) (1 - prev).
Proof. intros [[-> ->] | [-> ->]]; [by right | by left]. Qed.

Lemma shaped2_put n gs b g : shaped2 n gs -> shaped n g -> shaped2 n (put gs b g).
Proof. intros [H0 H1] Hg. unfold put. by destruct (b =? 0). Qed.

Lemma shaped2_sel n gs b : shaped2 n gs -> shaped n (sel gs b).
Proof. intros [H0 H1]. unfold sel. by destruct (b =? 0). Qed.

(** ** One worker's cells *)

Lemma elem_of_cells p t i j :
  (i, j) ∈ cells p t <-> owns p t i /\ 1 <= j <= gridsize p.
Proof.
  unfold cells, owns. rewrite list_elem_of_bind. split.
  - intros (i' & Hj & Hi). apply list_elem_of_bind in Hj as (j' & Hij & Hj).
    apply list_elem_of_singleton in Hij. injection Hij as -> ->.
    rewrite elem_of_seqZ in Hi, Hj. lia.
  - intros [Hi Hj]. exists i. split; [| rewrite elem_of_seqZ; lia].
    apply list_elem_of_bind. exists j. split; [by apply list_elem_of_singleton |].
    rewrite elem_of_seqZ. lia.
Qed.

(** A worker only visits interior cells. *)
Lemma cells_interior p t i j :
  is_worker p t -> (i, j) ∈ cells p t ->
  1 <= i <= gridsize p /\ 1 <= j <= gridsize p.
Proof.
  intros Ht [Ho Hj]%elem_of_cells. split; [| done].
  destruct (range_interior p) with t; [unfold is_worker in Ht; lia .. | done |].
  unfold owns in Ho. lia.
Qed.

(** Every cell the loops read or write, the visited cell and its eight
    neighbours, lies inside the allocated grid. *)
Lemma accesses_in_grid p t i j di dj :
  is_worker p t -> (i, j) ∈ cells p t ->
  -1 <= di <= 1 -> -1 <= dj <= 1 ->
  in_grid (gridsize p) (i + di, j + dj).
Proof.
  intros Ht Hin Hdi Hdj. destruct (cells_interior p t i j Ht Hin).
  split; simpl; lia.
Qed.

Lemma cells_in_grid p t : is_worker p t -> Forall (in_grid (gridsize p)) (cells p t).
Proof.
  intros Ht. apply Forall_forall. intros [i j] Hin.
  destruct (cells_interior p t i j Ht Hin). split; simpl; lia.
Qed.

Lemma cells_not_halo p t ij :
  is_worker p t -> ij ∈ cells p t -> ~ halo (gridsize p) ij.
Proof.
  destruct ij as [i j]. intros Ht Hin [_ Hh]. simpl in Hh.
  destruct (cells_interior p t i j Ht Hin). lia.
Qed.

Lemma NoDup_cells p t : NoDup (cells p t).
Proof.
  unfold cells. apply NoDup_bind; [| | apply NoDup_seqZ].
  - intros i1 i2 [i j] _ _ H1 H2.
    apply list_elem_of_bind in H1 as (? & E1%list_elem_of_singleton & _).
    apply list_elem_of_bind in H2 as (? & E2%list_elem_of_singleton & _).
    congruence.
  - intros i _. apply NoDup_bind; [| | apply NoDup_seqZ].
    + intros j1 j2 [i' j] _ _ E1%list_elem_of_singleton E2%list_elem_of_singleton.
      congruence.
    + intros j _. apply NoDup_singleton.
Qed.

(** Two workers never visit the same cell. *)
Lemma cells_disjoint p t1 t2 ij :
  is_worker p t1 -> is_worker p t2 -> ij ∈ cells p t1 -> ij ∈ cells p t2 ->
  t1 = t2.
Proof.
  destruct ij as [i j]. intros H1 H2 [O1 Hj]%elem_of_cells [O2 _]%elem_of_cells.
  unfold is_worker in *. apply (owns_unique p) with i; try done; lia.
Qed.

(** ** The sweep in closed form *)

Lemma foldl_bind {A B C} (f : A -> C -> A) (h : B -> list C) (l : list B) a :
  foldl f a (l ≫= h) = foldl (fun a x => foldl f a (h x)) a l.
Proof.
  revert a. induction l as [| x l IH]; intros a; [done |].
  rewrite bind_cons, foldl_app. simpl. apply IH.
Qed.

Lemma foldl_ext {A B} (f h : A -> B -> A) (l : list B) a :
  (forall a x, f a x = h a x) -> foldl f a l = foldl h a l.
Proof.
  intros E. revert a. induction l as [| x l IH]; intros a; [done |].
  simpl. by rewrite E, IH.
Qed.

Lemma sweep_cells p t curr prev st :
  sweep p t curr prev st =
  foldl (fun st ij => cell_step curr prev ij.1 ij.2 st) st (cells p t).
Proof.
  unfold sweep, cells, row_loop. rewrite foldl_bind.
  apply foldl_ext. intros st' i. rewrite foldl_bind. by apply foldl_ext.
Qed.

Lemma cell_step_spec n curr prev gs lc ij :
  buffers_ok curr prev -> shaped n (sel gs curr) -> in_grid n ij ->
  cell_step curr prev ij.1 ij.2 (gs, lc) =
  (put gs curr (set_cell (sel gs curr) ij.1 ij.2 (next_state (sel gs prev) ij)),
   Counts (c_live lc + next_state (sel gs prev) ij)
          (c_death lc + Z.b2z (died (sel gs prev) ij))
          (c_birth lc + Z.b2z (born (sel gs prev) ij))).
Proof.
  intros Hb Hs Hij. destruct ij as [i j]. simpl.
  unfold cell_step, next_state, rule, born, died. simpl.
  destruct lc as [l d b].
  destruct (Z.eqb_spec (neigh_count (sel gs prev) i j) 2) as [E2 | E2];
    [rewrite E2 | destruct (neigh_count (sel gs prev) i j =? 3)];
    destruct (get_cell (sel gs prev) i j =? 0) eqn:E; simpl;
    rewrite write_put, sel_put_same, (get_set_cell_eq n) by done;
    f_equal; f_equal; lia.
Qed.

Lemma tally_snoc g l ij lc :
  tally g (l ++ [ij]) lc =
  Counts (c_live (tally g l lc) + next_state g ij)
         (c_death (tally g l lc) + Z.b2z (died g ij))
         (c_birth (tally g l lc) + Z.b2z (born g ij)).
Proof. unfold tally. by rewrite foldl_snoc. Qed.

Lemma cell_steps_spec n curr prev l gs lc :
  buffers_ok curr prev -> shaped n (sel gs curr) -> Forall (in_grid n) l ->
  foldl (fun st ij => cell_step curr prev ij.1 ij.2 st) (gs, lc) l =
  (put gs curr (paint (next_state (sel gs prev)) l (sel gs curr)),
   tally (sel gs prev) l lc).
Proof.
  intros Hb Hs. induction l as [| ij l IH] using rev_ind; intros Hl.
  - simpl. by rewrite put_sel.
  - apply Forall_app in Hl as [Hl Hij]. apply Forall_inv in Hij.
    rewrite foldl_snoc, IH by done.
    rewrite (cell_step_spec n), sel_put_same, sel_put_other, put_put; try done.
    + by rewrite paint_snoc, tally_snoc.
    + rewrite sel_put_same. by apply shaped_paint.
Qed.

(** What one worker's sweep does to the grids and to its counters. *)
Lemma sweep_spec p t curr prev gs lc :
  is_worker p t -> buffers_ok curr prev -> shaped2 (gridsize p) gs ->
  sweep p t curr prev (gs, lc) =
  (put gs curr (paint (next_state (sel gs prev)) (cells p t) (sel gs curr)),
   tally (sel gs prev) (cells p t) lc).
Proof.
  intros Ht Hb Hs. rewrite sweep_cells.
  apply (cell_steps_spec (gridsize p)); [done | by apply shaped2_sel |].
  by apply cells_in_grid.
Qed.

Lemma tally_birth g l lc :
  c_birth (tally g l lc) = c_birth lc + count_cells (born g) l.
Proof.
  unfold count_cells. induction l as [| ij l IH] using rev_ind; [simpl; lia |].
  rewrite tally_snoc, filter_app, length_app. simpl. rewrite IH.
  rewrite filter_cons, filter_nil.
  case_decide as Hd; [rewrite Hd | destruct (born g ij); [done |]]; simpl; lia.
Qed.

Lemma tally_death g l lc :
  c_death (tally g l lc) = c_death lc + count_cells (died g) l.
Proof.
  unfold count_cells. induction l as [| ij l IH] using rev_ind; [simpl; lia |].
  rewrite tally_snoc, filter_app, length_app. simpl. rewrite IH.
  rewrite filter_cons, filter_nil.
  case_decide as Hd; [rewrite Hd | destruct (died g ij); [done |]]; simpl; lia.
Qed.

Lemma born_iff g ij :
  born g ij = dead g ij && negb (next_state g ij =? 0).
Proof.
  unfold born, dead, next_state, rule.
  destruct (get_cell g ij.1 ij.2 =? 0) eqn:E.
  - apply Z.eqb_eq in E. rewrite E.
    destruct (neigh_count g ij.1 ij.2 =? 2) eqn:E2.
    + apply Z.eqb_eq in E2. by rewrite E2.
    + by destruct (neigh_count g ij.1 ij.2 =? 3).
  - by rewrite andb_false_r.
Qed.

Lemma died_iff g ij :
  died g ij = negb (dead g ij) && (next_state g ij =? 0).
Proof.
  unfold died, dead, next_state, rule.
  destruct (get_cell g ij.1 ij.2 =? 0) eqn:E.
  - by rewrite andb_false_r.
  - destruct (neigh_count g ij.1 ij.2 =? 2) eqn:E2; simpl; [by rewrite E |].
    by destruct (neigh_count g ij.1 ij.2 =? 3).
Qed.

(** ** Runs *)

Lemma exec_app p l1 l2 s :
  exec p (l1 ++ l2) s = exec p l1 s ≫= exec p l2.
Proof.
  revert s. induction l1 as [| t l1 IH]; intros s; [done |].
  simpl. destruct (thread_compute p t s) as [s' |]; simpl; [apply IH | done].
Qed.

Lemma reachable_init p : reachable p (init_state p).
Proof. by exists []. Qed.

Lemma reachable_step p t s s' :
  reachable p s -> thread_compute p t s = Some s' -> reachable p s'.
Proof.
  intros [sched Hs] Hstep. exists (sched ++ [t]).
  rewrite exec_app, Hs. simpl. by rewrite Hstep.
Qed.

(** Induction over the states of a run. *)
Lemma reachable_ind p (Q : state -> Prop) :
  Q (init_state p) ->
  (forall t s s', reachable p s -> Q s -> thread_compute p t s = Some s' -> Q s') ->
  forall s, reachable p s -> Q s.
Proof.
  intros Hinit Hstep s [sched Hs]. revert s Hs.
  induction sched as [| t sched IH] using rev_ind; intros s Hs.
  - simpl in Hs. by injection Hs as <-.
  - rewrite exec_app in Hs.
    destruct (exec p sched (init_state p)) as [s0 |] eqn:E0; [| done].
    simpl in Hs. destruct (thread_compute p t s0) as [s1 |] eqn:E1; [| done].
    simpl in Hs. injection Hs as <-.
    apply (Hstep t s0); [by exists sched | by apply IH | done].
Qed.

(** Printing and entering the barrier leave the rest of the state alone. *)
Lemma print0_fields s t l :
  mem (print0 s t l) = mem s /\ shared (print0 s t l) = shared s /\
  mutex (print0 s t l) = mutex s /\ arrived (print0 s t l) = arrived s /\
  epoch (print0 s t l) = epoch s /\ workers (print0 s t l) = workers s.
Proof. by destruct t. Qed.

Lemma arrive_fields p s :
  mem (arrive p s) = mem s /\ shared (arrive p s) = shared s /\
  mutex (arrive p s) = mutex s /\ workers (arrive p s) = workers s /\
  stdout (arrive p s) = stdout s.
Proof. unfold arrive. by case_match. Qed.

Lemma mem_print0 s t l : mem (print0 s t l) = mem s.
Proof. apply print0_fields. Qed.
Lemma shared_print0 s t l : shared (print0 s t l) = shared s.
Proof. apply print0_fields. Qed.
Lemma mutex_print0 s t l : mutex (print0 s t l) = mutex s.
Proof. apply print0_fields. Qed.
Lemma arrived_print0 s t l : arrived (print0 s t l) = arrived s.
Proof. apply print0_fields. Qed.
Lemma epoch_print0 s t l : epoch (print0 s t l) = epoch s.
Proof. apply print0_fields. Qed.
Lemma workers_print0 s t l : workers (print0 s t l) = workers s.
Proof. apply print0_fields. Qed.
Lemma mem_arrive p s : mem (arrive p s) = mem s.
Proof. apply arrive_fields. Qed.
Lemma shared_arrive p s : shared (arrive p s) = shared s.
Proof. apply arrive_fields. Qed.
Lemma mutex_arrive p s : mutex (arrive p s) = mutex s.
Proof. apply arrive_fields. Qed.
Lemma workers_arrive p s : workers (arrive p s) = workers s.
Proof. apply arrive_fields. Qed.
Lemma stdout_arrive p s : stdout (arrive p s) = stdout s.
Proof. apply arrive_fields. Qed.

Arguments print0 : simpl never.
Arguments arrive : simpl never.

Create Rewrite HintDb state.
#[export] Hint Rewrite mem_print0 shared_print0 mutex_print0 arrived_print0
  epoch_print0 workers_print0 mem_arrive shared_arrive mutex_arrive
  workers_arrive stdout_arrive : state.

(** Taking apart a successful step: the stepping worker and the case of
    its label. *)
Ltac step_inv H w Hw :=
  unfold thread_compute in H;
  match type of H with
  | context [workers ?s !! ?t] =>
      destruct (workers s !! t) as [w |] eqn:Hw; [| discriminate H]
  end;
  simpl in H;
  let Hpc := fresh "Hpc" in
  destruct (pc w) eqn:Hpc; repeat case_match; simplify_eq.

Ltac cases_cb :=
  repeat match goal with
         | c : counter |- _ => destruct c
         | b : site |- _ => destruct b
         end.

(** A step changes the stepping worker only; it changes the grids only
    when it is the sweep. *)
Lemma step_frame p t s s' :
  thread_compute p t s = Some s' ->
  exists w w',
    workers s !! t = Some w /\
    workers s' = <[t := w']> (workers s) /\
    ((curr w' = curr w /\ prev w' = prev w) \/
     (curr w' = 1 - curr w /\ prev w' = 1 - prev w)) /\
    (mem s' = mem s \/
     (pc w = Sweep /\
      mem s' = (sweep p (tid t) (curr w) (prev w) (mem s, local w)).1)).
Proof.
  intros H. step_inv H w Hw; exists w; eexists; simpl;
    autorewrite with state; (split_and!; [done | done | |]); simpl;
    try (by left); try (by right).
  right. split; [done |]. by rewrite H0.
Qed.

(** The sweep step. *)
Lemma step_sweep p t s s' w :
  workers s !! t = Some w -> pc w = Sweep -> thread_compute p t s = Some s' ->
  mem s' = (sweep p (tid t) (curr w) (prev w) (mem s, local w)).1.
Proof.
  intros Hw Hpc Hstep. unfold thread_compute in Hstep. rewrite Hw in Hstep.
  simpl in Hstep. rewrite Hpc in Hstep.
  destruct (sweep p (tid t) (curr w) (prev w) (mem s, local w)) as [gs lc].
  by simplify_eq.
Qed.

Lemma worker_is_worker p s t w :
  well_formed p s -> workers s !! t = Some w -> is_worker p (tid t).
Proof.
  intros (_ & Hlen & _) Hw. apply lookup_lt_Some in Hw.
  unfold is_worker, tid. lia.
Qed.

(** ** The seeded grid *)

Lemma foldl_inv {A B} (Q : A -> Prop) (f : A -> B -> A) (l : list B) a :
  (forall a x, x ∈ l -> Q a -> Q (f a x)) -> Q a -> Q (foldl f a l).
Proof.
  revert a. induction l as [| x l IH]; intros a Hf Ha; [done |].
  simpl. apply IH.
  - intros a' x' Hx'. apply Hf. by right.
  - apply Hf; [by left | done].
Qed.

(** The seeding loops keep the shape and write interior cells only. *)
Lemma seeding_inv p (Q : grid -> Prop) :
  Q (zero_grid (gridsize p)) ->
  (forall g i j v,
     1 <= i <= gridsize p -> 1 <= j <= gridsize p -> Q g -> Q (set_cell g i j v)) ->
  Q (seeding p).1.1.
Proof.
  intros Hz Hset. unfold seeding.
  apply (foldl_inv (fun st => Q st.1.1)); [| done].
  intros st i Hi Hst. unfold seed_row.
  apply (foldl_inv (fun st => Q st.1.1)); [| done].
  intros [[g x] lc] j Hj Hg. rewrite elem_of_seqZ in Hi, Hj.
  unfold seed_cell. case_match; simpl; apply Hset; done || lia.
Qed.

Lemma shaped_seeding p : shaped (gridsize p) (seeding p).1.1.
Proof.
  apply seeding_inv; [apply shaped_zero_grid |].
  intros. by apply shaped_set_cell.
Qed.

Lemma halo_seeding p ij :
  halo (gridsize p) ij -> get_cell (seeding p).1.1 ij.1 ij.2 = 0.
Proof.
  intros [Hin Hh].
  apply (seeding_inv p (fun g => get_cell g ij.1 ij.2 = 0)).
  - destruct ij. by apply get_zero_grid.
  - intros g i j v Hi Hj Hg. destruct ij as [i' j'], Hin as [? ?]. simpl in *.
    rewrite get_set_cell_ne; [done | lia .. |]. intros [= -> ->]. lia.
Qed.

Lemma mem_init_state p :
  mem (init_state p) = Grids (seeding p).1.1 (zero_grid (gridsize p)).
Proof. unfold init_state. by destruct (seeding p) as [[g x] lc]. Qed.

Lemma workers_init_state p :
  workers (init_state p) = replicate (Z.to_nat (num_threads p)) init_worker.
Proof. unfold init_state. by destruct (seeding p) as [[g x] lc]. Qed.

(** ** Well-formed states *)

Lemma well_formed_init p : well_formed p (init_state p).
Proof.
  unfold well_formed. rewrite mem_init_state, workers_init_state. split_and!.
  - split; [apply shaped_seeding | apply shaped_zero_grid].
  - apply length_replicate.
  - apply Forall_replicate. by left.
Qed.

Lemma well_formed_step p t s s' :
  well_formed p s -> thread_compute p t s = Some s' -> well_formed p s'.
Proof.
  intros Hwf Hstep.
  destruct (step_frame p t s s' Hstep) as (w & w' & Hw & Hws & Hcp & Hmem).
  pose proof (worker_is_worker p s t w Hwf Hw) as Ht.
  destruct Hwf as (Hsh & Hlen & Hbuf).
  assert (Hb : buffers_ok (curr w) (prev w)).
  { by apply (Forall_lookup_1 _ _ _ _ Hbuf Hw). }
  split_and!.
  - destruct Hmem as [-> | [_ ->]]; [done |].
    rewrite sweep_spec by done. simpl.
    apply shaped2_put; [done |]. apply shaped_paint. by apply shaped2_sel.
  - by rewrite Hws, length_insert.
  - rewrite Hws. apply Forall_insert; [done |].
    destruct Hcp as [[-> ->] | [-> ->]]; [done | by apply buffers_ok_swap].
Qed.

Lemma reachable_well_formed p s : reachable p s -> well_formed p s.
Proof.
  revert s. apply reachable_ind; [apply well_formed_init |].
  intros t s s' _. apply well_formed_step.
Qed.

(** ** Cells that no worker visits *)

(** A sweep leaves alone the whole of the previous buffer, and every cell
    outside the worker's own list in the current one. *)
Lemma sweep_prev p t curr prev gs lc :
  is_worker p t -> buffers_ok curr prev -> shaped2 (gridsize p) gs ->
  sel (sweep p t curr prev (gs, lc)).1 prev = sel gs prev.
Proof.
  intros Ht Hb Hs. rewrite sweep_spec by done. simpl. by apply sel_put_other.
Qed.

Lemma sweep_curr_out p t curr prev gs lc i j :
  is_worker p t -> buffers_ok curr prev -> shaped2 (gridsize p) gs ->
  0 <= i -> 0 <= j -> (i, j) ∉ cells p t ->
  get_cell (sel (sweep p t curr prev (gs, lc)).1 curr) i j =
  get_cell (sel gs curr) i j.
Proof.
  intros Ht Hb Hs Hi Hj Hout. rewrite sweep_spec by done. simpl.
  rewrite sel_put_same.
  apply (get_paint_out (gridsize p)); [by apply cells_in_grid | done ..].
Qed.

Lemma sweep_curr_in p t curr prev gs lc ij :
  is_worker p t -> buffers_ok curr prev -> shaped2 (gridsize p) gs ->
  ij ∈ cells p t ->
  get_cell (sel (sweep p t curr prev (gs, lc)).1 curr) ij.1 ij.2 =
  next_state (sel gs prev) ij.
Proof.
  intros Ht Hb Hs Hin. rewrite sweep_spec by done. simpl.
  rewrite sel_put_same.
  apply (get_paint_in (gridsize p));
    [by apply shaped2_sel | by apply cells_in_grid | done].
Qed.

Lemma sweep_elsewhere p t curr prev gs lc i j :
  is_worker p t -> buffers_ok curr prev -> shaped2 (gridsize p) gs ->
  0 <= i -> 0 <= j -> (i, j) ∉ cells p t ->
  let gs' := (sweep p t curr prev (gs, lc)).1 in
  get_cell (grid0 gs') i j = get_cell (grid0 gs) i j /\
  get_cell (grid1 gs') i j = get_cell (grid1 gs) i j.
Proof.
  intros Ht Hb Hs Hi Hj Hout gs'.
  pose proof (sweep_prev p t curr prev gs lc Ht Hb Hs) as Hp.
  pose proof (sweep_curr_out p t curr prev gs lc i j Ht Hb Hs Hi Hj Hout) as Hc.
  fold gs' in Hp, Hc.
  destruct Hb as [[-> ->] | [-> ->]]; unfold sel in Hp, Hc; simpl in Hp, Hc;
    by rewrite Hp, Hc.
Qed.

(** Such cells hold for the whole run what they held when the workers were
    started. *)
Lemma unvisited_frame p s ij :
  reachable p s -> in_grid (gridsize p) ij -> unvisited p ij ->
  get_cell (grid0 (mem s)) ij.1 ij.2 =
    get_cell (grid0 (mem (init_state p))) ij.1 ij.2 /\
  get_cell (grid1 (mem s)) ij.1 ij.2 =
    get_cell (grid1 (mem (init_state p))) ij.1 ij.2.
Proof.
  intros Hr [Hi Hj] Hun. revert s Hr. apply reachable_ind; [done |].
  intros t s s' Hr IH Hstep.
  pose proof (reachable_well_formed p s Hr) as Hwf.
  destruct (step_frame p t s s' Hstep) as (w & w' & Hw & _ & _ & Hmem).
  destruct Hmem as [-> | [_ ->]]; [done |]. rewrite <- !(proj1 IH), <- !(proj2 IH).
  pose proof (worker_is_worker p s t w Hwf Hw) as Ht.
  destruct Hwf as (Hsh & _ & Hbuf).
  apply sweep_elsewhere; try done; try lia.
  - by apply (Forall_lookup_1 _ _ _ _ Hbuf Hw).
  - destruct ij. by apply Hun.
Qed.

Lemma halo_unvisited p ij : halo (gridsize p) ij -> unvisited p ij.
Proof. intros Hh t Ht Hin. by apply (cells_not_halo p t ij). Qed.

(** ** Start-up failures *)

(** A worker that cannot be created is reported and ends the program with
    status 1; the workers before it have been started. *)
Lemma create_loop_failure env todo1 t todo2 started :
  Forall (fun t' => create_rc env t' = 0) todo1 -> create_rc env t <> 0 ->
  create_loop env (todo1 ++ t :: todo2) started =
  Exits 1 [CreateFailedLine t] (started ++ todo1).
Proof.
  revert started. induction todo1 as [| t1 todo1 IH]; intros started Hok Hbad; simpl.
  - apply Z.eqb_neq in Hbad. by rewrite Hbad, app_nil_r.
  - apply Forall_cons in Hok as [H1 Hok]. rewrite H1. simpl.
    rewrite IH by done. by rewrite <- app_assoc.
Qed.

Lemma create_loop_success env todo started :
  Forall (fun t => create_rc env t = 0) todo ->
  create_loop env todo started = Proceeds [] (started ++ todo).
Proof.
  revert started. induction todo as [| t todo IH]; intros started Hok; simpl.
  - by rewrite app_nil_r.
  - apply Forall_cons in Hok as [H1 Hok]. rewrite H1. simpl.
    rewrite IH by done. by rewrite <- app_assoc.
Qed.

(** What the initialisation of the barrier and of the mutex answered has no
    part in the outcome. *)
Lemma main_startup_ignores_init argc argv0 p rcb rcm rcb' rcm' cr :
  main_startup argc argv0 p (PthreadEnv rcb rcm cr) =
  main_startup argc argv0 p (PthreadEnv rcb' rcm' cr).
Proof.
  unfold main_startup. case_match; [| done].
  generalize (@nil Z). induction (worker_ids p) as [| t l IH]; intros started; [done |].
  simpl. case_match; [apply IH | done].
Qed.

(** ** Concrete runs *)

Lemma finishedb_spec s : finishedb s = true <-> finished s.
Proof.
  unfold finishedb, finished. rewrite forallb_forall, Forall_forall.
  split; intros H w Hw.
  - apply list_elem_of_In, H in Hw. by destruct (pc w).
  - apply list_elem_of_In, H in Hw. by rewrite Hw.
Qed.

Lemma step_length p t s s' :
  thread_compute p t s = Some s' -> length (workers s') = length (workers s).
Proof.
  intros (w & w' & _ & -> & _)%step_frame. by rewrite length_insert.
Qed.

(** With a single worker there is a single schedule of every length. *)
Lemma solo_schedule p sched s s' :
  length (workers s) = 1%nat -> exec p sched s = Some s' ->
  sched = replicate (length sched) 0%nat.
Proof.
  revert s. induction sched as [| t sched IH]; intros s Hlen Hex; [done |].
  simpl in Hex. destruct (thread_compute p t s) as [s1 |] eqn:E; [| done]. simpl in Hex.
  pose proof (step_length p t s s1 E) as Hl.
  destruct (step_frame p t s s1 E) as (w & _ & Hw%lookup_lt_Some & _).
  simpl. f_equal; [lia |]. apply (IH s1); [lia | done].
Qed.

Lemma exec_replicate_le p t n m s :
  (n <= m)%nat -> exec p (replicate n t) s = None ->
  exec p (replicate m t) s = None.
Proof.
  intros Hnm Hn. replace m with (n + (m - n))%nat by lia.
  by rewrite replicate_add, exec_app, Hn.
Qed.

Lemma solo_unfinished_spec p n m s :
  solo_unfinished p n = true -> (m < n)%nat ->
  exec p (replicate m 0%nat) (init_state p) = Some s -> ~ finished s.
Proof.
  unfold solo_unfinished. rewrite forallb_forall. intros H Hm Hex Hfin.
  specialize (H m). rewrite Hex in H.
  apply finishedb_spec in Hfin. rewrite Hfin in H.
  discriminate H. apply in_seq. lia.
Qed.

(** The one complete run of [./life 1 3 1.0 1] takes 19 steps. *)
Lemma run_1x3_complete sched s :
  exec run_1x3 sched (init_state run_1x3) = Some s -> finished s ->
  s = after run_1x3 sched_1x3.
Proof.
  intros Hex Hfin.
  assert (Hone : length (workers (init_state run_1x3)) = 1%nat) by (by vm_compute).
  rewrite (solo_schedule run_1x3 sched _ _ Hone Hex) in Hex.
  destruct (lt_eq_lt_dec (length sched) 19) as [[Hlt | Heq] | Hgt].
  - exfalso. revert Hfin.
    apply (solo_unfinished_spec run_1x3 19 (length sched)); [| done | done].
    by vm_compute.
  - rewrite Heq in Hex. unfold after, sched_1x3. by rewrite Hex.
  - assert (H20 : exec run_1x3 (replicate 20 0%nat) (init_state run_1x3) = None)
      by (vm_compute; reflexivity).
    assert (Hle : (20 <= length sched)%nat) by lia.
    rewrite (exec_replicate_le run_1x3 0 20 (length sched) _ Hle H20) in Hex.
    discriminate Hex.
Qed.

(** [gridsize * gridsize] in the first line is an [int] product:
    [./life 1 -46341 0.0 0] prints -2147479015 for 2147488281. *)
Lemma run_square_output :
  stdout (init_state run_square) = [InitialLine 0 (-2147479015)] /\
  gridsize run_square * gridsize run_square = 2147488281.
Proof. split; by vm_compute. Qed.

(** ** Sums over the workers *)

Lemma sumZ_insert {A} (f : A -> Z) l t w w' :
  l !! t = Some w -> sumZ f (<[t := w']> l) = sumZ f l - f w + f w'.
Proof.
  revert t. induction l as [| x l IH]; intros [| t] Hl; simplify_eq/=.
  - lia.
  - rewrite (IH t) by done. lia.
Qed.

Lemma sumZ_ext {A} (f h : A -> Z) l :
  Forall (fun w => f w = h w) l -> sumZ f l = sumZ h l.
Proof. induction 1 as [| w l E _ IH]; simpl; [done | by rewrite E, IH]. Qed.

Lemma sumZ_zero {A} (f : A -> Z) l : Forall (fun w => f w = 0) l -> sumZ f l = 0.
Proof. induction 1 as [| w l E _ IH]; simpl; [done | by rewrite E, IH]. Qed.

Lemma sumZ_b2z_bound {A} (f : A -> bool) l :
  0 <= sumZ (fun w => Z.b2z (f w)) l <= Z.of_nat (length l).
Proof.
  induction l as [| w l IH]; simpl; [lia |]. destruct (f w); simpl; lia.
Qed.

(** When as many workers as there are satisfy [f], all of them do. *)
Lemma sumZ_b2z_full {A} (f : A -> bool) l :
  sumZ (fun w => Z.b2z (f w)) l = Z.of_nat (length l) ->
  Forall (fun w => f w = true) l.
Proof.
  induction l as [| w l IH]; simpl; intros H; [done |].
  pose proof (sumZ_b2z_bound f l).
  destruct (f w) eqn:E; simpl in H; [| lia].
  constructor; [done |]. apply IH. lia.
Qed.

(** At most one worker satisfies [f] when the sum is at most 1. *)
Lemma sumZ_b2z_unique {A} (f : A -> bool) l t1 t2 w1 w2 :
  sumZ (fun w => Z.b2z (f w)) l <= 1 ->
  l !! t1 = Some w1 -> l !! t2 = Some w2 -> f w1 = true -> f w2 = true ->
  t1 = t2.
Proof.
  revert t1 t2. induction l as [| x l IH]; intros t1 t2 Hs H1 H2 F1 F2; [done |].
  simpl in Hs. pose proof (sumZ_b2z_bound f l) as Hb.
  destruct t1 as [| t1], t2 as [| t2]; simplify_eq/=; [done | | |].
  - rewrite F1 in Hs. simpl in Hs.
    assert (Hz : sumZ (fun w => Z.b2z (f w)) l = 0) by lia.
    clear IH. exfalso. revert t2 H2 Hz. clear -F2.
    induction l as [| y l IH]; intros [| t2] H2 Hz; simplify_eq/=.
    + rewrite F2 in Hz. simpl in Hz. pose proof (sumZ_b2z_bound f l). lia.
    + pose proof (sumZ_b2z_bound f l). apply (IH t2); [done |].
      destruct (f y); simpl in Hz; lia.
  - rewrite F2 in Hs. simpl in Hs.
    assert (Hz : sumZ (fun w => Z.b2z (f w)) l = 0) by lia.
    clear IH. exfalso. revert t1 H1 Hz. clear -F1.
    induction l as [| y l IH]; intros [| t1] H1 Hz; simplify_eq/=.
    + rewrite F1 in Hz. simpl in Hz. pose proof (sumZ_b2z_bound f l). lia.
    + pose proof (sumZ_b2z_bound f l). apply (IH t1); [done |].
      destruct (f y); simpl in Hz; lia.
  - f_equal. apply IH; try done. destruct (f x); simpl in Hs; lia.
Qed.

(** ** The barrier invariant *)

Lemma sync_inv_init p : sync_inv p (init_state p).
Proof.
  unfold sync_inv. rewrite workers_init_state.
  assert (He : epoch (init_state p) = O /\ arrived (init_state p) = 0).
  { unfold init_state. by destruct (seeding p) as [[g x] lc]. }
  destruct He as [-> ->]. split_and!.
  - by apply Forall_replicate.
  - symmetry. apply sumZ_zero. by apply Forall_replicate.
  - destruct (decide (1 <= num_threads p)); [left; lia | right].
    by replace (Z.to_nat (num_threads p)) with O by lia.
Qed.

Lemma sync_inv_local p s s' t w w' :
  workers s !! t = Some w ->
  epoch s' = epoch s -> arrived s' = arrived s ->
  workers s' = <[t := w']> (workers s) ->
  in_sync (epoch s) w' -> blocked (epoch s) w' = blocked (epoch s) w ->
  sync_inv p s -> sync_inv p s'.
Proof.
  intros Hw He Ha Hws Hsync Hbl (Hall & Harr & Hlt).
  unfold sync_inv. rewrite He, Ha, Hws. split_and!.
  - by apply Forall_insert.
  - rewrite (sumZ_insert _ _ _ _ _ Hw), Hbl. lia.
  - destruct Hlt as [? | Hnil]; [by left |].
    rewrite Hnil in Hw. done.
Qed.

Lemma sync_inv_step p t s s' :
  well_formed p s -> sync_inv p s -> thread_compute p t s = Some s' -> sync_inv p s'.
Proof.
  intros Hwf Hinv Hstep.
  assert (Hinv' := Hinv). destruct Hinv' as (Hall & Harr & Hlt).
  step_inv Hstep w Hw;
  pose proof (Forall_lookup_1 _ _ _ _ Hall Hw) as Hsync;
  unfold in_sync in Hsync; rewrite Hpc in Hsync.
  all: try (eapply (sync_inv_local p s _ t w); 
         [ exact Hw | simpl; autorewrite with state; reflexivity
         | simpl; autorewrite with state; reflexivity
         | simpl; autorewrite with state; reflexivity
         | unfold in_sync, arrivals in *; simpl; rewrite ?Hpc in *; cases_cb; simpl; try lia
         | unfold blocked; simpl; rewrite ?Hpc; cases_cb; simpl;
           try reflexivity; try (symmetry; apply Nat.eqb_neq; congruence)
         | exact Hinv ]).
  assert (Hk : arrived s + 1 <= num_threads p).
  { destruct Hlt as [? | Hnil]; [done |]. by rewrite Hnil in Hw. }
  assert (Hwb : in_sync (epoch s) (goto w (Wait b (epoch s)))).
  { unfold in_sync, arrivals in *. simpl. rewrite Hpc in Hsync.
    split; [destruct b; lia | by left]. }
  assert (Hsum : sumZ (fun w => Z.b2z (blocked (epoch s) w))
                      (<[t := goto w (Wait b (epoch s))]> (workers s)) =
                 arrived s + 1).
  { rewrite (sumZ_insert _ _ _ _ _ Hw), <- Harr. unfold blocked. simpl.
    rewrite Hpc, Nat.eqb_refl. simpl. lia. }
  unfold arrive. destruct (Z.eqb_spec (arrived s + 1) (num_threads p)) as [Hlast | Hnot].
  - assert (Hfull : Forall (fun w => blocked (epoch s) w = true)
                           (<[t := goto w (Wait b (epoch s))]> (workers s))).
    { apply sumZ_b2z_full. rewrite Hsum, length_insert.
      destruct Hwf as (_ & -> & _).
      pose proof (sumZ_b2z_bound (blocked (epoch s)) (workers s)). lia. }
    pose proof (Forall_insert _ _ t _ Hall Hwb) as Hall'.
    pose proof (sumZ_b2z_bound (blocked (epoch s)) (workers s)).
    unfold sync_inv. simpl. split_and!.
    + pose proof (proj2 (@Forall_and _ (in_sync (epoch s))
                     (fun w => blocked (epoch s) w = true) _)
                    (conj Hall' Hfull)) as Hboth.
      eapply Forall_impl; [exact Hboth |]. simpl.
      intros w0 [Hs0 Hb0]. unfold in_sync, blocked in *.
      destruct (pc w0); try done. apply Nat.eqb_eq in Hb0 as ->.
      split; [apply Hs0 | by right].
    + symmetry. apply sumZ_zero. eapply Forall_impl; [exact Hfull |].
      intros w0 Hb0. unfold blocked in *. destruct (pc w0); try done.
      apply Nat.eqb_eq in Hb0 as ->.
      by rewrite (proj2 (Nat.eqb_neq _ _)) by lia.
    + left. lia.
  - unfold sync_inv. simpl. split_and!.
    + by apply Forall_insert.
    + by rewrite Hsum.
    + left. lia.
Qed.

Lemma reachable_sync p s : reachable p s -> sync_inv p s.
Proof.
  revert s. apply reachable_ind; [apply sync_inv_init |].
  intros t s s' Hr. apply sync_inv_step. by apply reachable_well_formed.
Qed.

(** ** The mutex and the counters *)

Lemma mutex_inv_init p : mutex_inv (init_state p).
Proof.
  unfold mutex_inv. rewrite workers_init_state.
  assert (Hm : mutex (init_state p) = false).
  { unfold init_state. by destruct (seeding p) as [[g x] lc]. }
  rewrite Hm. apply sumZ_zero. by apply Forall_replicate.
Qed.

Lemma sumZ_b2z_member {A} (f : A -> bool) l t w :
  l !! t = Some w -> f w = true -> 1 <= sumZ (fun w => Z.b2z (f w)) l.
Proof.
  revert t. induction l as [| x l IH]; intros [| t] Hl Hf; simplify_eq/=.
  - rewrite Hf. pose proof (sumZ_b2z_bound f l). simpl. lia.
  - specialize (IH t Hl Hf). destruct (f x); simpl; lia.
Qed.

Lemma mutex_inv_step p t s s' :
  mutex_inv s -> thread_compute p t s = Some s' -> mutex_inv s'.
Proof.
  unfold mutex_inv. intros Hinv Hstep.
  step_inv Hstep w Hw; simpl; autorewrite with state;
    rewrite (sumZ_insert _ _ _ _ _ Hw); unfold in_cs at 2 3; simpl;
    rewrite ?Hpc; cases_cb; simpl; try lia.
  - simpl in Hinv. lia.
  - pose proof (sumZ_b2z_member in_cs (workers s) t w Hw) as Hm.
    unfold in_cs at 1 in Hm. rewrite Hpc in Hm. specialize (Hm eq_refl).
    destruct (mutex s); simpl in *; lia.
Qed.

Lemma cs_unique s t t0 w w0 :
  mutex_inv s -> workers s !! t = Some w -> workers s !! t0 = Some w0 ->
  in_cs w = true -> in_cs w0 = true -> t = t0.
Proof.
  unfold mutex_inv. intros Hm Hw Hw0 Hc Hc0.
  apply (sumZ_b2z_unique in_cs (workers s) t t0 w w0); try done.
  rewrite Hm. destruct (mutex s); simpl; lia.
Qed.

(** Parity of the round, as arithmetic. *)
Ltac parity :=
  repeat match goal with
         | H : Z.odd _ = true |- _ => apply Z.odd_spec in H; destruct H as [? H]
         | H : Z.even _ = true |- _ => apply Z.even_spec in H; destruct H as [? H]
         end.

Ltac sync_of Hall Hw Hpc :=
  let Hs := fresh "Hsync" in
  pose proof (Forall_lookup_1 _ _ _ _ Hall Hw) as Hs;
  unfold in_sync, arrivals in Hs; rewrite ?Hpc in Hs.

Ltac insert_cases H t0 w0 :=
  apply Forall_lookup; intros t0 w0 H;
  apply list_lookup_insert_Some in H as [(<- & <- & _) | (? & H)].

Lemma cnt_cset_same cs c v : cnt (cset cs c v) c = v.
Proof. by destruct c. Qed.

Lemma cnt_cset_other cs c c' v : c <> c' -> cnt (cset cs c v) c' = cnt cs c'.
Proof. by destruct c, c'. Qed.

Lemma counter_eq_dec (c c' : counter) : {c = c'} + {c <> c'}.
Proof. decide equality. Defined.

Lemma store_tmp_step p c t s s' :
  sync_inv p s -> mutex_inv s -> counter_inv c s -> thread_compute p t s = Some s' ->
  Forall (fun w => pc w = Store c -> tmp w = cnt (shared s') c) (workers s').
Proof.
  intros (Hall & _ & _) Hmx (_ & HB & _ & _) Hstep.
  step_inv Hstep w Hw; simpl; autorewrite with state;
    insert_cases Hw0 t0 w0; simpl; try (intros; cases_cb; discriminate);
    try (by apply (Forall_lookup_1 _ _ _ _ HB Hw0)).
  - (* Reset c0, another worker at Store c *)
    intros Hpc0. destruct (counter_eq_dec c0 c) as [-> | Hne].
    + sync_of Hall Hw Hpc. sync_of Hall Hw0 Hpc0. lia.
    + rewrite cnt_cset_other by done. by apply (Forall_lookup_1 _ _ _ _ HB Hw0).
  - (* Load c0 *)
    intros [= ->]. done.
  - (* Store c0, another worker at Store c *)
    intros Hpc0. exfalso.
    assert (t = t0); [| done].
    apply (cs_unique s t t0 w w0); try done; unfold in_cs; by rewrite ?Hpc, ?Hpc0.
Qed.

(** When the last worker enters the barrier all the others are held in
    it. *)
Lemma last_arrival_blocked p s t w b t0 w0 :
  well_formed p s -> sync_inv p s ->
  workers s !! t = Some w -> pc w = Arrive b ->
  arrived s + 1 = num_threads p ->
  workers s !! t0 = Some w0 -> t0 <> t ->
  exists b0, pc w0 = Wait b0 (epoch s) /\
             arrivals w0 = Z.of_nat (epoch s) + 1.
Proof.
  intros (_ & Hlen & _) (Hall & Harr & _) Hw Hpc Hlast Hw0 Hne.
  assert (Hsum : sumZ (fun w => Z.b2z (blocked (epoch s) w))
                      (<[t := goto w (Wait b (epoch s))]> (workers s)) =
                 arrived s + 1).
  { rewrite (sumZ_insert _ _ _ _ _ Hw), <- Harr. unfold blocked. simpl.
    rewrite Hpc, Nat.eqb_refl. simpl. lia. }
  assert (Hfull : Forall (fun w => blocked (epoch s) w = true)
                         (<[t := goto w (Wait b (epoch s))]> (workers s))).
  { apply sumZ_b2z_full. rewrite Hsum, length_insert, Hlen.
    pose proof (sumZ_b2z_bound (blocked (epoch s)) (workers s)). lia. }
  assert (Hb0 : blocked (epoch s) w0 = true).
  { apply (Forall_lookup_1 _ _ t0 _ Hfull). by rewrite list_lookup_insert_ne. }
  pose proof (Forall_lookup_1 _ _ _ _ Hall Hw0) as Hs0.
  unfold blocked in Hb0. unfold in_sync in Hs0.
  destruct (pc w0) eqn:E; try done.
  apply Nat.eqb_eq in Hb0 as ->. exists b0. split; [done | apply Hs0].
Qed.

Lemma epoch_arrive_last p s :
  arrived s + 1 = num_threads p -> epoch (arrive p s) = S (epoch s).
Proof. intros H. unfold arrive. by rewrite (proj2 (Z.eqb_eq _ _) H). Qed.

Lemma epoch_arrive_wait p s :
  arrived s + 1 <> num_threads p -> epoch (arrive p s) = epoch s.
Proof. intros H. unfold arrive. by rewrite (proj2 (Z.eqb_neq _ _) H). Qed.

Lemma reset_zero_step p c t s s' :
  well_formed p s -> sync_inv p s -> counter_inv c s ->
  thread_compute p t s = Some s' ->
  Z.even (Z.of_nat (epoch s')) = true ->
  Forall (fun w => reset_done c w = true -> cnt (shared s') c = 0) (workers s').
Proof.
  intros Hwf Hsy (_ & _ & HC & _) Hstep. assert (Hall := proj1 Hsy).
  step_inv Hstep w Hw; sync_of Hall Hw Hpc; simpl; autorewrite with state.
  all: try (intros Hev; parity; lia).
  all: try (intros Hev; specialize (HC Hev); insert_cases Hw0 t0 w0;
            [ unfold reset_done; simpl; by destruct c
            | by apply (Forall_lookup_1 _ _ _ _ HC Hw0) ]).
  - (* Reset c0 *)
    intros Hev; specialize (HC Hev).
    pose proof (Forall_lookup_1 _ _ _ _ HC Hw) as HCw.
    unfold reset_done in HCw. rewrite Hpc in HCw.
    insert_cases Hw0 t0 w0.
    + unfold reset_done; simpl. destruct c, c0; simpl in *; try done; by apply HCw.
    + intros Hr0. pose proof (Forall_lookup_1 _ _ _ _ HC Hw0 Hr0).
      destruct c, c0; simpl in *; done.
  - (* Arrive b *)
    destruct (Z.eqb_spec (arrived s + 1) (num_threads p)) as [Hlast | Hnot];
      [rewrite epoch_arrive_last by done | rewrite epoch_arrive_wait by done].
    + rewrite Nat2Z.inj_succ, Z.even_succ. intros Hodd.
      insert_cases Hw0 t0 w0; unfold reset_done; simpl.
      * destruct b; [| done]. parity. lia.
      * destruct (last_arrival_blocked p s t w b t0 w0) as (b0 & Hpc0 & Ha0);
          try done.
        rewrite Hpc0. unfold arrivals in Ha0. rewrite Hpc0 in Ha0.
        destruct b0; [| done]. parity. destruct b; lia.
    + intros Hev; specialize (HC Hev).
      pose proof (Forall_lookup_1 _ _ _ _ HC Hw) as HCw.
      unfold reset_done in HCw. rewrite Hpc in HCw.
      insert_cases Hw0 t0 w0.
      * unfold reset_done; simpl. destruct b; [by apply HCw | done].
      * by apply (Forall_lookup_1 _ _ _ _ HC Hw0).
  - (* Wait *)
    intros Hev; specialize (HC Hev). insert_cases Hw0 t0 w0.
    + unfold reset_done; simpl. by destruct b.
    + by apply (Forall_lookup_1 _ _ _ _ HC Hw0).
Qed.

Lemma contribution_step_same c (l : list worker) t w w' x :
  l !! t = Some w -> contribution c w' = contribution c w ->
  x = sumZ (contribution c) l -> x = sumZ (contribution c) (<[t := w']> l).
Proof. intros Hw E ->. rewrite (sumZ_insert _ _ _ _ _ Hw), E. lia. Qed.

Lemma accumulate_step p c t s s' :
  well_formed p s -> sync_inv p s -> counter_inv c s ->
  thread_compute p t s = Some s' ->
  Z.odd (Z.of_nat (epoch s')) = true ->
  cnt (shared s') c = sumZ (contribution c) (workers s').
Proof.
  intros Hwf Hsy (HA & HB & HC & _) Hstep. assert (Hall := proj1 Hsy).
  step_inv Hstep w Hw; sync_of Hall Hw Hpc; simpl; autorewrite with state.
  all: try (intros Hodd; parity; lia).
  all: try (intros Hodd; apply (contribution_step_same c _ t w); 
            [ done | unfold contribution, contributed; simpl; rewrite Hpc; done 
            | by apply HA ]).
  - (* Arrive *)
    destruct (Z.eqb_spec (arrived s + 1) (num_threads p)) as [Hlast | Hnot];
      [rewrite epoch_arrive_last by done | rewrite epoch_arrive_wait by done].
    + rewrite Nat2Z.inj_succ, Z.odd_succ. intros Hev.
      pose proof (Forall_lookup_1 _ _ _ _ (HC Hev) Hw) as HCw.
      unfold reset_done in HCw. rewrite Hpc in HCw.
      destruct b; [| parity; lia]. rewrite HCw by done.
      symmetry. apply sumZ_zero. insert_cases Hw0 t0 w0; [done |].
      destruct (last_arrival_blocked p s t w B1 t0 w0) as (b0 & Hpc0 & Ha0);
        try done.
      unfold contribution, contributed. rewrite Hpc0.
      unfold arrivals in Ha0. rewrite Hpc0 in Ha0.
      destruct b0; [done | parity; lia].
    + intros Hodd. destruct b; [parity; lia |].
      apply (contribution_step_same c _ t w); [done | | by apply HA].
      unfold contribution, contributed. simpl. by rewrite Hpc.
  - (* Wait *)
    intros Hodd. destruct b; [| parity; lia].
    apply (contribution_step_same c _ t w); [done | | by apply HA].
    unfold contribution, contributed. simpl. by rewrite Hpc.
  - (* Lock *)
    intros Hodd.
    apply (contribution_step_same c _ t w); [done | | by apply HA].
    unfold contribution, contributed. simpl. rewrite Hpc. by destruct c.
  - (* Store *)
    intros Hodd. specialize (HA Hodd).
    pose proof (Forall_lookup_1 _ _ _ _ HB Hw) as HBw. simpl in HBw.
    rewrite (sumZ_insert _ _ _ _ _ Hw).
    unfold contribution at 2 3, contributed. simpl. rewrite Hpc.
    destruct c, c0; simpl in *; rewrite ?HBw by done; lia.
Qed.

Lemma reduced_step p c t s s' :
  well_formed p s -> sync_inv p s -> counter_inv c s ->
  thread_compute p t s = Some s' ->
  Z.even (Z.of_nat (epoch s')) = true ->
  Forall (fun w => reduced w = true) (workers s') -> workers s' <> [] ->
  cnt (shared s') c = sumZ (fun w => cnt (local w) c) (workers s').
Proof.
  intros Hwf Hsy (HA & HB & HC & HD) Hstep. assert (Hall := proj1 Hsy).
  step_inv Hstep w Hw; sync_of Hall Hw Hpc; simpl; autorewrite with state;
    intros Hev Hred _;
    pose proof (Forall_lookup_1 _ _ t _ Hred
                  (list_lookup_insert_eq _ _ _ (lookup_lt_Some _ _ _ Hw))) as Hr';
    unfold reduced in Hr'; simpl in Hr';
    try (destruct b; simpl in Hr'); try (destruct c0; simpl in Hr');
    try discriminate Hr'.
  - (* Arrive B2 *)
    revert Hev.
    destruct (Z.eqb_spec (arrived s + 1) (num_threads p)) as [Hlast | Hnot];
      [rewrite epoch_arrive_last by done | rewrite epoch_arrive_wait by done];
      [| intros Hev; parity; lia].
    rewrite Nat2Z.inj_succ, Z.even_succ. intros Hodd. rewrite (HA Hodd).
    rewrite (sumZ_insert _ _ _ _ _ Hw). simpl.
    rewrite (sumZ_ext (contribution c) (fun w => cnt (local w) c)); [lia |].
    apply Forall_lookup. intros t0 w0 Hw0. unfold contribution, contributed.
    destruct (decide (t0 = t)) as [-> | Hne].
    + assert (w0 = w) as -> by congruence. by rewrite Hpc.
    + destruct (last_arrival_blocked p s t w B2 t0 w0) as (b0 & Hpc0 & Ha0);
        try done.
      rewrite Hpc0. unfold arrivals in Ha0. rewrite Hpc0 in Ha0.
      destruct b0; [parity; lia | done].
  - (* Wait B2 *)
    rewrite (sumZ_insert _ _ _ _ _ Hw). simpl.
    rewrite <- HD; [lia | done | | by intros E; rewrite E in Hw].
    apply Forall_lookup. intros t0 w0 Hw0.
    destruct (decide (t0 = t)) as [-> | Hne].
    + assert (w0 = w) as -> by congruence. unfold reduced. by rewrite Hpc.
    + apply (Forall_lookup_1 _ _ t0 _ Hred). by rewrite list_lookup_insert_ne.
Qed.

Lemma counter_inv_init p c : counter_inv c (init_state p).
Proof.
  assert (He : epoch (init_state p) = O).
  { unfold init_state. by destruct (seeding p) as [[g x] lc]. }
  unfold counter_inv. rewrite He, workers_init_state. split_and!.
  - done.
  - by apply Forall_replicate.
  - intros _. by apply Forall_replicate.
  - intros _ Hred Hne. destruct (Z.to_nat (num_threads p)); [done |].
    by apply Forall_inv in Hred.
Qed.

Lemma counter_inv_step p c t s s' :
  well_formed p s -> sync_inv p s -> mutex_inv s -> counter_inv c s ->
  thread_compute p t s = Some s' -> counter_inv c s'.
Proof.
  intros Hwf Hsy Hmx Hc Hstep. split_and!.
  - by apply (accumulate_step p c t s).
  - by apply (store_tmp_step p c t s).
  - by apply (reset_zero_step p c t s).
  - by apply (reduced_step p c t s).
Qed.

Lemma reachable_mutex p s : reachable p s -> mutex_inv s.
Proof.
  revert s. apply reachable_ind; [apply mutex_inv_init |].
  intros t s s' _. apply mutex_inv_step.
Qed.

Lemma reachable_counter p c s : reachable p s -> counter_inv c s.
Proof.
  revert s. apply reachable_ind; [apply counter_inv_init |].
  intros t s s' Hr. apply counter_inv_step.
  - by apply reachable_well_formed.
  - by apply reachable_sync.
  - by apply (reachable_mutex p).
Qed.

(** ** The reduction *)

(** All workers inside the second barrier call of the same generation:
    the barrier has just opened. *)
Lemma all_in_second_barrier_open p s g :
  reachable p s -> 1 <= num_threads p ->
  reduction_done g s ->
  Z.of_nat (epoch s) = 2 * g.
Proof.
  intros Hr Hk Hall.
  destruct (reachable_well_formed p s Hr) as (_ & Hlen & _).
  destruct (reachable_sync p s Hr) as (Hsync & Harr & Hlt).
  assert (Hne : workers s <> []).
  { intros E. rewrite E in Hlen. simpl in Hlen. lia. }
  destruct Hlt as [Hlt | ?]; [| done].
  destruct (decide (Z.of_nat (epoch s) = 2 * g)) as [? | Hodd]; [done | exfalso].
  assert (Hfull : Forall (fun w => blocked (epoch s) w = true) (workers s)).
  { pose proof (proj2 (@Forall_and _ _ _ _) (conj Hall Hsync)) as Hboth.
    eapply Forall_impl; [exact Hboth |]. simpl.
    intros w [[[tk Hpc] Hg] Hs]. unfold in_sync, arrivals, blocked in *.
    rewrite Hpc in *. apply Nat.eqb_eq. lia. }
  assert (Hsum : sumZ (fun w => Z.b2z (blocked (epoch s) w)) (workers s) =
                 Z.of_nat (length (workers s))).
  { clear -Hfull. induction Hfull as [| w l E _ IH]; simpl; [done |].
    rewrite E, IH. simpl. lia. }
  lia.
Qed.

(** Then every global counter is the sum of the local ones. *)
Lemma reduced_counter_sum p s g c :
  reachable p s -> 1 <= num_threads p -> reduction_done g s ->
  cnt (shared s) c = sumZ (fun w => cnt (local w) c) (workers s).
Proof.
  intros Hr Hk Hall.
  pose proof (all_in_second_barrier_open p s g Hr Hk Hall) as He.
  destruct (reachable_counter p c s Hr) as (_ & _ & _ & HD).
  destruct (reachable_well_formed p s Hr) as (_ & Hlen & _).
  apply HD.
  - apply Z.even_spec. by exists g.
  - eapply Forall_impl; [exact Hall |]. simpl.
    intros w [[tk Hpc] _]. unfold reduced. by rewrite Hpc.
  - intros E. rewrite E in Hlen. simpl in Hlen. lia.
Qed.

(** ** The workers and the grids *)

Lemma local_inv_init p : Forall local_inv (workers (init_state p)).
Proof. rewrite workers_init_state. by apply Forall_replicate. Qed.

Lemma flip_mod2 x : 1 - (x - 1) `mod` 2 = x `mod` 2.
Proof. Z.div_mod_to_equations. lia. Qed.

Lemma local_inv_step p t s s' :
  Forall local_inv (workers s) -> thread_compute p t s = Some s' ->
  Forall local_inv (workers s').
Proof.
  intros Hall Hstep.
  step_inv Hstep w Hw; simpl; autorewrite with state;
    apply Forall_insert; try done;
    pose proof (Forall_lookup_1 _ _ _ _ Hall Hw) as (Hc & Hp & Hl);
    unfold local_inv, post_sweep in *; simpl; rewrite Hpc in *; cases_cb; simpl;
    try (split_and!; [done || lia | done || lia | done]).
  - split_and!; [rewrite Hc; apply flip_mod2 | lia | done].
  - replace (iter w + 1 - 1) with (iter w) by lia. done.
Qed.

Lemma reachable_local p s : reachable p s -> Forall local_inv (workers s).
Proof.
  revert s. apply reachable_ind; [apply local_inv_init |].
  intros t s s' _. apply local_inv_step.
Qed.

(** A step, as the grids and the cell loops see it. *)
Lemma step_grid_view p t s s' :
  thread_compute p t s = Some s' ->
  exists w w',
    workers s !! t = Some w /\
    workers s' = <[t := w']> (workers s) /\
    (forall g, not_ahead g w' -> not_ahead g w) /\
    ((pc w = Sweep /\ post_sweep w' = true /\ iter w' = iter w /\
      curr w' = curr w /\ prev w' = prev w /\
      (mem s', local w') = sweep p (tid t) (curr w) (prev w) (mem s, local w)) \/
     (mem s' = mem s /\
      (post_sweep w' = false \/
       (post_sweep w = true /\ iter w' = iter w /\ local w' = local w /\
        curr w' = curr w /\ prev w' = prev w)))).
Proof.
  intros Hstep.
  step_inv Hstep w Hw; exists w; eexists; simpl; autorewrite with state;
    (split; [reflexivity |]); (split; [reflexivity |]);
    unfold not_ahead, post_sweep; simpl; rewrite ?Hpc.
  all: try (split; [intros gen; cases_cb; simpl; lia |]).
  all: try (right; split; [reflexivity |]; cases_cb; simpl; 
            (by left) || (right; done)).
  left. by rewrite H.
Qed.

Lemma tid_inj t1 t2 : tid t1 = tid t2 -> t1 = t2.
Proof. unfold tid. lia. Qed.

Lemma swept_inv_init p : swept_inv p (init_state p).
Proof.
  intros g _ t w Hw _ Hps. rewrite workers_init_state in Hw.
  apply lookup_replicate in Hw as [-> _]. done.
Qed.

Lemma swept_inv_step p t1 s s' :
  well_formed p s -> sync_inv p s -> Forall local_inv (workers s) ->
  swept_inv p s -> thread_compute p t1 s = Some s' -> swept_inv p s'.
Proof.
  intros Hwf Hsy Hloc IH Hstep g Hna t w0 Hw0 Hg Hps.
  destruct (step_grid_view p t1 s s' Hstep) as (w1 & w1' & Hw1 & Hws & Hback & Hkind).
  rewrite Hws in Hw0, Hna.
  assert (Hna0 : Forall (not_ahead g) (workers s)).
  { apply Forall_lookup. intros t2 w2 Hw2.
    destruct (decide (t2 = t1)) as [-> | Hne].
    - assert (w2 = w1) as -> by congruence. apply Hback.
      apply (Forall_lookup_1 _ _ t1 _ Hna).
      apply list_lookup_insert_eq. by eapply lookup_lt_Some.
    - apply (Forall_lookup_1 _ _ t2 _ Hna). by rewrite list_lookup_insert_ne. }
  specialize (IH g Hna0).
  pose proof (worker_is_worker p s t1 w1 Hwf Hw1) as Ht1.
  destruct Hwf as (Hsh & Hlen & Hbuf).
  pose proof (Forall_lookup_1 _ _ _ _ Hbuf Hw1) as Hb1.
  apply list_lookup_insert_Some in Hw0 as [(<- & <- & _) | (Hne & Hw0)].
  - (* the stepping worker *)
    destruct Hkind as [(Hpc1 & _ & Hi & Hc & Hp & Hsw) | (Hmem & [Hf | Hsame])].
    + rewrite sweep_spec in Hsw by done. injection Hsw as Hm Hl.
      pose proof (Forall_lookup_1 _ _ _ _ Hloc Hw1) as (_ & _ & Hz).
      rewrite Hm, Hl, Hc, Hp, sel_put_other, sel_put_same, (Hz Hpc1) by done.
      split; [done |]. intros ij Hij.
      apply (get_paint_in (gridsize p));
        [by apply shaped2_sel | by apply cells_in_grid | done].
    + congruence.
    + destruct Hsame as (Hps1 & Hi & Hl & Hc & Hp).
      rewrite Hmem, Hl, Hc, Hp. apply (IH t1 w1); congruence.
  - (* another worker *)
    destruct Hkind as [(Hpc1 & Hps1 & Hi & Hc & Hp & Hsw) | (Hmem & _)];
      [| rewrite Hmem; by apply IH].
    destruct (IH t w0 Hw0 Hg Hps) as [IHl IHc].
    (* both workers are in the same generation *)
    assert (Hsame : iter w1 = g).
    { pose proof (Forall_lookup_1 _ _ t1 _ Hna
                    (list_lookup_insert_eq _ _ _ (lookup_lt_Some _ _ _ Hw1))) as Hn1.
      destruct Hn1 as [Hle | [_ Hf]]; [| congruence].
      destruct Hsy as (Hall & _ & _).
      pose proof (Forall_lookup_1 _ _ _ _ Hall Hw1) as Hs1.
      pose proof (Forall_lookup_1 _ _ _ _ Hall Hw0) as Hs0.
      unfold in_sync, arrivals in Hs1, Hs0. rewrite Hpc1 in Hs1.
      unfold post_sweep in Hps. destruct (pc w0); try done; cases_cb; lia. }
    pose proof (Forall_lookup_1 _ _ _ _ Hloc Hw1) as (Hc1 & Hp1 & _).
    pose proof (Forall_lookup_1 _ _ _ _ Hloc Hw0) as (Hc0 & Hp0 & _).
    rewrite Hps in Hc0. unfold post_sweep in Hc1. rewrite Hpc1 in Hc1.
    assert (Ec : curr w0 = curr w1) by congruence.
    assert (Ep : prev w0 = prev w1) by congruence.
    assert (Hm : mem s' = (sweep p (tid t1) (curr w1) (prev w1) (mem s, local w1)).1).
    { by rewrite <- Hsw. }
    rewrite Hm, Ec, Ep, sweep_prev by done. rewrite Ep in IHl. rewrite Ec, Ep in IHc.
    split; [done |]. intros ij Hij. rewrite <- IHc by done.
    destruct ij as [i j].
    pose proof (worker_is_worker p s t w0 (conj Hsh (conj Hlen Hbuf)) Hw0) as Ht0.
    destruct (cells_interior p (tid t) i j Ht0 Hij).
    simpl. apply sweep_curr_out; [done | done | done | lia | lia |].
    intros Hij1. apply Hne. symmetry. apply tid_inj.
    by apply (cells_disjoint p (tid t) (tid t1) (i, j)).
Qed.

Lemma reachable_swept p s : reachable p s -> swept_inv p s.
Proof.
  revert s. apply reachable_ind; [apply swept_inv_init |].
  intros t s s' Hr. apply swept_inv_step.
  - by apply reachable_well_formed.
  - by apply reachable_sync.
  - by apply (reachable_local p).
Qed.

(** ** Counting births and deaths *)

Lemma sumZ_app {A} (f : A -> Z) l1 l2 :
  sumZ f (l1 ++ l2) = sumZ f l1 + sumZ f l2.
Proof. induction l1 as [| x l1 IH]; simpl; [done | rewrite IH; lia]. Qed.

(** A sum over the workers as a sum over their numbers. *)
Lemma sumZ_indexed {A} (f : A -> Z) (F : Z -> Z) (l : list A) m :
  (forall t w, l !! t = Some w -> f w = F (m + Z.of_nat t)) ->
  sumZ f l = sumZ F (seqZ m (Z.of_nat (length l))).
Proof.
  revert m. induction l as [| x l IH]; intros m H; [done |].
  simpl length. rewrite seqZ_cons by lia. simpl.
  rewrite (H O x eq_refl), Z.add_0_r. f_equal.
  replace (Z.pred (Z.of_nat (S (length l)))) with (Z.of_nat (length l)) by lia.
  apply IH. intros t w Hw. rewrite (H (S t) w Hw). f_equal. lia.
Qed.

Lemma count_cells_app f l1 l2 :
  count_cells f (l1 ++ l2) = count_cells f l1 + count_cells f l2.
Proof. unfold count_cells. rewrite filter_app, length_app. lia. Qed.

Lemma count_cells_bind {A} f (h : A -> list (Z * Z)) l :
  count_cells f (l ≫= h) = sumZ (fun x => count_cells f (h x)) l.
Proof.
  induction l as [| x l IH]; [done |].
  rewrite bind_cons, count_cells_app, IH. done.
Qed.

Lemma count_cells_ext f h l :
  (forall ij, ij ∈ l -> f ij = h ij) -> count_cells f l = count_cells h l.
Proof.
  unfold count_cells. intros E. f_equal. f_equal.
  induction l as [| ij l IH]; [done |].
  rewrite !filter_cons, (E ij) by left. rewrite IH; [done |].
  intros ij' Hin. apply E. by right.
Qed.

(** ** The generations of a run *)

Lemma iter_inv_init p : Forall (iter_inv p) (workers (init_state p)).
Proof.
  rewrite workers_init_state. apply Forall_replicate.
  unfold iter_inv. simpl. split_and!; try done; lia.
Qed.

Lemma iter_inv_step p t s s' :
  Forall (iter_inv p) (workers s) -> thread_compute p t s = Some s' ->
  Forall (iter_inv p) (workers s').
Proof.
  intros Hall Hstep.
  step_inv Hstep w Hw; simpl; autorewrite with state;
    apply Forall_insert; try done;
    pose proof (Forall_lookup_1 _ _ _ _ Hall Hw) as (H1 & H2 & H3 & H4);
    rewrite Hpc in H3, H4;
    unfold iter_inv; simpl; cases_cb; simpl;
    (split_and!; [lia | | | ]); try done; try (intros; lia);
    try (left; lia); try (by intros _ _; apply H4).
  left. assert (iter w <= num_iters p) by (by apply H4). lia.
Qed.

Lemma reachable_iter p s : reachable p s -> Forall (iter_inv p) (workers s).
Proof.
  revert s. apply reachable_ind; [apply iter_inv_init |].
  intros t s s' _. apply iter_inv_step.
Qed.

Lemma mod2_cases g : g `mod` 2 = 0 \/ g `mod` 2 = 1.
Proof. Z.div_mod_to_equations. lia. Qed.

Lemma buffers_ok_mod2 g : buffers_ok (g `mod` 2) (1 - g `mod` 2).
Proof. destruct (mod2_cases g) as [-> | ->]; [by left | by right]. Qed.

Lemma succ_mod2 g : (g + 1) `mod` 2 = 1 - g `mod` 2.
Proof. Z.div_mod_to_equations. lia. Qed.

(** Two grid pairs that agree on both buffers. *)
Lemma grids_ext gs gs' c :
  (c = 0 \/ c = 1) ->
  sel gs c = sel gs' c -> sel gs (1 - c) = sel gs' (1 - c) -> gs = gs'.
Proof.
  destruct gs, gs'. unfold sel. intros [-> | ->]; simpl; congruence.
Qed.

(** The loop counter [iter] fits an [int] as long as [num_iters] is below
    [INT_MAX], also where [iter++] adds 1 to it. *)
Lemma iter_in_int p s t w :
  reachable p s -> num_iters p < INT_MAX -> workers s !! t = Some w ->
  in_int (iter w) /\ (pc w = Report -> in_int (iter w + 1)).
Proof.
  intros Hr Hn Hw.
  pose proof (Forall_lookup_1 _ _ _ _ (reachable_iter p s Hr) Hw)
    as (H1 & H2 & _ & H4).
  unfold in_int, INT_MIN, INT_MAX in *. split; [lia |].
  intros Hpc. rewrite Hpc in H4.
  assert (iter w <= num_iters p) by (by apply H4). lia.
Qed.

(** ** The run by turns *)

(** Some workers, one after the other, on the buffers of generation [g]. *)
Lemma turns_spec p g gs l :
  shaped2 (gridsize p) gs -> Forall (is_worker p) l ->
  let gs' := foldl (fun gs t =>
                      (sweep p t (g `mod` 2) (1 - g `mod` 2) (gs, zero_counts)).1)
                   gs l in
  shaped2 (gridsize p) gs' /\
  sel gs' (1 - g `mod` 2) = sel gs (1 - g `mod` 2) /\
  forall ij, in_grid (gridsize p) ij ->
    (ij ∈ l ≫= cells p ->
     get_cell (sel gs' (g `mod` 2)) ij.1 ij.2 =
     next_state (sel gs (1 - g `mod` 2)) ij) /\
    (ij ∉ l ≫= cells p ->
     get_cell (sel gs' (g `mod` 2)) ij.1 ij.2 =
     get_cell (sel gs (g `mod` 2)) ij.1 ij.2).
Proof.
  intros Hsh. pose proof (buffers_ok_mod2 g) as Hb.
  induction l as [| t l IH] using rev_ind; intros Hl gs'.
  - subst gs'. simpl. split_and!; try done. intros ij _. split; [| done].
    intros Hin. by apply elem_of_nil in Hin.
  - apply Forall_app in Hl as [Hl Ht]. apply Forall_inv in Ht.
    destruct (IH Hl) as (Hsh' & Hprev & Hcells). clear IH.
    subst gs'. rewrite foldl_snoc.
    set (mid := foldl _ gs l) in *.
    split_and!.
    + rewrite sweep_spec by done. simpl. apply shaped2_put; [done |].
      apply shaped_paint. by apply shaped2_sel.
    + by rewrite sweep_prev.
    + intros ij Hij. destruct (Hcells ij Hij) as [Hin Hout].
      rewrite bind_app, bind_singleton.
      destruct (decide (ij ∈ cells p t)) as [Hc | Hc].
      * split; [| intros Hn; exfalso; apply Hn, elem_of_app; by right].
        intros _. rewrite (sweep_curr_in p t _ _ mid zero_counts ij) by done.
        by rewrite Hprev.
      * destruct ij as [i j], Hij as [? ?]. simpl in *.
        rewrite sweep_curr_out by (done || lia). split.
        -- intros [? | ?]%elem_of_app; [by apply Hin | done].
        -- intros Hn. apply Hout. intros ?. apply Hn, elem_of_app. by left.
Qed.

Lemma worker_ids_workers p : Forall (is_worker p) (worker_ids p).
Proof.
  apply Forall_forall. intros t Ht%elem_of_seqZ. unfold is_worker. lia.
Qed.

Lemma generation_spec p g gs :
  shaped2 (gridsize p) gs ->
  shaped2 (gridsize p) (generation p g gs) /\
  sel (generation p g gs) (1 - g `mod` 2) = sel gs (1 - g `mod` 2) /\
  forall ij, in_grid (gridsize p) ij ->
    (ij ∈ visited p ->
     get_cell (sel (generation p g gs) (g `mod` 2)) ij.1 ij.2 =
     next_state (sel gs (1 - g `mod` 2)) ij) /\
    (ij ∉ visited p ->
     get_cell (sel (generation p g gs) (g `mod` 2)) ij.1 ij.2 =
     get_cell (sel gs (g `mod` 2)) ij.1 ij.2).
Proof.
  intros Hsh. apply (turns_spec p g gs (worker_ids p) Hsh), worker_ids_workers.
Qed.

Lemma shaped_init p : shaped2 (gridsize p) (mem (init_state p)).
Proof. apply well_formed_init. Qed.

Lemma shaped_run_grids p n : shaped2 (gridsize p) (run_grids p n).
Proof.
  induction n as [| n IH]; [apply shaped_init |].
  simpl run_grids. by apply generation_spec.
Qed.

(** Without workers nothing is ever swept. *)
Lemma run_grids_no_workers p n :
  num_threads p <= 0 -> run_grids p n = mem (init_state p).
Proof.
  intros Hk. induction n as [| n IH]; [done |].
  simpl run_grids. unfold generation, worker_ids. by rewrite seqZ_nil.
Qed.

Lemma get_paint n f l (g : grid) i j :
  shaped n g -> Forall (in_grid n) l -> in_grid n (i, j) ->
  get_cell (paint f l g) i j =
  if decide ((i, j) ∈ l) then f (i, j) else get_cell g i j.
Proof.
  intros Hg Hl Hij. destruct (decide ((i, j) ∈ l)) as [Hd | Hd].
  - by apply (get_paint_in n f l g (i, j)).
  - destruct Hij as [? ?]. simpl in *.
    apply (get_paint_out n); [done | lia .. | done].
Qed.

(** The cell loops of two workers can be run in either order: each reads
    the previous buffer only and writes its own cells of the current
    one. *)
Lemma sweeps_commute p t1 t2 curr prev gs lc1 lc2 :
  is_worker p t1 -> is_worker p t2 -> t1 <> t2 ->
  buffers_ok curr prev -> shaped2 (gridsize p) gs ->
  let a1 := sweep p t1 curr prev (gs, lc1) in
  let a2 := sweep p t2 curr prev (a1.1, lc2) in
  let b2 := sweep p t2 curr prev (gs, lc2) in
  let b1 := sweep p t1 curr prev (b2.1, lc1) in
  a2.1 = b1.1 /\ a1.2 = b1.2 /\ a2.2 = b2.2.
Proof.
  intros H1 H2 Hne Hb Hsh a1 a2 b2 b1.
  assert (Ha1 : shaped2 (gridsize p) a1.1).
  { subst a1. rewrite sweep_spec by done. simpl. apply shaped2_put; [done |].
    apply shaped_paint. by apply shaped2_sel. }
  assert (Hb2 : shaped2 (gridsize p) b2.1).
  { subst b2. rewrite sweep_spec by done. simpl. apply shaped2_put; [done |].
    apply shaped_paint. by apply shaped2_sel. }
  assert (Pa1 : sel a1.1 prev = sel gs prev) by (by apply sweep_prev).
  assert (Pb2 : sel b2.1 prev = sel gs prev) by (by apply sweep_prev).
  subst a2 b1. rewrite !(sweep_spec p _ _ _ a1.1), !(sweep_spec p _ _ _ b2.1)
    by done.
  simpl. rewrite Pa1, Pb2. split_and!.
  - apply (grids_ext _ _ curr); [destruct Hb as [[-> _] | [-> _]]; auto | |].
    + rewrite !sel_put_same.
      apply (grid_ext (gridsize p));
        [apply shaped_paint; by apply shaped2_sel .. |].
      intros i j Hij.
      rewrite !(get_paint (gridsize p))
        by (done || by apply shaped2_sel || by apply cells_in_grid).
      subst a1 b2. rewrite !sweep_spec by done. simpl. rewrite !sel_put_same.
      rewrite !(get_paint (gridsize p))
        by (done || by apply shaped2_sel || by apply cells_in_grid).
      repeat case_decide; done.
    + assert (E : 1 - curr = prev) by (destruct Hb as [[-> ->] | [-> ->]]; done).
      rewrite E, !sel_put_other by done. congruence.
  - subst a1. by rewrite sweep_spec.
  - subst b2. by rewrite sweep_spec.
Qed.

(** ** The grids of a run against the run by turns *)

(** A step, as the generations see it: either it is a sweep, or the
    generations the worker has swept stay the same. *)
Lemma step_swept_view p t s s' :
  thread_compute p t s = Some s' ->
  exists w w',
    workers s !! t = Some w /\
    workers s' = <[t := w']> (workers s) /\
    ((pc w = Sweep /\ post_sweep w' = true /\ iter w' = iter w /\
      mem s' = (sweep p (tid t) (curr w) (prev w) (mem s, local w)).1) \/
     (mem s' = mem s /\ forall x, has_swept x w' <-> has_swept x w)).
Proof.
  intros Hstep.
  step_inv Hstep w Hw; exists w; eexists; simpl; autorewrite with state;
    (split; [reflexivity |]); (split; [reflexivity |]).
  all: try (right; split; [reflexivity |]; intros x;
            unfold has_swept, post_sweep; simpl; rewrite Hpc; cases_cb; simpl;
            intuition (try discriminate; try lia)).
  left. by rewrite H.
Qed.

(** Next to a worker about to sweep generation [g], a worker that has
    swept [g] is still in generation [g]. *)
Lemma sweeping_peer p s t1 w1 t w :
  sync_inv p s ->
  workers s !! t1 = Some w1 -> pc w1 = Sweep ->
  workers s !! t = Some w -> has_swept (iter w1) w ->
  iter w = iter w1 /\ post_sweep w = true.
Proof.
  intros (Hall & _ & _) Hw1 Hpc1 Hw Hsw.
  pose proof (Forall_lookup_1 _ _ _ _ Hall Hw1) as Hs1.
  pose proof (Forall_lookup_1 _ _ _ _ Hall Hw) as Hs.
  unfold in_sync, arrivals in Hs1, Hs. rewrite Hpc1 in Hs1.
  destruct Hsw as [Hlt | [? ?]]; [exfalso | done].
  destruct (pc w); cases_cb; lia.
Qed.

Lemma ref_inv_init p : ref_inv p (init_state p).
Proof.
  intros n Hall _.
  destruct (decide (num_threads p <= 0)) as [Hk | Hk].
  - rewrite run_grids_no_workers by done. split; [done |].
    intros ij _. split; [| done]. intros t w Hw.
    rewrite workers_init_state in Hw. apply lookup_replicate in Hw. lia.
  - assert (n = O) as ->.
    { rewrite workers_init_state in Hall.
      destruct (Z.to_nat (num_threads p)) eqn:E; [lia |]. simpl in Hall.
      apply Forall_inv in Hall. unfold has_swept in Hall. simpl in Hall.
      destruct Hall as [? | [? ?]]; [lia | done]. }
    simpl run_grids. split; [done |]. intros ij _. split; [| done].
    intros t w Hw Hsw. rewrite workers_init_state in Hw.
    apply lookup_replicate in Hw as [-> _]. unfold has_swept in Hsw.
    simpl in Hsw. destruct Hsw as [? | [? ?]]; [lia | done].
Qed.

(** The workers after a step that replaces worker [t1]. *)
Lemma insert_lookup_other {A} (l : list A) t1 x t y :
  t <> t1 -> <[t1 := x]> l !! t = Some y <-> l !! t = Some y.
Proof. intros Hne. by rewrite list_lookup_insert_ne. Qed.

Lemma Forall_insert_iff {A} (P Q : A -> Prop) (l : list A) t1 w1 w1' :
  l !! t1 = Some w1 -> (P w1' -> Q w1) -> (forall w, P w -> Q w) ->
  Forall P (<[t1 := w1']> l) -> Forall Q l.
Proof.
  intros Hw1 H1 HPQ Hall. apply Forall_lookup. intros t w Hw.
  destruct (decide (t = t1)) as [-> | Hne].
  - assert (w = w1) as -> by congruence. apply H1.
    apply (Forall_lookup_1 _ _ t1 _ Hall).
    apply list_lookup_insert_eq. by eapply lookup_lt_Some.
  - apply HPQ, (Forall_lookup_1 _ _ t _ Hall). by rewrite list_lookup_insert_ne.
Qed.

Lemma ref_inv_quiet p t1 s s' w1 w1' :
  workers s !! t1 = Some w1 ->
  workers s' = <[t1 := w1']> (workers s) ->
  mem s' = mem s -> (forall x, has_swept x w1' <-> has_swept x w1) ->
  ref_inv p s -> ref_inv p s'.
Proof.
  intros Hw1 Hws Hmem Hiff IH n Hall Hnone. rewrite Hws in Hall, Hnone.
  assert (Hall0 : Forall (has_swept (Z.of_nat n)) (workers s)).
  { apply (Forall_insert_iff _ _ _ _ _ _ Hw1 (proj1 (Hiff _)) (fun _ H => H) Hall). }
  assert (Hnone0 : Forall (fun w => ~ has_swept (Z.of_nat n + 2) w) (workers s)).
  { refine (Forall_insert_iff _ _ _ _ _ _ Hw1 _ (fun _ H => H) Hnone).
    intros Hn Hs. by apply Hn, Hiff. }
  destruct (IH n Hall0 Hnone0) as [IH1 IH2]. rewrite Hmem, Hws.
  split; [done |]. intros ij Hij. destruct (IH2 ij Hij) as [IHa IHb]. split.
  - intros t w Hw Hsw Hin. destruct (decide (t = t1)) as [-> | Hne].
    + rewrite list_lookup_insert_eq in Hw by (by eapply lookup_lt_Some).
      injection Hw as <-. apply (IHa t1 w1); [done | by apply Hiff | done].
    + rewrite list_lookup_insert_ne in Hw by done. by apply (IHa t w).
  - intros Hno. apply IHb. intros t w Hw Hsw.
    destruct (decide (t = t1)) as [-> | Hne].
    + assert (w = w1) as -> by congruence. apply (Hno t1 w1'); [| by apply Hiff].
      apply list_lookup_insert_eq. by eapply lookup_lt_Some.
    + apply (Hno t w); [| done]. by rewrite list_lookup_insert_ne.
Qed.

Lemma visited_spec p ij :
  ij ∈ visited p <-> exists t, is_worker p t /\ ij ∈ cells p t.
Proof.
  unfold visited, worker_ids, is_worker. rewrite list_elem_of_bind.
  split; intros (t & H1 & H2); exists t.
  - apply elem_of_seqZ in H2. split; [lia | done].
  - split; [apply H2 |]. apply elem_of_seqZ. lia.
Qed.

Lemma ref_inv_sweep p t1 s s' w1 w1' :
  well_formed p s -> well_formed p s' -> sync_inv p s ->
  local_inv w1 -> iter_inv p w1 ->
  workers s !! t1 = Some w1 ->
  workers s' = <[t1 := w1']> (workers s) ->
  pc w1 = Sweep -> post_sweep w1' = true -> iter w1' = iter w1 ->
  mem s' = (sweep p (tid t1) (curr w1) (prev w1) (mem s, local w1)).1 ->
  ref_inv p s -> ref_inv p s'.
Proof.
  intros Hwf Hwf' Hsy (Hc1 & Hp1 & _) (Hit1 & _) Hw1 Hws Hpc1 Hps1 Hi1 Hmem IH n
         Hall Hnone.
  pose proof (worker_is_worker p s t1 w1 Hwf Hw1) as Ht1.
  assert (Hwf0 := Hwf). destruct Hwf as (Hsh & Hlen & Hbuf).
  unfold post_sweep in Hc1. rewrite Hpc1 in Hc1.
  assert (Hlt1 : (t1 < length (workers s))%nat) by (by eapply lookup_lt_Some).
  assert (Hw1' : workers s' !! t1 = Some w1').
  { rewrite Hws. by apply list_lookup_insert_eq. }
  pose proof (Forall_lookup_1 _ _ _ _ Hall Hw1') as Hs1'.
  pose proof (Forall_lookup_1 _ _ _ _ Hnone Hw1') as Hn1'.
  unfold has_swept in Hs1', Hn1'. rewrite Hi1, Hps1 in Hs1', Hn1'.
  assert (Hw1s : forall x, has_swept x w1 <-> x < iter w1).
  { intros x. unfold has_swept, post_sweep. rewrite Hpc1.
    intuition (try discriminate; try lia). }
  assert (Hother : forall t w, t <> t1 ->
            workers s' !! t = Some w <-> workers s !! t = Some w).
  { intros t w Hne. rewrite Hws. by apply insert_lookup_other. }
  destruct (decide (iter w1 = Z.of_nat n)) as [Eg | Eg].
  - (* the worker sweeps generation [n] *)
    destruct n as [| n']; [lia |].
    assert (EG : Z.of_nat (S n') = Z.of_nat n' + 1) by lia.
    change (run_grids p (S n')) with
      (generation p (Z.of_nat (S n')) (run_grids p n')).
    rewrite EG in *. clear EG.
    set (g' := Z.of_nat n') in *. set (R := run_grids p n') in *.
    assert (Hpeer : forall t w, t <> t1 -> workers s !! t = Some w ->
              iter w = g' + 1 /\ post_sweep w = true).
    { intros t w Hne Hw. rewrite <- Eg.
      apply (sweeping_peer p s t1 w1 t w); try done. rewrite Eg.
      apply (Forall_lookup_1 _ _ t _ Hall). by apply Hother. }
    assert (Hall0 : Forall (has_swept g') (workers s)).
    { apply Forall_lookup. intros t w Hw.
      destruct (decide (t = t1)) as [-> | Hne].
      - assert (w = w1) as -> by congruence. apply Hw1s. lia.
      - destruct (Hpeer t w Hne Hw). left. lia. }
    assert (Hnone0 : Forall (fun w => ~ has_swept (g' + 2) w) (workers s)).
    { apply Forall_lookup. intros t w Hw.
      destruct (decide (t = t1)) as [-> | Hne].
      - assert (w = w1) as -> by congruence. rewrite Hw1s. lia.
      - destruct (Hpeer t w Hne Hw) as [Hi _]. unfold has_swept. lia. }
    destruct (IH n' Hall0 Hnone0) as [IH1 IH2]. fold g' R in IH1, IH2.
    destruct (generation_spec p (g' + 1) R (shaped_run_grids p n'))
      as (Hgsh & Hgprev & Hgcells).
    rewrite succ_mod2 in *. set (c' := g' `mod` 2) in *.
    replace (1 - (1 - c')) with c' in * by lia.
    assert (Hb : buffers_ok (1 - c') c').
    { subst c'. destruct (mod2_cases g') as [-> | ->]; [by right | by left]. }
    assert (Ec : curr w1 = 1 - c') by (by rewrite Hc1, Eg, succ_mod2).
    assert (Ep : prev w1 = c') by lia.
    rewrite Ec, Ep in Hmem.
    assert (Hprev : sel (mem s') c' = sel (generation p (g' + 1) R) c').
    { by rewrite Hmem, sweep_prev, Hgprev. }
    split.
    + apply (grid_ext (gridsize p));
        [apply shaped2_sel, Hwf' | by apply shaped2_sel |].
      intros i j Hij. destruct (Hgcells (i, j) Hij) as [Hga Hgb].
      destruct (IH2 (i, j) Hij) as [IHa IHb]. simpl in *.
      destruct Hij as [Hi Hj]. simpl in Hi, Hj.
      destruct (decide ((i, j) ∈ cells p (tid t1))) as [Hin1 | Hout1].
      * rewrite Hga by (apply visited_spec; by exists (tid t1)).
        rewrite Hmem.
        rewrite (sweep_curr_in p (tid t1) _ _ (mem s) (local w1) (i, j)) by done.
        by rewrite IH1.
      * rewrite Hmem, sweep_curr_out by (done || lia).
        destruct (decide ((i, j) ∈ visited p)) as [Hv | Hv].
        -- rewrite Hga by done.
           apply visited_spec in Hv as (tz & [Hz0 Hzk] & Hin).
           destruct (lookup_lt_is_Some_2 (workers s) (Z.to_nat tz)) as [w Hw];
             [lia |].
           assert (Etz : tid (Z.to_nat tz) = tz) by (unfold tid; lia).
           assert (Hne : Z.to_nat tz <> t1).
           { intros <-. by rewrite Etz in Hout1. }
           destruct (Hpeer _ w Hne Hw) as [Hi' Hps'].
           apply (IHa (Z.to_nat tz) w); [done | by right | by rewrite Etz].
        -- rewrite Hgb by done. apply IHb. intros t w Hw _ Hin.
           apply Hv, visited_spec. exists (tid t). split; [| done].
           by apply (worker_is_worker p s t w).
    + intros ij Hij. rewrite Hprev. split; [| done].
      intros t w Hw Hsw. exfalso. destruct (decide (t = t1)) as [-> | Hne].
      * assert (w = w1') as -> by congruence. unfold has_swept in Hsw. lia.
      * apply Hother in Hw; [| done]. destruct (Hpeer t w Hne Hw) as [Hi' _].
        unfold has_swept in Hsw. lia.
  - (* the worker sweeps generation [n + 1] *)
    set (g := Z.of_nat n) in *. set (R := run_grids p n) in *.
    assert (Eg1 : iter w1 = g + 1) by (intuition lia).
    assert (Hall0 : Forall (has_swept g) (workers s)).
    { rewrite Hws in Hall.
      refine (Forall_insert_iff _ _ _ _ _ _ Hw1 _ (fun _ H => H) Hall).
      intros _. apply Hw1s. lia. }
    assert (Hnone0 : Forall (fun w => ~ has_swept (g + 2) w) (workers s)).
    { rewrite Hws in Hnone.
      refine (Forall_insert_iff _ _ _ _ _ _ Hw1 _ (fun _ H => H) Hnone).
      intros _. rewrite Hw1s. lia. }
    destruct (IH n Hall0 Hnone0) as [IH1 IH2]. fold g R in IH1, IH2.
    set (c := g `mod` 2) in *.
    assert (Hb : buffers_ok (1 - c) c).
    { subst c. destruct (mod2_cases g) as [-> | ->]; [by right | by left]. }
    assert (Ec : curr w1 = 1 - c) by (by rewrite Hc1, Eg1, succ_mod2).
    assert (Ep : prev w1 = c) by lia.
    rewrite Ec, Ep in Hmem. rewrite Hmem. split.
    + by rewrite sweep_prev.
    + intros [i j] Hij. destruct (IH2 (i, j) Hij) as [IHa IHb].
      destruct Hij as [Hi Hj]. simpl in *. split.
      * intros t w Hw Hsw Hin. destruct (decide (t = t1)) as [-> | Hne].
        -- rewrite (sweep_curr_in p (tid t1) _ _ (mem s) (local w1) (i, j))
             by done.
           by rewrite IH1.
        -- apply Hother in Hw; [| done].
           rewrite sweep_curr_out; [by apply (IHa t w) | done .. | lia | lia |].
           intros Hin1. apply Hne, tid_inj.
           apply (cells_disjoint p (tid t) (tid t1) (i, j)); try done.
           by apply (worker_is_worker p s t w).
      * intros Hno. rewrite sweep_curr_out; [| done .. | lia | lia |].
        -- apply IHb. intros t w Hw Hsw.
           destruct (decide (t = t1)) as [-> | Hne].
           ++ assert (w = w1) as -> by congruence. apply Hw1s in Hsw. lia.
           ++ apply (Hno t w); [by apply Hother | done].
        -- apply (Hno t1 w1'); [done |]. right. split; [lia | done].
Qed.

Lemma ref_inv_step p t s s' :
  reachable p s -> ref_inv p s -> thread_compute p t s = Some s' -> ref_inv p s'.
Proof.
  intros Hr IH Hstep.
  pose proof (reachable_well_formed p s Hr) as Hwf.
  destruct (step_swept_view p t s s' Hstep)
    as (w & w' & Hw & Hws & [(Hpc & Hps & Hi & Hmem) | (Hmem & Hiff)]).
  - apply (ref_inv_sweep p t s s' w w'); try done.
    + by apply (well_formed_step p t s).
    + by apply reachable_sync.
    + apply (Forall_lookup_1 _ _ _ _ (reachable_local p s Hr) Hw).
    + apply (Forall_lookup_1 _ _ _ _ (reachable_iter p s Hr) Hw).
  - by apply (ref_inv_quiet p t s s' w w').
Qed.

Lemma reachable_ref p s : reachable p s -> ref_inv p s.
Proof.
  revert s. apply reachable_ind; [apply ref_inv_init |].
  intros t s s'. apply ref_inv_step.
Qed.

(** ** The grids at the end of a run *)

(** When all workers have returned the grids are those of the run by
    turns, whatever the order in which the workers took their steps. *)
Theorem final_grids p s :
  reachable p s -> finished s ->
  mem s = run_grids p (Z.to_nat (num_iters p)).
Proof.
  intros Hr Hfin. set (n := Z.to_nat (num_iters p)).
  pose proof (reachable_iter p s Hr) as Hit.
  assert (Hdone : Forall (fun w => pc w = Done /\ iter w = Z.of_nat n + 1)
                         (workers s)).
  { pose proof (proj2 (@Forall_and _ _ _ _) (conj Hfin Hit)) as Hboth.
    eapply Forall_impl; [exact Hboth |]. simpl.
    intros w (Hpc & H1 & H2 & H3 & _). split; [done |].
    specialize (H3 Hpc). subst n. lia. }
  destruct (reachable_ref p s Hr n) as [H1 H2].
  - eapply Forall_impl; [exact Hdone |]. simpl. intros w [_ Hi]. left. lia.
  - eapply Forall_impl; [exact Hdone |]. simpl. intros w [_ Hi].
    unfold has_swept. lia.
  - pose proof (reachable_well_formed p s Hr) as (Hsh & _ & _).
    apply (grids_ext _ _ (Z.of_nat n `mod` 2)); [apply mod2_cases | done |].
    apply (grid_ext (gridsize p));
      [by apply shaped2_sel | apply shaped2_sel, shaped_run_grids |].
    intros i j Hij. apply (H2 (i, j) Hij). intros t w Hw Hsw. exfalso.
    pose proof (Forall_lookup_1 _ _ _ _ Hdone Hw) as [Hpc Hi].
    unfold has_swept, post_sweep in Hsw. rewrite Hpc in Hsw.
    destruct Hsw as [? | [_ ?]]; [lia | done].
Qed.

(** Two complete runs of the same command line end with the same grids. *)
Corollary final_grids_unique p s1 s2 :
  reachable p s1 -> finished s1 -> reachable p s2 -> finished s2 ->
  mem s1 = mem s2.
Proof.
  intros Hr1 Hf1 Hr2 Hf2.
  by rewrite (final_grids p s1), (final_grids p s2).
Qed.

(** When the division is exact the workers visit the whole interior. *)
Lemma visited_exact p ij :
  1 <= num_threads p -> gridsize p `mod` num_threads p = 0 ->
  ij ∈ visited p <->
  (1 <= ij.1 <= gridsize p) /\ (1 <= ij.2 <= gridsize p).
Proof.
  intros Hk Hm. destruct ij as [i j]. rewrite visited_spec. simpl. split.
  - intros (t & Ht & Hin). by apply (cells_interior p t).
  - intros [Hi Hj]. destruct (exact_cover p) with i as (t & Ht & Ho);
      [lia .. | done | done |].
    exists t. split; [done |]. by apply elem_of_cells.
Qed.

Lemma generation_single p g gs :
  1 <= num_threads p -> gridsize p `mod` num_threads p = 0 ->
  shaped2 (gridsize p) gs ->
  generation p g gs = generation (single p) g gs.
Proof.
  intros Hk Hm Hsh.
  destruct (generation_spec p g gs Hsh) as (Hs & Hp & Hc).
  destruct (generation_spec (single p) g gs Hsh) as (Hs1 & Hp1 & Hc1).
  simpl gridsize in *.
  apply (grids_ext _ _ (g `mod` 2)); [apply mod2_cases | | congruence].
  apply (grid_ext (gridsize p)); [by apply shaped2_sel .. |].
  intros i j Hij. destruct (Hc (i, j) Hij) as [Ha Hb].
  destruct (Hc1 (i, j) Hij) as [Ha1 Hb1]. simpl in Ha, Hb, Ha1, Hb1.
  assert (Hiff : (i, j) ∈ visited p <-> (i, j) ∈ visited (single p)).
  { rewrite (visited_exact p), (visited_exact (single p)); try done.
    simpl. apply Z.mod_1_r. }
  destruct (decide ((i, j) ∈ visited p)) as [Hv | Hv].
  - rewrite Ha, Ha1; [done | by apply Hiff | done].
  - rewrite Hb, Hb1; [done | by rewrite <- Hiff | done].
Qed.

(** With a number of workers that divides the grid size the run by turns
    is the run of a single worker. *)
Theorem run_grids_single p n :
  1 <= num_threads p -> gridsize p `mod` num_threads p = 0 ->
  run_grids p n = run_grids (single p) n.
Proof.
  intros Hk Hm. induction n as [| n IH].
  - simpl. by rewrite !mem_init_state.
  - change (run_grids p (S n)) with
      (generation p (Z.of_nat (S n)) (run_grids p n)).
    change (run_grids (single p) (S n)) with
      (generation (single p) (Z.of_nat (S n)) (run_grids (single p) n)).
    rewrite <- IH. apply generation_single; try done. apply shaped_run_grids.
Qed.

(** Hence, for such a number of workers, every complete run ends with the
    grids of every complete run of a single worker. *)
Theorem divisible_runs_agree p s sk :
  1 <= num_threads p -> gridsize p `mod` num_threads p = 0 ->
  reachable (single p) s -> finished s ->
  reachable p sk -> finished sk ->
  mem s = mem sk.
Proof.
  intros Hk Hm Hr Hf Hrk Hfk.
  rewrite (final_grids p sk), (final_grids (single p) s) by done.
  simpl num_iters. symmetry. by apply run_grids_single.
Qed.

(** ** Progress: no deadlock *)

Lemma enabled_step p t s w :
  workers s !! t = Some w ->
  enabled s w = true <-> is_Some (thread_compute p t s).
Proof.
  intros Hw. unfold enabled, thread_compute. rewrite Hw. simpl.
  destruct (pc w); simpl; try (split; [by eauto | done]).
  - case_match; split; eauto.
  - destruct (sweep _ _ _ _ _). split; eauto.
  - case_decide as Hd; subst.
    + rewrite Nat.eqb_refl. simpl. split; [done | by intros [? ?]].
    + rewrite (proj2 (Nat.eqb_neq _ _)) by done. split; eauto.
  - destruct (mutex s); simpl; split; eauto; done.
Qed.

Lemma sumZ_b2z_all {A} (f : A -> bool) l :
  Forall (fun w => f w = true) l ->
  sumZ (fun w => Z.b2z (f w)) l = Z.of_nat (length l).
Proof.
  induction 1 as [| w l E _ IH]; simpl; [done |]. rewrite E, IH. simpl. lia.
Qed.

(** In a state of a run in which some worker has not returned, some
    worker can take a step. *)
Lemma no_deadlock p s :
  reachable p s -> ~ finished s -> exists t s', thread_compute p t s = Some s'.
Proof.
  intros Hr Hnf.
  destruct (reachable_sync p s Hr) as (Hall & Harr & Hlt).
  pose proof (reachable_mutex p s Hr) as Hmx.
  pose proof (reachable_iter p s Hr) as Hit.
  destruct (reachable_well_formed p s Hr) as (_ & Hlen & _).
  destruct (decide (Exists (fun w => enabled s w = true) (workers s))) as [Hex | Hno].
  - apply Exists_exists in Hex as (w & Hin & Hen).
    apply list_elem_of_lookup in Hin as [t Hw].
    apply (enabled_step p t s w Hw) in Hen as [s' Hs']. by exists t, s'.
  - exfalso. apply Hnf.
    assert (Hdis : Forall (fun w => enabled s w = false) (workers s)).
    { apply Forall_forall. intros w Hin.
      destruct (enabled s w) eqn:E; [| done].
      exfalso. apply Hno, Exists_exists. by exists w. }
    assert (Hfree : mutex s = false).
    { unfold mutex_inv in Hmx. rewrite sumZ_zero in Hmx.
      - by destruct (mutex s).
      - eapply Forall_impl; [exact Hdis |]. simpl. intros w.
        unfold enabled, in_cs. by destruct (pc w). }
    assert (Hkind : Forall (fun w => blocked (epoch s) w = true \/ pc w = Done)
                           (workers s)).
    { eapply Forall_impl; [exact Hdis |]. simpl. intros w.
      unfold enabled, blocked. rewrite Hfree.
      destruct (pc w); try done; [| by right].
      intros E%negb_false_iff. left. apply Nat.eqb_eq in E. by apply Nat.eqb_eq. }
    destruct (decide (Exists (fun w => blocked (epoch s) w = true) (workers s)))
      as [Hbl | Hnb].
    + exfalso. apply Exists_exists in Hbl as (w1 & Hin1 & Hb1).
      assert (Hfull : Forall (fun w => blocked (epoch s) w = true) (workers s)).
      { apply Forall_forall. intros w Hin.
        pose proof (proj1 (Forall_forall _ _) Hkind w Hin) as [? | Hd]; [done |].
        exfalso.
        pose proof (proj1 (Forall_forall _ _) Hall w Hin) as Hs.
        pose proof (proj1 (Forall_forall _ _) Hall w1 Hin1) as Hs1.
        pose proof (proj1 (Forall_forall _ _) Hit w Hin) as (_ & _ & H3 & _).
        pose proof (proj1 (Forall_forall _ _) Hit w1 Hin1) as (_ & _ & _ & H4).
        specialize (H3 Hd).
        unfold in_sync, arrivals, blocked in *. rewrite Hd in Hs.
        destruct (pc w1) eqn:E1; try done.
        apply Nat.eqb_eq in Hb1. subst ticket.
        assert (iter w1 <= num_iters p) by (by apply H4).
        destruct b; lia. }
      rewrite (sumZ_b2z_all _ _ Hfull) in Harr.
      destruct Hlt as [? | Hnil]; [lia |].
      rewrite Hnil in Hin1. by apply elem_of_nil in Hin1.
    + apply Forall_forall. intros w Hin.
      pose proof (proj1 (Forall_forall _ _) Hkind w Hin) as [Hb | Hd]; [| done].
      exfalso. apply Hnb, Exists_exists. by exists w.
Qed.

(** ** Termination: the length of a run *)

Lemma sumZ_replicate {A} (f : A -> Z) n x :
  sumZ f (replicate n x) = Z.of_nat n * f x.
Proof. induction n as [| n IH]; simpl; [done | rewrite IH; lia]. Qed.

(** Every step is one more step of the stepping worker. *)
Lemma step_counts p t s s' :
  thread_compute p t s = Some s' ->
  sumZ steps_taken (workers s') = sumZ steps_taken (workers s) + 1.
Proof.
  intros Hstep.
  step_inv Hstep w Hw; simpl; autorewrite with state;
    rewrite (sumZ_insert _ _ _ _ _ Hw); unfold steps_taken; simpl;
    rewrite Hpc; cases_cb; simpl; lia.
Qed.

Lemma exec_counts p sched s s' :
  exec p sched s = Some s' ->
  sumZ steps_taken (workers s') =
  sumZ steps_taken (workers s) + Z.of_nat (length sched).
Proof.
  revert s. induction sched as [| t sched IH]; intros s Hex.
  - simpl in Hex. injection Hex as <-. simpl. lia.
  - simpl in Hex. destruct (thread_compute p t s) as [s1 |] eqn:E; [| done].
    simpl in Hex. rewrite (IH s1 Hex), (step_counts p t s s1 E).
    simpl length. lia.
Qed.

Lemma steps_taken_init p : sumZ steps_taken (workers (init_state p)) = 0.
Proof. rewrite workers_init_state, sumZ_replicate. unfold steps_taken. simpl. lia. Qed.

Lemma steps_taken_bound p w :
  iter_inv p w ->
  steps_taken w <= 18 * Z.max 0 (num_iters p) + 1 /\
  (pc w = Done -> steps_taken w = 18 * Z.max 0 (num_iters p) + 1).
Proof.
  intros (H1 & H2 & H3 & H4). unfold steps_taken.
  destruct (pc w) eqn:E; cases_cb; simpl;
    try (assert (iter w <= num_iters p) by (by apply H4));
    (split; [lia | try done]).
  intros _. specialize (H3 eq_refl). lia.
Qed.

Lemma sumZ_le_const {A} (f : A -> Z) l c :
  Forall (fun w => f w <= c) l -> sumZ f l <= Z.of_nat (length l) * c.
Proof. induction 1 as [| w l E _ IH]; simpl; [done | lia]. Qed.

Lemma sumZ_const {A} (f : A -> Z) l c :
  Forall (fun w => f w = c) l -> sumZ f l = Z.of_nat (length l) * c.
Proof. induction 1 as [| w l E _ IH]; simpl; [done | lia]. Qed.

(** The steps of a run so far are the steps its workers have taken; a run
    has at most [run_length] steps, and exactly as many when it is
    complete. *)
Lemma run_steps p sched s :
  exec p sched (init_state p) = Some s ->
  Z.of_nat (length sched) <= run_length p /\
  (finished s -> Z.of_nat (length sched) = run_length p).
Proof.
  intros Hex.
  assert (Hr : reachable p s) by (by exists sched).
  pose proof (exec_counts p sched _ s Hex) as Hc.
  rewrite steps_taken_init in Hc.
  pose proof (reachable_iter p s Hr) as Hit.
  destruct (reachable_well_formed p s Hr) as (_ & Hlen & _).
  assert (Hk : Z.of_nat (length (workers s)) = Z.max 0 (num_threads p)) by lia.
  unfold run_length. rewrite <- Hk. split.
  - rewrite <- (Z.add_0_l (Z.of_nat (length sched))), <- Hc.
    apply sumZ_le_const. eapply Forall_impl; [exact Hit |].
    intros w Hw. by apply steps_taken_bound.
  - intros Hfin. rewrite <- (Z.add_0_l (Z.of_nat (length sched))), <- Hc.
    apply sumZ_const.
    pose proof (proj2 (@Forall_and _ _ _ _) (conj Hfin Hit)) as Hboth.
    eapply Forall_impl; [exact Hboth |]. simpl.
    intros w [Hd Hw]. by apply steps_taken_bound.
Qed.

(** ** Cells hold 0 or 1 *)

Lemma binary_zero_grid n : binary n (zero_grid n).
Proof. intros i j Hij. left. by apply get_zero_grid. Qed.

Lemma binary_set_cell n g i j v :
  shaped n g -> binary n g -> in_grid n (i, j) -> v = 0 \/ v = 1 ->
  binary n (set_cell g i j v).
Proof.
  intros Hs Hb Hij Hv i' j' Hij'.
  destruct (decide ((i, j) = (i', j'))) as [[= <- <-] | Hne].
  - by rewrite (get_set_cell_eq n).
  - destruct Hij as [? ?], Hij' as [? ?]. simpl in *.
    rewrite get_set_cell_ne by (done || lia). apply Hb. split; simpl; lia.
Qed.

(** The seeding loops store 0 or 1 only. *)
Lemma seeding_binary p : binary (gridsize p) (seeding p).1.1.
Proof.
  enough (H : shaped (gridsize p) (seeding p).1.1 /\
              binary (gridsize p) (seeding p).1.1) by apply H.
  unfold seeding.
  apply (foldl_inv (fun st => shaped (gridsize p) st.1.1 /\
                              binary (gridsize p) st.1.1)).
  2: { split; [apply shaped_zero_grid | apply binary_zero_grid]. }
  intros st i Hi Hst. unfold seed_row.
  apply (foldl_inv (fun st => shaped (gridsize p) st.1.1 /\
                              binary (gridsize p) st.1.1)); [| done].
  intros [[g x] lc] j Hj [Hs Hb]. rewrite elem_of_seqZ in Hi, Hj.
  unfold seed_cell. case_match; simpl;
    (split; [by apply shaped_set_cell |]);
    apply binary_set_cell; try done; try (split; simpl; lia); auto.
Qed.

Lemma rule_binary n old : old = 0 \/ old = 1 -> rule n old = 0 \/ rule n old = 1.
Proof. intros Ho. unfold rule. repeat case_match; auto. Qed.

Lemma next_state_binary n g ij :
  binary n g -> in_grid n ij -> next_state g ij = 0 \/ next_state g ij = 1.
Proof.
  intros Hb Hij. unfold next_state. apply rule_binary. destruct ij. by apply Hb.
Qed.

Lemma binary_paint n g0 l g :
  shaped n g -> binary n g0 -> binary n g -> Forall (in_grid n) l ->
  binary n (paint (next_state g0) l g).
Proof.
  intros Hs Hb0 Hb Hl i j Hij. rewrite (get_paint n) by done.
  case_decide; [by apply (next_state_binary n) | by apply Hb].
Qed.

Lemma binary_sweep p t curr prev gs lc :
  is_worker p t -> buffers_ok curr prev -> shaped2 (gridsize p) gs ->
  binary (gridsize p) (grid0 gs) -> binary (gridsize p) (grid1 gs) ->
  let gs' := (sweep p t curr prev (gs, lc)).1 in
  binary (gridsize p) (grid0 gs') /\ binary (gridsize p) (grid1 gs').
Proof.
  intros Ht Hb Hs H0 H1 gs'. subst gs'. rewrite sweep_spec by done. simpl.
  pose proof (cells_in_grid p t Ht) as Hc. destruct Hs as [S0 S1].
  destruct Hb as [[-> ->] | [-> ->]]; unfold put, sel; simpl;
    (split; [by apply binary_paint || done | by apply binary_paint || done]).
Qed.

(** In every state of a run every cell of both buffers holds 0 or 1. *)
Lemma reachable_binary p s :
  reachable p s ->
  binary (gridsize p) (grid0 (mem s)) /\ binary (gridsize p) (grid1 (mem s)).
Proof.
  revert s. apply reachable_ind.
  - rewrite mem_init_state. simpl. split; [apply seeding_binary | apply binary_zero_grid].
  - intros t s s' Hr [H0 H1] Hstep.
    pose proof (reachable_well_formed p s Hr) as Hwf.
    destruct (step_frame p t s s' Hstep) as (w & w' & Hw & _ & _ & Hmem).
    destruct Hmem as [-> | [_ ->]]; [done |].
    pose proof (worker_is_worker p s t w Hwf Hw) as Ht.
    destruct Hwf as (Hsh & _ & Hbuf).
    apply binary_sweep; try done. by apply (Forall_lookup_1 _ _ _ _ Hbuf Hw).
Qed.

Lemma binary_sel n gs b :
  binary n (grid0 gs) -> binary n (grid1 gs) -> binary n (sel gs b).
Proof. intros H0 H1. unfold sel. by destruct (b =? 0). Qed.

(** The sum of the eight neighbours of an interior cell. *)
Lemma neigh_count_bound n g i j :
  binary n g -> 1 <= i <= n -> 1 <= j <= n -> 0 <= neigh_count g i j <= 8.
Proof.
  intros Hb Hi Hj. unfold neigh_count.
  assert (H : forall di dj, -1 <= di <= 1 -> -1 <= dj <= 1 ->
            0 <= get_cell g (i + di) (j + dj) <= 1).
  { intros di dj Hdi Hdj.
    destruct (Hb (i + di) (j + dj)) as [-> | ->]; [split; simpl; lia | lia | lia]. }
  pose proof (H (-1) (-1)). pose proof (H (-1) 0). pose proof (H (-1) 1).
  pose proof (H 0 (-1)). pose proof (H 0 1).
  pose proof (H 1 (-1)). pose proof (H 1 0). pose proof (H 1 1).
  rewrite !Z.add_0_r in *.
  replace (i + -1) with (i - 1) in * by lia.
  replace (j + -1) with (j - 1) in * by lia. lia.
Qed.

(** ** The live count *)

Lemma tally_live g l lc :
  c_live (tally g l lc) = c_live lc + sumZ (next_state g) l.
Proof.
  induction l as [| ij l IH] using rev_ind; [simpl; lia |].
  rewrite tally_snoc, sumZ_app. simpl. rewrite IH. lia.
Qed.

Lemma count_cells_cons f ij l :
  count_cells f (ij :: l) = Z.b2z (f ij) + count_cells f l.
Proof.
  unfold count_cells. rewrite filter_cons.
  case_decide as Hd; [rewrite Hd | destruct (f ij); [done |]]; simpl length; simpl; lia.
Qed.

Lemma count_cells_sum f l : count_cells f l = sumZ (fun ij => Z.b2z (f ij)) l.
Proof.
  induction l as [| ij l IH]; [done |]. rewrite count_cells_cons, IH. done.
Qed.

(** What the [switch] stores, against the cell it read: one more for a
    birth, one less for a death. *)
Lemma next_state_balance g ij :
  get_cell g ij.1 ij.2 = 0 \/ get_cell g ij.1 ij.2 = 1 ->
  next_state g ij =
  get_cell g ij.1 ij.2 + Z.b2z (born g ij) - Z.b2z (died g ij).
Proof.
  unfold next_state, rule, born, died.
  intros [-> | ->]; simpl;
    destruct (Z.eqb_spec (neigh_count g ij.1 ij.2) 2) as [-> | ?]; simpl;
    try destruct (Z.eqb_spec (neigh_count g ij.1 ij.2) 3); simpl; lia.
Qed.

Lemma sumZ_bind {A B} (f : B -> Z) (h : A -> list B) l :
  sumZ f (l ≫= h) = sumZ (fun x => sumZ f (h x)) l.
Proof.
  induction l as [| x l IH]; [done |]. rewrite bind_cons, sumZ_app, IH. done.
Qed.

(** The state in which the reduction of generation [g] is complete, seen
    from the grids: the current buffer holds the next state of the previous
    one in every visited cell, and every global counter is the sum of what
    the workers have tallied over the previous buffer. *)
Lemma reduction_view p s g :
  reachable p s -> 1 <= num_threads p -> reduction_done g s ->
  let before := sel (mem s) (1 - g `mod` 2) in
  let now := sel (mem s) (g `mod` 2) in
  (forall ij, ij ∈ visited p -> get_cell now ij.1 ij.2 = next_state before ij) /\
  (forall c, cnt (shared s) c =
             sumZ (fun t => cnt (tally before (cells p t) zero_counts) c)
                  (worker_ids p)).
Proof.
  intros Hr Hk Hall before now.
  pose proof (reachable_well_formed p s Hr) as Hwf.
  destruct Hwf as (Hsh & Hlen & Hbuf).
  pose proof (reachable_local p s Hr) as Hloc.
  pose proof (reachable_swept p s Hr g) as Hsw.
  assert (Hna : Forall (not_ahead g) (workers s)).
  { eapply Forall_impl; [exact Hall |]. simpl. intros w [_ Hg]. left. lia. }
  specialize (Hsw Hna).
  assert (Hw : forall t w, workers s !! t = Some w ->
            local w = tally before (cells p (tid t)) zero_counts /\
            forall ij, ij ∈ cells p (tid t) ->
              get_cell now ij.1 ij.2 = next_state before ij).
  { intros t w Hlook.
    pose proof (Forall_lookup_1 _ _ _ _ Hall Hlook) as [[tk Hpc] Hg].
    pose proof (Forall_lookup_1 _ _ _ _ Hloc Hlook) as (Hc & Hp & _).
    unfold post_sweep in Hc. rewrite Hpc, Hg in Hc.
    destruct (Hsw t w Hlook Hg) as [Hl Hcells];
      [unfold post_sweep; by rewrite Hpc |].
    rewrite Hp, Hc in Hl, Hcells. done. }
  split.
  - intros ij (t & Hij & Ht%elem_of_seqZ)%list_elem_of_bind.
    destruct (lookup_lt_is_Some_2 (workers s) (Z.to_nat t)) as [w Hlook]; [lia |].
    destruct (Hw _ w Hlook) as [_ Hc]. apply Hc.
    unfold tid. by rewrite Z2Nat.id by lia.
  - intros c. rewrite (reduced_counter_sum p s g c Hr Hk Hall).
    rewrite (sumZ_indexed _
               (fun t => cnt (tally before (cells p t) zero_counts) c) _ 0).
    + unfold worker_ids. by rewrite Hlen, Z2Nat.id by lia.
    + intros t w Hlook. destruct (Hw t w Hlook) as [-> _]. done.
Qed.

Lemma visited_in_grid p : Forall (in_grid (gridsize p)) (visited p).
Proof.
  apply Forall_forall. intros ij (t & Ht & Hin)%visited_spec.
  by apply (proj1 (Forall_forall _ _) (cells_in_grid p t Ht)).
Qed.

Lemma sumZ_balance n g l :
  binary n g -> Forall (in_grid n) l ->
  sumZ (next_state g) l =
  count_cells (alive g) l + count_cells (born g) l - count_cells (died g) l.
Proof.
  intros Hb. induction 1 as [| ij l Hij _ IH]; [done |].
  rewrite !count_cells_cons. simpl. rewrite IH.
  destruct ij as [i j]. pose proof (Hb i j Hij) as H01.
  rewrite (next_state_balance g (i, j)) by done.
  unfold alive, dead. simpl. destruct H01 as [-> | ->]; simpl; lia.
Qed.

(** The global live count when the reduction of generation [g] is
    complete. *)
Lemma reduction_live p s g :
  reachable p s -> 1 <= num_threads p -> reduction_done g s ->
  let before := sel (mem s) (1 - g `mod` 2) in
  let now := sel (mem s) (g `mod` 2) in
  c_live (shared s) = count_cells (alive now) (visited p) /\
  c_live (shared s) =
    count_cells (alive before) (visited p) + c_birth (shared s) - c_death (shared s).
Proof.
  intros Hr Hk Hall before now.
  destruct (reduction_view p s g Hr Hk Hall) as [Hcell Hsum].
  fold before now in Hcell, Hsum.
  destruct (reachable_binary p s Hr) as [B0 B1].
  assert (Hb : binary (gridsize p) before) by (by apply binary_sel).
  pose proof (visited_in_grid p) as Hv.
  assert (Hlive : c_live (shared s) = sumZ (next_state before) (visited p)).
  { change (c_live (shared s)) with (cnt (shared s) Live). rewrite Hsum.
    unfold visited. rewrite sumZ_bind. apply sumZ_ext, Forall_forall.
    intros t _. simpl. by rewrite tally_live. }
  assert (Hbirth : c_birth (shared s) = count_cells (born before) (visited p)).
  { change (c_birth (shared s)) with (cnt (shared s) Birth). rewrite Hsum.
    unfold visited. rewrite count_cells_bind. apply sumZ_ext, Forall_forall.
    intros t _. simpl. by rewrite tally_birth. }
  assert (Hdeath : c_death (shared s) = count_cells (died before) (visited p)).
  { change (c_death (shared s)) with (cnt (shared s) Death). rewrite Hsum.
    unfold visited. rewrite count_cells_bind. apply sumZ_ext, Forall_forall.
    intros t _. simpl. by rewrite tally_death. }
  split.
  - rewrite Hlive, count_cells_sum. apply sumZ_ext.
    apply Forall_forall. intros ij Hij.
    pose proof (proj1 (Forall_forall _ _) Hv ij Hij) as Hin.
    unfold alive, dead. rewrite (Hcell ij Hij).
    destruct (next_state_binary _ before ij Hb Hin) as [-> | ->]; done.
  - rewrite Hlive, Hbirth, Hdeath. by apply (sumZ_balance (gridsize p)).
Qed.

(** ** The seeding, cell by cell *)

Lemma seeding_cells p :
  seeding p =
  foldl (fun st ij => seed_cell (init_pct p) ij.1 ij.2 st)
        (zero_grid (gridsize p), srand48 0, 0) (interior (gridsize p)).
Proof.
  unfold seeding, interior, seed_row. rewrite foldl_bind.
  apply foldl_ext. intros st i. rewrite foldl_bind. by apply foldl_ext.
Qed.

Lemma iter_succ_r {A} (f : A -> A) n x : Nat.iter (S n) f x = f (Nat.iter n f x).
Proof. done. Qed.

(** Seeding a list of different cells: the generator advances once per
    cell, the [k]-th cell of the list is decided by the [k]-th number, the
    other cells are left alone, and the count goes up by the number of cells
    seeded live. *)
Lemma seed_cells_spec n pct l g x lc :
  shaped n g -> Forall (in_grid n) l -> NoDup l ->
  let st := foldl (fun st ij => seed_cell pct ij.1 ij.2 st) (g, x, lc) l in
  shaped n st.1.1 /\
  st.1.2 = Nat.iter (length l) drand48_next x /\
  (forall k ij, l !! k = Some ij ->
     get_cell st.1.1 ij.1 ij.2 =
     Z.b2z (below (Nat.iter (S k) drand48_next x) pct)) /\
  (forall i j, 0 <= i -> 0 <= j -> (i, j) ∉ l ->
     get_cell st.1.1 i j = get_cell g i j) /\
  st.2 = lc + count_cells (alive st.1.1) l.
Proof.
  intros Hs. induction l as [| ij l IH] using rev_ind; intros Hl Hnd st.
  - subst st. simpl. split_and!; try done. unfold count_cells. simpl. lia.
  - apply Forall_app in Hl as [Hl Hij]. apply Forall_inv in Hij.
    apply NoDup_app in Hnd as (Hnd & Hnot & _).
    assert (Hnin : ij ∉ l).
    { intros Hin. apply (Hnot ij Hin). by left. }
    destruct (IH Hl Hnd) as (S1 & X1 & C1 & O1 & L1). clear IH.
    subst st. rewrite foldl_snoc.
    destruct (foldl _ (g, x, lc) l) as [[g1 x1] lc1]. simpl in S1, X1, C1, O1, L1.
    rewrite length_app, Nat.add_1_r, iter_succ_r, <- X1.
    set (v := Z.b2z (below (drand48_next x1) pct)).
    assert (Est : seed_cell pct ij.1 ij.2 (g1, x1, lc1) =
                  (set_cell g1 ij.1 ij.2 v, drand48_next x1, lc1 + v)).
    { unfold seed_cell, v. destruct (below (drand48_next x1) pct); simpl;
        [done | by rewrite Z.add_0_r]. }
    rewrite Est. simpl.
    assert (Hsame : forall ij', ij' ∈ l ->
              get_cell (set_cell g1 ij.1 ij.2 v) ij'.1 ij'.2 =
              get_cell g1 ij'.1 ij'.2).
    { intros ij' Hin'.
      pose proof (proj1 (Forall_forall _ _) Hl ij' Hin') as [? ?].
      destruct Hij as [? ?].
      apply get_set_cell_ne; try lia. destruct ij, ij'. simpl.
      intros E. apply Hnin. by rewrite E. }
    split_and!.
    + by apply shaped_set_cell.
    + done.
    + intros k ij' Hk. apply lookup_app_Some in Hk as [Hk | [Hge Hk]].
      * rewrite Hsame by (by eapply list_elem_of_lookup_2). by apply C1.
      * apply list_lookup_singleton_Some in Hk as [Hk <-].
        assert (k = length l) as -> by lia. rewrite <- X1.
        destruct ij. by apply (get_set_cell_eq n).
    + intros i j Hi Hj Hout. apply not_elem_of_app in Hout as [Hout Hne].
      destruct Hij as [? ?].
      rewrite get_set_cell_ne; [by apply O1 | lia .. |].
      intros E. apply Hne. rewrite <- E. destruct ij. by left.
    + rewrite count_cells_app, count_cells_cons.
      rewrite (count_cells_ext _ (alive g1) l).
      2: { intros ij' Hin'. unfold alive, dead. by rewrite Hsame. }
      unfold alive at 2, dead. destruct ij as [i j].
      rewrite (get_set_cell_eq n) by done.
      unfold count_cells at 2. simpl.
      subst v. destruct (below _ _); simpl; lia.
Qed.

(** The interior list. *)
Lemma bind_singleton_fmap {A B} (f : A -> B) (l : list A) :
  (l ≫= fun x => [f x]) = f <$> l.
Proof. induction l as [| x l IH]; [done |]. by rewrite bind_cons, IH. Qed.

Lemma elem_of_interior n i j :
  (i, j) ∈ interior n <-> 1 <= i <= n /\ 1 <= j <= n.
Proof.
  unfold interior. rewrite list_elem_of_bind. split.
  - intros (i' & Hj & Hi). apply list_elem_of_bind in Hj as (j' & Hij & Hj).
    apply list_elem_of_singleton in Hij. injection Hij as -> ->.
    rewrite elem_of_seqZ in Hi, Hj. lia.
  - intros [Hi Hj]. exists i. split; [| rewrite elem_of_seqZ; lia].
    apply list_elem_of_bind. exists j. split; [by apply list_elem_of_singleton |].
    rewrite elem_of_seqZ. lia.
Qed.

Lemma interior_in_grid n : Forall (in_grid n) (interior n).
Proof.
  apply Forall_forall. intros [i j] Hin%elem_of_interior. split; simpl; lia.
Qed.

Lemma NoDup_interior n : NoDup (interior n).
Proof.
  unfold interior. apply NoDup_bind; [| | apply NoDup_seqZ].
  - intros i1 i2 [i j] _ _ H1 H2.
    apply list_elem_of_bind in H1 as (? & E1%list_elem_of_singleton & _).
    apply list_elem_of_bind in H2 as (? & E2%list_elem_of_singleton & _).
    congruence.
  - intros i _. apply NoDup_bind; [| | apply NoDup_seqZ].
    + intros j1 j2 [i' j] _ _ E1%list_elem_of_singleton E2%list_elem_of_singleton.
      congruence.
    + intros j _. apply NoDup_singleton.
Qed.

Lemma lookup_bind_rows {A B} (h : A -> list B) (l : list A) (m a b : nat) x :
  (forall y, length (h y) = m) -> l !! a = Some x -> (b < m)%nat ->
  (l ≫= h) !! (a * m + b)%nat = h x !! b.
Proof.
  intros Hm. revert a. induction l as [| y l IH]; intros a Ha Hb; [done |].
  rewrite bind_cons. destruct a as [| a]; simplify_eq/=.
  - apply lookup_app_l. by rewrite Hm.
  - rewrite lookup_app_r by (rewrite Hm; lia). rewrite Hm.
    replace (m + a * m + b - m)%nat with (a * m + b)%nat by lia. by apply IH.
Qed.

Lemma length_bind_rows {A B} (h : A -> list B) (l : list A) (m : nat) :
  (forall y, length (h y) = m) -> length (l ≫= h) = (length l * m)%nat.
Proof.
  intros Hm. induction l as [| y l IH]; [done |].
  rewrite bind_cons, length_app, Hm, IH. simpl. lia.
Qed.

Lemma length_interior n : length (interior n) = (Z.to_nat n * Z.to_nat n)%nat.
Proof.
  unfold interior. rewrite (length_bind_rows _ _ (Z.to_nat n)).
  - by rewrite length_seqZ.
  - intros i. by rewrite bind_singleton_fmap, length_fmap, length_seqZ.
Qed.

(** Cell [(i, j)] is the [((i-1) * n + j)]-th cell the loops come to. *)
Lemma lookup_interior n i j :
  1 <= i <= n -> 1 <= j <= n ->
  interior n !! Z.to_nat ((i - 1) * n + (j - 1)) = Some (i, j).
Proof.
  intros Hi Hj. unfold interior.
  replace (Z.to_nat ((i - 1) * n + (j - 1)))
    with (Z.to_nat (i - 1) * Z.to_nat n + Z.to_nat (j - 1))%nat by nia.
  rewrite (lookup_bind_rows _ _ (Z.to_nat n) _ _ i).
  - rewrite bind_singleton_fmap, list_lookup_fmap.
    rewrite (proj2 (lookup_seqZ _ _ _ j)); [done |]. lia.
  - intros y. by rewrite bind_singleton_fmap, length_fmap, length_seqZ.
  - apply lookup_seqZ. lia.
  - lia.
Qed.

(** The seeding in closed form. *)
Lemma seeding_spec p :
  let n := gridsize p in
  shaped n (seeding p).1.1 /\
  (seeding p).1.2 = draw (Z.to_nat n * Z.to_nat n) /\
  (forall i j, 1 <= i <= n -> 1 <= j <= n ->
     get_cell (seeding p).1.1 i j =
     Z.b2z (below (draw (Z.to_nat ((i - 1) * n + j))) (init_pct p))) /\
  (seeding p).2 = count_cells (alive (seeding p).1.1) (interior n).
Proof.
  intros n. rewrite seeding_cells.
  destruct (seed_cells_spec n (init_pct p) (interior n) (zero_grid n) (srand48 0) 0)
    as (S1 & X1 & C1 & _ & L1);
    [apply shaped_zero_grid | apply interior_in_grid | apply NoDup_interior |].
  fold n. split_and!; try done.
  - by rewrite X1, length_interior.
  - intros i j Hi Hj.
    etrans; [exact (C1 _ (i, j) (lookup_interior n i j Hi Hj)) |]. unfold draw.
    do 3 f_equal. nia.
Qed.

(** ** Seeding probabilities of 1 and more, and of 0 and less *)

Lemma drand48_next_range x : 0 <= drand48_next x < 2 ^ 48.
Proof. unfold drand48_next. apply Z.mod_pos_bound. lia. Qed.

Lemma draw_range k : 0 <= draw (S k) < 2 ^ 48.
Proof. unfold draw. rewrite iter_succ_r. apply drand48_next_range. Qed.

Lemma below_all x pct : 0 <= x < 2 ^ 48 -> seeds_all pct = true -> below x pct = true.
Proof.
  intros Hx. destruct pct as [[num den] | | |]; simpl; try done.
  intros H%Z.leb_le. apply Z.ltb_lt. nia.
Qed.

Lemma below_none x pct : 0 <= x < 2 ^ 48 -> seeds_none pct = true -> below x pct = false.
Proof.
  intros Hx. destruct pct as [[num den] | | |]; simpl; try done.
  intros H%Z.leb_le. apply Z.ltb_ge. nia.
Qed.

Lemma count_cells_all f l :
  (forall ij, ij ∈ l -> f ij = true) -> count_cells f l = Z.of_nat (length l).
Proof.
  intros H. induction l as [| ij l IH]; [done |].
  rewrite count_cells_cons, IH, (H ij); [| by left | intros; apply H; by right].
  simpl length. simpl. lia.
Qed.

Lemma count_cells_none f l :
  (forall ij, ij ∈ l -> f ij = false) -> count_cells f l = 0.
Proof.
  intros H. induction l as [| ij l IH]; [done |].
  rewrite count_cells_cons, IH, (H ij); [done | by left | intros; apply H; by right].
Qed.

Lemma seeding_none p :
  seeds_none (init_pct p) = true ->
  (seeding p).1.1 = zero_grid (gridsize p) /\ (seeding p).2 = 0.
Proof.
  intros Hnone. destruct (seeding_spec p) as (Hs & _ & C & L).
  assert (Hc : forall i j, in_grid (gridsize p) (i, j) ->
            get_cell (seeding p).1.1 i j = 0).
  { intros i j Hij.
    destruct (decide (1 <= i <= gridsize p /\ 1 <= j <= gridsize p)) as [[Hi Hj] | Hh].
    - rewrite C by done.
      replace (Z.to_nat ((i - 1) * gridsize p + j))
        with (S (Z.to_nat ((i - 1) * gridsize p + j - 1))) by nia.
      by rewrite below_none by (apply draw_range || done).
    - apply (halo_seeding p (i, j)). split; [done |].
      destruct Hij as [? ?]. simpl in *. lia. }
  split.
  - apply (grid_ext (gridsize p)); [done | apply shaped_zero_grid |].
    intros i j Hij. by rewrite Hc, get_zero_grid.
  - rewrite L. apply count_cells_none.
    intros [i j] [Hi Hj]%elem_of_interior. unfold alive, dead. simpl.
    rewrite Hc; [done |]. split; simpl; lia.
Qed.

(** ** Runs in which nothing lives *)

Lemma neigh_count_zero n i j :
  1 <= i <= n -> 1 <= j <= n -> neigh_count (zero_grid n) i j = 0.
Proof.
  intros Hi Hj. unfold neigh_count.
  rewrite !get_zero_grid by (split; simpl; lia). done.
Qed.

Lemma next_state_zero n i j :
  1 <= i <= n -> 1 <= j <= n -> next_state (zero_grid n) (i, j) = 0.
Proof.
  intros Hi Hj. unfold next_state. simpl.
  rewrite (neigh_count_zero n), get_zero_grid by (done || split; simpl; lia). done.
Qed.

Lemma paint_zero n l :
  Forall (fun ij => 1 <= ij.1 <= n /\ 1 <= ij.2 <= n) l ->
  paint (next_state (zero_grid n)) l (zero_grid n) = zero_grid n.
Proof.
  intros Hl.
  assert (Hg : Forall (in_grid n) l).
  { eapply Forall_impl; [exact Hl |]. intros [i j] [? ?]. split; simpl in *; lia. }
  apply (grid_ext n); [apply shaped_paint, shaped_zero_grid | apply shaped_zero_grid |].
  intros i j Hij. rewrite (get_paint n) by (done || apply shaped_zero_grid).
  case_decide as Hin; [| done].
  pose proof (proj1 (Forall_forall _ _) Hl _ Hin) as [? ?].
  by rewrite (next_state_zero n), get_zero_grid.
Qed.

Lemma tally_zero n l :
  Forall (fun ij => 1 <= ij.1 <= n /\ 1 <= ij.2 <= n) l ->
  tally (zero_grid n) l zero_counts = zero_counts.
Proof.
  induction l as [| ij l IH] using rev_ind; intros Hl; [done |].
  apply Forall_app in Hl as [Hl Hij]. apply Forall_inv in Hij.
  rewrite tally_snoc, IH by done. destruct ij as [i j], Hij as [? ?].
  rewrite (next_state_zero n) by done. unfold died, born. simpl in *.
  rewrite (neigh_count_zero n), get_zero_grid by (done || split; simpl; lia).
  done.
Qed.

(** The cell loops on two dead buffers leave them dead and count
    nothing. *)
Lemma sweep_zero p t curr prev :
  is_worker p t -> buffers_ok curr prev ->
  sweep p t curr prev (zero_grids (gridsize p), zero_counts) =
  (zero_grids (gridsize p), zero_counts).
Proof.
  intros Ht Hb.
  assert (Hc : Forall (fun ij => 1 <= ij.1 <= gridsize p /\ 1 <= ij.2 <= gridsize p)
                      (cells p t)).
  { apply Forall_forall. intros [i j] Hin. by apply (cells_interior p t). }
  rewrite sweep_spec; [| done | done | split; apply shaped_zero_grid].
  assert (Hs : forall b, sel (zero_grids (gridsize p)) b = zero_grid (gridsize p)).
  { intros b. unfold sel, zero_grids. by destruct (b =? 0). }
  rewrite !Hs, paint_zero, tally_zero by done.
  f_equal. unfold put, zero_grids. by destruct (curr =? 0).
Qed.

Lemma still_none p : seeds_none (init_pct p) = true -> still p.
Proof.
  intros Hn t curr prev Ht Hb. destruct (seeding_none p Hn) as [Hg _].
  rewrite mem_init_state, Hg. by apply sweep_zero.
Qed.

(** With more workers than rows no worker has a cell. *)
Lemma cells_none p t : gridsize p < num_threads p -> cells p t = [].
Proof.
  intros Hlt. unfold cells.
  destruct (decide (gridsize p <= 0)) as [Hn | Hn].
  - rewrite (seqZ_nil 1) by done.
    induction (seqZ _ _) as [| i l IH]; [done | by rewrite bind_cons, IH].
  - replace (end_row p t - start_row p t + 1) with (gridsize p ÷ num_threads p)
      by (unfold end_row; lia).
    rewrite Z.quot_small by lia. done.
Qed.

Lemma still_crowded p : gridsize p < num_threads p -> still p.
Proof.
  intros Hlt t curr prev _ _. by rewrite sweep_cells, cells_none.
Qed.

Lemma quiet_init p : quiet p (init_state p).
Proof.
  unfold quiet. split; [done |].
  rewrite workers_init_state.
  unfold init_state. destruct (seeding p) as [[g x] lc]. simpl.
  split_and!; try done.
  - right. by apply Forall_replicate.
  - by apply Forall_replicate.
  - by repeat constructor.
Qed.

Lemma quiet_print0 s t l :
  Forall quiet_line (stdout s) -> quiet_line l ->
  Forall quiet_line (stdout (print0 s t l)).
Proof.
  intros Ho Hl. destruct t; [| done]. unfold print0. simpl.
  apply Forall_app. split; [done | by constructor].
Qed.

Lemma quiet_step p t s s' :
  still p -> well_formed p s -> quiet p s -> thread_compute p t s = Some s' ->
  quiet p s'.
Proof.
  intros Hst Hwf (Hm & Hd & Hb & Hlv & Hw & Ho) Hstep.
  assert (Hbuf := proj2 (proj2 Hwf)).
  assert (Hlive : forall w, workers s !! t = Some w -> before_reset w = false ->
            c_live (shared s) = 0).
  { intros w Hw0 Hbr. destruct Hlv as [? | Hall]; [done |].
    pose proof (Forall_lookup_1 _ _ _ _ Hall Hw0) as Hbr'. simpl in Hbr'.
    congruence. }
  step_inv Hstep w Hw0;
    pose proof (Forall_lookup_1 _ _ _ _ Hw Hw0) as [Hl Ht];
    pose proof (Forall_lookup_1 _ _ _ _ Hbuf Hw0) as Hbf;
    pose proof (worker_is_worker p s t w Hwf Hw0) as Hwk;
    specialize (Hlive w eq_refl); unfold before_reset in Hlive;
    rewrite Hpc in Hlive;
    unfold quiet; simpl; autorewrite with state.
  all: try match goal with
        | H : sweep _ _ _ _ _ = _ |- _ =>
            rewrite Hm, Hl, Hst in H by done; injection H as <- <-
        end.
  all: split; [| split; [| split; [| split; [| split]]]].
  all: try done.
  all: try (apply quiet_print0; [done |]; simpl; try done; split_and!; try done;
            by apply Hlive).
  all: try (apply Forall_insert; [done |]; simpl; split; [done |];
            intros c0 Hc0; cases_cb; simplify_eq/=; try done; by apply Hlive).
  all: try (first
         [ left; cases_cb; simpl in *; (done || by apply Hlive)
         | destruct Hlv as [? | Hall]; [by left | right; by apply Forall_insert] ]).
  all: try (cases_cb; simpl in *; try done; rewrite ?Ht, ?Hl by done; done).
  all: rewrite (Ht c Hpc), Hl; try left; destruct c; simpl; try done;
    by apply Hlive.
Qed.

(** In every state of such a run the grids are as [main] left them and
    every line of counters printed so far reads 0, 0, 0. *)
Lemma reachable_quiet p s : still p -> reachable p s -> quiet p s.
Proof.
  intros Hst. revert s. apply reachable_ind; [by apply quiet_init |].
  intros t s s' Hr. apply quiet_step; [done |]. by apply reachable_well_formed.
Qed.

(** ** The statistics of a generation *)

(** When the reduction of generation [g] is complete, the two buffers are
    generations [g - 1] and [g] of the run by turns. *)
Lemma reduction_grids p s g :
  reachable p s -> 1 <= num_threads p -> reduction_done g s ->
  1 <= g /\
  sel (mem s) (1 - g `mod` 2) = generation_grid p (g - 1) /\
  sel (mem s) (g `mod` 2) = generation_grid p g.
Proof.
  intros Hr Hk Hall.
  pose proof (all_in_second_barrier_open p s g Hr Hk Hall) as He.
  destruct (reachable_well_formed p s Hr) as (_ & Hlen & _).
  assert (Hg : 1 <= g).
  { destruct (lookup_lt_is_Some_2 (workers s) O) as [w Hlook]; [lia |].
    pose proof (Forall_lookup_1 _ _ _ _ Hall Hlook) as [_ Hi].
    pose proof (Forall_lookup_1 _ _ _ _ (reachable_iter p s Hr) Hlook) as (H1 & _).
    lia. }
  split; [done |]. unfold generation_grid. split.
  - destruct (reachable_ref p s Hr (Z.to_nat (g - 1))) as [E _].
    + eapply Forall_impl; [exact Hall |]. simpl. intros w [_ Hi]. left. lia.
    + eapply Forall_impl; [exact Hall |]. simpl. intros w [_ Hi].
      unfold has_swept. lia.
    + rewrite Z2Nat.id in E by lia.
      replace (1 - g `mod` 2) with ((g - 1) `mod` 2)
        by (Z.div_mod_to_equations; lia).
      done.
  - destruct (reachable_ref p s Hr (Z.to_nat g)) as [E _].
    + eapply Forall_impl; [exact Hall |]. simpl. intros w [[tk Hpc] Hi].
      right. rewrite Z2Nat.id by lia. split; [done |].
      unfold post_sweep. by rewrite Hpc.
    + eapply Forall_impl; [exact Hall |]. simpl. intros w [_ Hi].
      unfold has_swept. lia.
    + by rewrite Z2Nat.id in E by lia.
Qed.

(** Then the global counters are the statistics of generation [g]. *)
Lemma reduction_stats p s g c :
  reachable p s -> 1 <= num_threads p -> reduction_done g s ->
  cnt (shared s) c = cnt (stats p g) c.
Proof.
  intros Hr Hk Hall.
  destruct (reduction_grids p s g Hr Hk Hall) as (Hg & Eb & En).
  destruct (reduction_view p s g Hr Hk Hall) as [Hcell Hsum].
  destruct (reduction_live p s g Hr Hk Hall) as [Hlive _].
  rewrite Eb, En in *. unfold stats.
  set (before := generation_grid p (g - 1)) in *.
  set (now := generation_grid p g) in *.
  destruct c; simpl.
  - done.
  - change (c_death (shared s)) with (cnt (shared s) Death). rewrite Hsum.
    unfold visited. rewrite count_cells_bind.
    apply sumZ_ext, Forall_forall. intros t Ht. simpl. rewrite tally_death. simpl.
    apply count_cells_ext.
    intros ij Hij. rewrite died_iff. unfold alive. unfold dead at 3.
    rewrite Hcell; [done |]. apply list_elem_of_bind. by exists t.
  - change (c_birth (shared s)) with (cnt (shared s) Birth). rewrite Hsum.
    unfold visited. rewrite count_cells_bind.
    apply sumZ_ext, Forall_forall. intros t Ht. simpl. rewrite tally_birth. simpl.
    apply count_cells_ext.
    intros ij Hij. rewrite born_iff. unfold alive. unfold dead at 3.
    rewrite Hcell; [done |]. apply list_elem_of_bind. by exists t.
Qed.

(** ** The counters between the reduction and the next reset *)

Lemma counters_kept_init p c : counters_kept p c (init_state p).
Proof.
  intros g He Hg _.
  assert (E : epoch (init_state p) = O).
  { unfold init_state. by destruct (seeding p) as [[? ?] ?]. }
  rewrite E in He. simpl in He. lia.
Qed.

Lemma counters_kept_step p c t s s' :
  reachable p s -> counters_kept p c s -> thread_compute p t s = Some s' ->
  counters_kept p c s'.
Proof.
  intros Hr IH Hstep g He Hg Hnone.
  pose proof (reachable_step p t s s' Hr Hstep) as Hr'.
  pose proof (reachable_well_formed p s Hr) as Hwf.
  assert (Hsy := reachable_sync p s Hr). assert (Hall := proj1 Hsy).
  assert (Hk : forall w, workers s !! t = Some w -> 1 <= num_threads p).
  { intros w Hw%lookup_lt_Some. destruct Hwf as (_ & Hlen & _). lia. }
  assert (Hquiet : forall w, workers s !! t = Some w -> forall w',
            epoch s' = epoch s ->
            workers s' = <[t := w']> (workers s) ->
            (reset_done c w' = false -> reset_done c w = false) ->
            cnt (shared s') c = cnt (shared s) c ->
            cnt (shared s') c = cnt (stats p g) c).
  { intros w Hw w' Ee Hws Hrd ->. rewrite Ee in He. rewrite Hws in Hnone.
    apply IH; [done | done |].
    by apply (Forall_insert_iff _ _ _ _ _ _ Hw Hrd (fun _ H => H) Hnone). }
  assert (Hself : forall w, workers s !! t = Some w -> forall w',
            workers s' = <[t := w']> (workers s) -> reset_done c w' = false).
  { intros w Hw w' Hws. rewrite Hws in Hnone.
    apply (Forall_lookup_1 _ _ t _ Hnone).
    apply list_lookup_insert_eq. by eapply lookup_lt_Some. }
  step_inv Hstep w Hw; sync_of Hall Hw Hpc; specialize (Hk w eq_refl);
    specialize (Hquiet w eq_refl); specialize (Hself w eq_refl);
    simpl in Hquiet, Hself; autorewrite with state in Hquiet, Hself;
    specialize (Hself _ eq_refl); unfold reset_done in Hself, Hquiet;
    simpl in Hself, Hquiet; rewrite ?Hpc in Hquiet;
    simpl; autorewrite with state.
  all: try (simpl in He; autorewrite with state in He; lia).
  all: try (by eapply Hquiet).
  - (* Reset c0 *)
    destruct (counter_eq_dec c0 c) as [-> | Hne]; [by destruct c |].
    eapply Hquiet; [done | done | by destruct c, c0 |].
    simpl. by rewrite cnt_cset_other.
  - (* Arrive b *)
    destruct b; [done |]. simpl in He. autorewrite with state in He.
    destruct (Z.eqb_spec (arrived s + 1) (num_threads p)) as [Hlast | Hnot];
      [rewrite epoch_arrive_last in He by done
      | rewrite epoch_arrive_wait in He by done; lia].
    rewrite <- (shared_arrive p s).
    change (shared (arrive p s)) with
      (shared (with_worker (arrive p s) t (goto w (Wait B2 (epoch s))))).
    apply (reduction_stats p _ g c Hr' Hk).
    unfold reduction_done. simpl. autorewrite with state.
    apply Forall_lookup. intros t0 w0 Hw0.
    apply list_lookup_insert_Some in Hw0 as [(<- & <- & _) | (Hne & Hw0)].
    + simpl. split; [by eexists | lia].
    + destruct (last_arrival_blocked p s t w B2 t0 w0) as (b0 & Hpc0 & Ha0);
        try done.
      unfold arrivals in Ha0. rewrite Hpc0 in Ha0.
      destruct b0; [lia |]. split; [by eexists | lia].
  - (* Wait b *)
    destruct b; [simpl in He; lia | by eapply Hquiet].
Qed.

Lemma reachable_counters_kept p c s : reachable p s -> counters_kept p c s.
Proof.
  revert s. apply reachable_ind; [apply counters_kept_init |].
  intros t s s'. apply counters_kept_step.
Qed.

(** ** What a run prints *)

Lemma stdout_print0 s t l :
  stdout (print0 s t l) = match t with O => stdout s ++ [l] | S _ => stdout s end.
Proof. by destruct t. Qed.

(** A step, as the output sees it: a step of another worker than worker 0
    prints nothing; worker 0 prints the line of its generation at the loop
    head and the global counters at the end of the loop body. *)
Lemma step_output p t s s' :
  thread_compute p t s = Some s' ->
  (t <> 0%nat /\ stdout s' = stdout s /\ workers s' !! 0%nat = workers s !! 0%nat) \/
  (t = 0%nat /\ exists w w',
     workers s !! 0%nat = Some w /\ workers s' !! 0%nat = Some w' /\
     ((pc w = LoopHead /\ in_generation w' = true /\ iter w' = iter w /\
       stdout s' = stdout s ++ [IterationLine (iter w)]) \/
      (pc w = Report /\ pc w' = LoopHead /\ iter w' = iter w + 1 /\
       stdout s' = stdout s ++ [CountersLine (c_live (shared s))
                                             (c_death (shared s))
                                             (c_birth (shared s))]) \/
      (stdout s' = stdout s /\ iter w' = iter w /\
       in_generation w' = in_generation w))).
Proof.
  intros Hstep. destruct t as [| t]; [right | left].
  - split; [done |].
    step_inv Hstep w Hw; exists w; eexists; simpl; autorewrite with state;
      (split; [reflexivity |]);
      (split; [apply list_lookup_insert_eq; by eapply lookup_lt_Some |]);
      rewrite ?stdout_print0; unfold in_generation; simpl; rewrite ?Hpc.
    all: try (right; right; cases_cb; done).
    + left. done.
    + right. left. done.
  - split; [done |].
    step_inv Hstep w Hw; simpl; autorewrite with state;
      rewrite ?stdout_print0; (split; [done |]);
      by rewrite list_lookup_insert_ne.
Qed.

Lemma seqZ_snoc n : 1 <= n -> seqZ 1 n = seqZ 1 (n - 1) ++ [n].
Proof.
  intros Hn. replace n with ((n - 1) + 1) at 1 by lia.
  rewrite seqZ_app by lia. f_equal. replace (1 + (n - 1)) with n by lia. done.
Qed.

Lemma script_snoc g :
  1 <= g -> script g = script (g - 1) ++ [IterationItem g; CountersItem g].
Proof.
  intros Hg. unfold script. rewrite (seqZ_snoc g) by done.
  by rewrite bind_app, bind_singleton.
Qed.

(** When worker 0 is about to print the counters of a settled generation,
    no worker has zeroed a counter for the next one. *)
Lemma settled_unreset p s w c :
  reachable p s -> workers s !! 0%nat = Some w -> pc w = Report ->
  settled p (iter w) ->
  Forall (fun w => reset_done c w = false) (workers s).
Proof.
  intros Hr Hw Hpc Hset.
  destruct (reachable_well_formed p s Hr) as (_ & Hlen & _).
  destruct (reachable_sync p s Hr) as (Hall & _ & _).
  pose proof (reachable_iter p s Hr) as Hit.
  sync_of Hall Hw Hpc.
  apply Forall_lookup. intros t0 w0 Hw0.
  destruct Hset as [Hone | Hlast].
  - assert (t0 = 0%nat) as -> by (apply lookup_lt_Some in Hw0; lia).
    assert (w0 = w) as -> by congruence.
    unfold reset_done. by rewrite Hpc.
  - pose proof (Forall_lookup_1 _ _ _ _ Hall Hw0) as Hs0.
    pose proof (Forall_lookup_1 _ _ _ _ Hit Hw0) as (_ & _ & _ & H4).
    unfold in_sync, arrivals in Hs0. unfold reset_done.
    destruct (pc w0) eqn:E0; try done; cases_cb; try done;
      (assert (iter w0 <= num_iters p) by (by apply H4)); lia.
Qed.

Lemma output_inv_init p : output_inv p (init_state p).
Proof.
  intros w Hw. rewrite workers_init_state in Hw.
  apply lookup_replicate in Hw as [-> _].
  exists []. split; [| by constructor].
  unfold init_state. by destruct (seeding p) as [[? ?] ?].
Qed.

Lemma output_inv_step p t s s' :
  reachable p s -> output_inv p s -> thread_compute p t s = Some s' ->
  output_inv p s'.
Proof.
  intros Hr IH Hstep w' Hw'.
  destruct (step_output p t s s' Hstep)
    as [(_ & Ho & Hsame) | (_ & w & w0 & Hw & Hw0 & Hcase)].
  - rewrite Ho. apply IH. by rewrite <- Hsame.
  - assert (w0 = w') as -> by congruence. clear Hw0.
    destruct (IH w Hw) as (body & Eout & Hbody).
    pose proof (Forall_lookup_1 _ _ _ _ (reachable_iter p s Hr) Hw) as (Hi1 & _).
    destruct Hcase as [(Hpc & Hin & Hi & Ho) | [(Hpc & Hpc' & Hi & Ho) | (Ho & Hi & Hin)]].
    + exists (body ++ [IterationLine (iter w)]). rewrite Ho, Eout. split; [done |].
      unfold in_generation in Hbody. rewrite Hpc, app_nil_r in Hbody.
      rewrite Hin, Hi. apply Forall2_app; [done |]. by repeat constructor.
    + exists (body ++ [CountersLine (c_live (shared s)) (c_death (shared s))
                                    (c_birth (shared s))]).
      rewrite Ho, Eout. split; [done |].
      unfold in_generation in *. rewrite Hpc in Hbody. rewrite Hpc', Hi, app_nil_r.
      replace (iter w + 1 - 1) with (iter w) by lia.
      rewrite script_snoc by done.
      replace [IterationItem (iter w); CountersItem (iter w)]
        with ([IterationItem (iter w)] ++ [CountersItem (iter w)]) by done.
      rewrite app_assoc. apply Forall2_app; [done |].
      constructor; [| constructor]. simpl.
      eexists _, _, _. split; [done |]. intros Hset.
      destruct (reachable_sync p s Hr) as (Hall & _ & _).
      sync_of Hall Hw Hpc.
      assert (Hc : forall c, cnt (shared s) c = cnt (stats p (iter w)) c).
      { intros c. apply (reachable_counters_kept p c s Hr); [lia | done |].
        by apply (settled_unreset p s w). }
      pose proof (Hc Live) as HL. pose proof (Hc Death) as HD.
      pose proof (Hc Birth) as HB. cbn [cnt] in HL, HD, HB.
      rewrite HL, HD, HB. by destruct (stats p (iter w)).
    + exists body. rewrite Ho, Hi, Hin. done.
Qed.

Lemma reachable_output p s : reachable p s -> output_inv p s.
Proof.
  revert s. apply reachable_ind; [apply output_inv_init |].
  intros t s s'. apply output_inv_step.
Qed.

(** The output of a complete run. *)
Lemma finished_output p s :
  reachable p s -> finished s -> 1 <= num_threads p ->
  exists body,
    stdout s = InitialLine (seeding p).2 (int_mul (gridsize p) (gridsize p)) :: body /\
    Forall2 (prints p) (script (num_iters p)) body.
Proof.
  intros Hr Hfin Hk.
  destruct (reachable_well_formed p s Hr) as (_ & Hlen & _).
  destruct (lookup_lt_is_Some_2 (workers s) O) as [w Hw]; [lia |].
  destruct (reachable_output p s Hr w Hw) as (body & Eout & Hbody).
  pose proof (Forall_lookup_1 _ _ _ _ Hfin Hw) as Hpc. simpl in Hpc.
  pose proof (Forall_lookup_1 _ _ _ _ (reachable_iter p s Hr) Hw)
    as (H1 & H2 & H3 & _).
  specialize (H3 Hpc).
  exists body. split; [done |].
  unfold in_generation in Hbody. rewrite Hpc, app_nil_r in Hbody.
  destruct (decide (1 <= num_iters p)) as [Hn | Hn].
  - by replace (iter w - 1) with (num_iters p) in Hbody by lia.
  - unfold script in *. rewrite (seqZ_nil 1) in Hbody by lia.
    by rewrite (seqZ_nil 1) by lia.
Qed.

(** Lines that follow a script. *)
Lemma prints_lookup p l body :
  Forall2 (prints p) (g ← l; [IterationItem g; CountersItem g]) body ->
  length body = (2 * length l)%nat /\
  forall k g, l !! k = Some g ->
    body !! (2 * k)%nat = Some (IterationLine g) /\
    exists living died born,
      body !! (2 * k + 1)%nat = Some (CountersLine living died born) /\
      (settled p g -> Counts living died born = stats p g).
Proof.
  revert body. induction l as [| g l IH]; intros body H.
  - apply Forall2_nil_inv_l in H as ->. split; [done |]. intros k g Hk. done.
  - rewrite bind_cons in H. simpl in H.
    apply Forall2_cons_inv_l in H as (l1 & body1 & H1 & H & ->).
    apply Forall2_cons_inv_l in H as (l2 & body2 & H2 & H & ->).
    destruct (IH body2 H) as [Hlen Hk]. simpl in H1, H2.
    destruct H2 as (a & b & c & -> & Hst). subst l1. split.
    + simpl. lia.
    + intros [| k] g' Hg'; simplify_eq/=.
      * split; [done |]. by exists a, b, c.
      * replace (k + S (k + 0))%nat with (S (2 * k)) by lia. simpl.
        replace (k + S (k + 0) + 1)%nat with (S (2 * k + 1)) by lia. simpl.
        by apply Hk.
Qed.

Lemma prints_settled p l body :
  Forall (settled p) l ->
  Forall2 (prints p) (g ← l; [IterationItem g; CountersItem g]) body ->
  body = (g ← l;
          [IterationLine g;
           CountersLine (c_live (stats p g)) (c_death (stats p g))
                        (c_birth (stats p g))]).
Proof.
  revert body. induction l as [| g l IH]; intros body Hset H.
  - by apply Forall2_nil_inv_l in H as ->.
  - rewrite bind_cons in H. simpl in H.
    apply Forall_cons in Hset as [Hg Hset].
    apply Forall2_cons_inv_l in H as (l1 & body1 & H1 & H & ->).
    apply Forall2_cons_inv_l in H as (l2 & body2 & H2 & H & ->).
    rewrite bind_cons, (IH body2 Hset H). simpl in H1, H2.
    destruct H2 as (a & b & c & -> & Hst). subst l1.
    rewrite <- (Hst Hg). done.
Qed.

(** ** The size of the counters *)

Lemma count_cells_bound f l : 0 <= count_cells f l <= Z.of_nat (length l).
Proof.
  unfold count_cells. split; [lia |]. apply inj_le, length_filter.
Qed.

Lemma sumZ_binary_bound {A} (f : A -> Z) l :
  Forall (fun x => f x = 0 \/ f x = 1) l -> 0 <= sumZ f l <= Z.of_nat (length l).
Proof. induction 1 as [| x l E _ IH]; simpl; [lia |]. lia. Qed.

(** What a worker counts in one generation is at most the number of its
    cells. *)
Lemma tally_bound n g l c :
  binary n g -> Forall (in_grid n) l ->
  0 <= cnt (tally g l zero_counts) c <= Z.of_nat (length l).
Proof.
  intros Hb Hl. destruct c; simpl.
  - rewrite tally_live. simpl. apply sumZ_binary_bound.
    apply Forall_forall. intros ij Hij. apply (next_state_binary n); [done |].
    by apply (proj1 (Forall_forall _ _) Hl).
  - rewrite tally_death. simpl. apply count_cells_bound.
  - rewrite tally_birth. simpl. apply count_cells_bound.
Qed.

Lemma length_cells p t :
  length (cells p t) =
  (Z.to_nat (gridsize p ÷ num_threads p) * Z.to_nat (gridsize p))%nat.
Proof.
  unfold cells. rewrite (length_bind_rows _ _ (Z.to_nat (gridsize p))).
  - rewrite length_seqZ. unfold end_row. f_equal. f_equal. lia.
  - intros i. by rewrite bind_singleton_fmap, length_fmap, length_seqZ.
Qed.

(** All workers together have at most as many cells as the interior. *)
Lemma cells_capacity p :
  Z.max 0 (num_threads p) * Z.of_nat (length (cells p 0)) <= capacity p.
Proof.
  rewrite length_cells. unfold capacity.
  destruct (decide (1 <= num_threads p /\ 0 <= gridsize p)) as [[Hk Hn] | Hno].
  - rewrite Nat2Z.inj_mul, !Z2Nat.id; [| lia | by apply Z.quot_pos; lia].
    rewrite Z.quot_div_nonneg by lia.
    pose proof (Z.div_mod (gridsize p) (num_threads p)) as E.
    pose proof (Z.mod_pos_bound (gridsize p) (num_threads p)) as B.
    assert (0 <= gridsize p `div` num_threads p) by (apply Z.div_pos; lia).
    nia.
  - destruct (decide (1 <= num_threads p)); nia.
Qed.

(** The local counters of every worker. *)
Lemma reachable_local_bound p s t w c :
  reachable p s -> workers s !! t = Some w ->
  0 <= cnt (local w) c <= Z.of_nat (length (cells p 0)).
Proof.
  intros Hr. revert t w. revert s Hr. apply (reachable_ind p (fun s =>
    forall t w, workers s !! t = Some w ->
      0 <= cnt (local w) c <= Z.of_nat (length (cells p 0)))).
  - intros t w Hw. rewrite workers_init_state in Hw.
    apply lookup_replicate in Hw as [-> _]. destruct c; simpl; lia.
  - intros t s s' Hr IH Hstep t0 w0 Hw0.
    pose proof (reachable_well_formed p s Hr) as Hwf.
    destruct (reachable_binary p s Hr) as [B0 B1].
    pose proof (reachable_local p s Hr) as Hloc.
    assert (Hbuf := proj2 (proj2 Hwf)).
    step_inv Hstep w Hw; simpl in Hw0; autorewrite with state in Hw0;
      apply list_lookup_insert_Some in Hw0 as [(<- & <- & _) | (Hne & Hw0)];
      try (by apply (IH t0 w0)); try (by apply (IH t w)); simpl.
    + destruct c; simpl; lia.
    + pose proof (Forall_lookup_1 _ _ _ _ Hloc Hw) as (_ & _ & Hz).
      pose proof (Forall_lookup_1 _ _ _ _ Hbuf Hw) as Hb.
      pose proof (worker_is_worker p s t w Hwf Hw) as Ht.
      rewrite (Hz Hpc), sweep_spec in H by (done || apply Hwf).
      injection H as _ <-.
      rewrite (length_cells p 0), <- (length_cells p (tid t)).
      apply (tally_bound (gridsize p)); [by apply binary_sel | by apply cells_in_grid].
Qed.

Lemma contribution_bound p s c :
  reachable p s -> 0 <= sumZ (contribution c) (workers s) <= capacity p.
Proof.
  intros Hr.
  destruct (reachable_well_formed p s Hr) as (_ & Hlen & _).
  assert (Hb : Forall (fun w => 0 <= contribution c w <=
                                Z.of_nat (length (cells p 0))) (workers s)).
  { apply Forall_lookup. intros t w Hw.
    pose proof (reachable_local_bound p s t w c Hr Hw).
    unfold contribution. destruct (contributed c w); lia. }
  split.
  - clear -Hb. induction Hb as [| w l E _ IH]; simpl; lia.
  - etrans; [| apply cells_capacity].
    etrans; [apply (sumZ_le_const _ _ (Z.of_nat (length (cells p 0)))) |].
    + eapply Forall_impl; [exact Hb |]. simpl. lia.
    + rewrite Hlen. lia.
Qed.

Lemma seeding_count_bound p : 0 <= (seeding p).2 <= capacity p.
Proof.
  destruct (seeding_spec p) as (_ & _ & _ & ->).
  pose proof (count_cells_bound (alive (seeding p).1.1) (interior (gridsize p))) as H.
  rewrite length_interior in H. unfold capacity. lia.
Qed.

(** The global counters. *)
Lemma reachable_shared_bound p s c :
  reachable p s -> 0 <= cnt (shared s) c <= capacity p.
Proof.
  revert s. apply reachable_ind.
  - pose proof (seeding_count_bound p) as Hs.
    assert (Hcap : 0 <= capacity p) by (unfold capacity; lia).
    unfold init_state. destruct (seeding p) as [[g x] lc]. simpl in *.
    destruct c; simpl; lia.
  - intros t s s' Hr IH Hstep.
    pose proof (reachable_step p t s s' Hr Hstep) as Hr'.
    pose proof (contribution_bound p s' c Hr') as Hcb.
    destruct (reachable_counter p c s' Hr') as (HA & _).
    destruct (reachable_sync p s Hr) as (Hall & _ & _).
    assert (Hcap : 0 <= capacity p) by (unfold capacity; lia).
    step_inv Hstep w Hw; sync_of Hall Hw Hpc;
      simpl in *; autorewrite with state in *; try done.
    + destruct (counter_eq_dec c0 c) as [-> | Hne];
        [rewrite cnt_cset_same; lia | by rewrite cnt_cset_other].
    + destruct (counter_eq_dec c0 c) as [-> | Hne]; [| by rewrite cnt_cset_other].
      rewrite HA; [done |]. apply Z.odd_spec. exists (iter w - 1). lia.
Qed.

(** The copy of a global counter that a worker holds between reading and
    writing it. *)
Lemma reachable_tmp_bound p s :
  reachable p s -> Forall (fun w => 0 <= tmp w <= capacity p) (workers s).
Proof.
  revert s. apply reachable_ind.
  - rewrite workers_init_state. apply Forall_replicate. simpl.
    unfold capacity. lia.
  - intros t s s' Hr IH Hstep.
    step_inv Hstep w Hw; simpl; autorewrite with state;
      (apply Forall_insert; [done |]); simpl;
      try (by apply (Forall_lookup_1 _ _ _ _ IH Hw)).
    by apply reachable_shared_bound.
Qed.

(** ** The numbers printed *)

(** With at most [INT_MAX] interior cells and [num_iters] an [int], every
    number the run prints is the value of an [int]: the counters never
    exceed the number of interior cells. *)
Lemma reachable_output_in_int p s :
  capacity p <= INT_MAX -> num_iters p <= INT_MAX ->
  reachable p s -> Forall line_in_int (stdout s).
Proof.
  intros Hcap Hn. revert s. apply reachable_ind.
  - pose proof (seeding_count_bound p) as Hs.
    unfold init_state. destruct (seeding p) as [[g x] lc]. simpl in *.
    constructor; [| constructor]. split; [| apply wrap_range].
    unfold in_int, INT_MIN, INT_MAX in *. lia.
  - intros t s s' Hr IH Hstep.
    pose proof (reachable_step p t s s' Hr Hstep) as Hr'.
    destruct (step_output p t s s' Hstep)
      as [(_ & -> & _) | (_ & w & w' & Hw & Hw' & Hcase)]; [done |].
    destruct Hcase as [(Hpc & Hgen & Hit & ->) | [(Hpc & _ & _ & ->) | (-> & _)]];
      [| | done]; apply Forall_app; (split; [done |]); constructor; [| done | | done].
    + pose proof (Forall_lookup_1 _ _ _ _ (reachable_iter p s' Hr') Hw')
        as (H1 & _ & _ & H4).
      unfold in_generation in Hgen.
      assert (iter w' <= num_iters p).
      { apply H4; intros E; by rewrite E in Hgen. }
      simpl. unfold in_int, INT_MIN, INT_MAX in *. lia.
    + pose proof (reachable_shared_bound p s Live Hr) as B1.
      pose proof (reachable_shared_bound p s Death Hr) as B2.
      pose proof (reachable_shared_bound p s Birth Hr) as B3.
      simpl in *. unfold in_int, INT_MIN, INT_MAX in *. lia.
Qed.

(** ** Start-up *)

Lemma create_loop_proceeds env todo started err cr :
  create_loop env todo started = Proceeds err cr <->
  Forall (fun t => create_rc env t = 0) todo /\ err = [] /\ cr = started ++ todo.
Proof.
  revert started. induction todo as [| t todo IH]; intros started; simpl.
  - rewrite app_nil_r. split.
    + intros [= <- <-]. done.
    + intros (_ & -> & ->). done.
  - destruct (Z.eqb_spec (create_rc env t) 0) as [E | E].
    + rewrite IH, <- app_assoc. simpl. rewrite Forall_cons. tauto.
    + split; [done |]. intros (H%Forall_cons & _). tauto.
Qed.

Lemma create_loop_exits env todo started st err cr :
  create_loop env todo started = Exits st err cr ->
  st = 1 /\ exists t, t ∈ todo /\ create_rc env t <> 0 /\ err = [CreateFailedLine t].
Proof.
  revert started. induction todo as [| t todo IH]; intros started; simpl; [done |].
  destruct (Z.eqb_spec (create_rc env t) 0) as [E | E].
  - intros (? & t' & Hin & ? & ?)%IH. split; [done |].
    exists t'. split; [by right | done].
  - intros [= <- <- <-]. split; [done |]. exists t. split; [by left | done].
Qed.

(** ** Births and deaths when the reduction is complete *)

(** When the reduction of generation [g] is complete ([g >= 1]), the
    global birth count is the number of visited cells that are dead in the
    previous buffer and live in the current one, and the global death
    count the number of visited cells that are live in the previous buffer
    and dead in the current one; the visited cells are the interior cells
    in the row range of some worker. *)
Lemma reduced_birth_death_counts p s g :
  reachable p s -> 1 <= num_threads p -> reduction_done g s ->
  let before := sel (mem s) (1 - g `mod` 2) in
  let now := sel (mem s) (g `mod` 2) in
  1 <= g /\
  c_birth (shared s) =
    count_cells (fun ij => dead before ij && alive now ij) (visited p) /\
  c_death (shared s) =
    count_cells (fun ij => alive before ij && dead now ij) (visited p).
Proof.
  intros Hr Hk Hall before now.
  pose proof (reachable_well_formed p s Hr) as Hwf.
  destruct Hwf as (Hsh & Hlen & Hbuf).
  pose proof (reachable_local p s Hr) as Hloc.
  pose proof (reachable_swept p s Hr g) as Hsw.
  assert (Hna : Forall (not_ahead g) (workers s)).
  { eapply Forall_impl; [exact Hall |]. simpl. intros w [_ Hg]. left. lia. }
  specialize (Hsw Hna).
  (* every worker's buffers and what it left behind *)
  assert (Hw : forall t w, workers s !! t = Some w ->
            local w = tally before (cells p (tid t)) zero_counts /\
            forall ij, ij ∈ cells p (tid t) ->
              get_cell now ij.1 ij.2 = next_state before ij).
  { intros t w Hlook.
    pose proof (Forall_lookup_1 _ _ _ _ Hall Hlook) as [[tk Hpc] Hg].
    pose proof (Forall_lookup_1 _ _ _ _ Hloc Hlook) as (Hc & Hp & _).
    unfold post_sweep in Hc. rewrite Hpc, Hg in Hc.
    destruct (Hsw t w Hlook Hg) as [Hl Hcells];
      [unfold post_sweep; by rewrite Hpc |].
    rewrite Hp, Hc in Hl, Hcells. done. }
  assert (Hcell : forall ij, ij ∈ visited p ->
            get_cell now ij.1 ij.2 = next_state before ij).
  { intros ij (t & Hij & Ht%elem_of_seqZ)%list_elem_of_bind.
    destruct (lookup_lt_is_Some_2 (workers s) (Z.to_nat t)) as [w Hlook]; [lia |].
    destruct (Hw _ w Hlook) as [_ Hc]. apply Hc.
    unfold tid. by rewrite Z2Nat.id by lia. }
  assert (Hsum : forall c F,
            (forall t, cnt (tally before (cells p t) zero_counts) c = F t) ->
            cnt (shared s) c = sumZ F (worker_ids p)).
  { intros c F HF. rewrite (reduced_counter_sum p s g c Hr Hk Hall).
    rewrite (sumZ_indexed _ F _ 0).
    - unfold worker_ids. by rewrite Hlen, Z2Nat.id by lia.
    - intros t w Hlook. destruct (Hw t w Hlook) as [-> _]. apply HF. }
  split_and!.
  - destruct (lookup_lt_is_Some_2 (workers s) O) as [w Hlook]; [lia |].
    pose proof (Forall_lookup_1 _ _ _ _ Hall Hlook) as [[tk Hpc] Hg].
    destruct (reachable_sync p s Hr) as (Hsy & _ & _).
    pose proof (Forall_lookup_1 _ _ _ _ Hsy Hlook) as Hs.
    unfold in_sync, arrivals in Hs. rewrite Hpc in Hs. lia.
  - change (c_birth (shared s)) with (cnt (shared s) Birth).
    rewrite (Hsum Birth (fun t => count_cells (born before) (cells p t))).
    + unfold visited. rewrite count_cells_bind.
      apply sumZ_ext, Forall_forall. intros t Ht. apply count_cells_ext.
      intros ij Hij. rewrite born_iff. unfold alive. unfold dead at 3.
      rewrite Hcell; [done |]. apply list_elem_of_bind. by exists t.
    + intros t. simpl. by rewrite tally_birth.
  - change (c_death (shared s)) with (cnt (shared s) Death).
    rewrite (Hsum Death (fun t => count_cells (died before) (cells p t))).
    + unfold visited. rewrite count_cells_bind.
      apply sumZ_ext, Forall_forall. intros t Ht. apply count_cells_ext.
      intros ij Hij. rewrite died_iff. unfold alive. unfold dead at 3.
      rewrite Hcell; [done |]. apply list_elem_of_bind. by exists t.
    + intros t. simpl. by rewrite tally_death.
Qed.

(** * The claims *)

(** C1: whenever a worker runs its cell loops, every cell [(i, j)] with [i]
    in the worker's row range and [1 <= j <= gridsize] ends up, in the
    current buffer, with a state decided by the sum [n] of its eight
    neighbours in the previous buffer: the cell's previous state when
    [n = 2], live when [n = 3], dead for every other [n]. *)
Theorem C1_transition_rule p s t w s' i j :
  reachable p s ->
  workers s !! t = Some w -> pc w = Sweep -> thread_compute p t s = Some s' ->
  owns p (tid t) i -> 1 <= j <= gridsize p ->
  let n := neigh_count (sel (mem s) (prev w)) i j in
  let old := get_cell (sel (mem s) (prev w)) i j in
  let new := get_cell (sel (mem s') (curr w)) i j in
  (n = 2 -> new = old) /\ (n = 3 -> new = 1) /\ (n <> 2 -> n <> 3 -> new = 0).
Proof.
  intros Hr Hw Hpc Hstep Ho Hj n old new.
  pose proof (reachable_well_formed p s Hr) as Hwf.
  pose proof (worker_is_worker p s t w Hwf Hw) as Ht.
  destruct Hwf as (Hsh & _ & Hbuf).
  assert (Hb : buffers_ok (curr w) (prev w)).
  { by apply (Forall_lookup_1 _ _ _ _ Hbuf Hw). }
  assert (Hnew : new = rule n old).
  { unfold new. rewrite (step_sweep p t s s' w Hw Hpc Hstep).
    apply (sweep_curr_in p (tid t) (curr w) (prev w) (mem s) (local w) (i, j));
      try done.
    by apply elem_of_cells. }
  rewrite Hnew. unfold rule. split_and!.
  - intros ->. done.
  - intros ->. done.
  - intros H2 H3. by rewrite !(proj2 (Z.eqb_neq _ _)).
Qed.

Lemma C1_transition_rule_witness :
  let p := run_1x3 in
  let s := after p [0%nat] in
  let w := Worker Sweep 1 1 0 zero_counts 0 in
  let s' := after p [0%nat; 0%nat] in
  reachable p s /\
  workers s !! 0%nat = Some w /\ pc w = Sweep /\ thread_compute p 0 s = Some s' /\
  owns p (tid 0) 1 /\ 1 <= 1 <= gridsize p /\
  let n := neigh_count (sel (mem s) (prev w)) 1 1 in
  let old := get_cell (sel (mem s) (prev w)) 1 1 in
  let new := get_cell (sel (mem s') (curr w)) 1 1 in
  (n = 2 -> new = old) /\ (n = 3 -> new = 1) /\ (n <> 2 -> n <> 3 -> new = 0).
Proof.
  intros p s w s'.
  assert (H1 : reachable p s) by (exists [0%nat]; vm_compute; reflexivity).
  assert (H2 : workers s !! 0%nat = Some w) by (vm_compute; reflexivity).
  assert (H3 : pc w = Sweep) by reflexivity.
  assert (H4 : thread_compute p 0 s = Some s') by (vm_compute; reflexivity).
  assert (H5 : owns p (tid 0) 1) by (vm_compute; split; discriminate).
  assert (H6 : 1 <= 1 <= gridsize p) by (simpl; lia).
  do 6 (split; [assumption |]).
  exact (C1_transition_rule p s 0 w s' 1 1 H1 H2 H3 H4 H5 H6).
Defined.

(** C2 at [./life 2 4 0.5 2]: when the reduction of generation 1 is
    complete, the buffers hold generation 0 and generation 1, among the
    visited cells 3 are dead in the former and live in the latter and 3
    live in the former and dead in the latter, and the global counters
    hold these numbers.  The same run goes on with worker 1, which leaves
    the barrier, runs the cell loops of generation 2 and zeroes the global
    counters before worker 0 prints those of generation 1: in the complete
    run the line reported for generation 1 has 0 births and 0 deaths. *)
Lemma C2_reported_counts_differ :
  let p := run_2x4_half in
  let s1 := after p sched_2x4_reduced in
  let s := after p (sched_2x4_reduced ++ sched_2x4_ahead ++ sched_2x4_rest) in
  let before := sel (mem s1) 0 in
  let now := sel (mem s1) 1 in
  (reachable p s1 /\ reduction_done 1 s1) /\
  (before = generation_grid p 0 /\ now = generation_grid p 1) /\
  count_cells (fun ij => dead before ij && alive now ij) (visited p) = 3 /\
  count_cells (fun ij => alive before ij && dead now ij) (visited p) = 3 /\
  (c_birth (shared s1) = 3 /\ c_death (shared s1) = 3) /\
  exec p (sched_2x4_ahead ++ sched_2x4_rest) s1 = Some s /\
  (reachable p s /\ finished s) /\
  stdout s = [InitialLine 7 16; IterationLine 1; CountersLine 0 0 0;
              IterationLine 2; CountersLine 5 3 1].
Proof.
  intros p s1 s before now.
  assert (R1 : reachable p s1) by (exists sched_2x4_reduced; by vm_compute).
  assert (D1 : reduction_done 1 s1).
  { vm_compute. repeat constructor; by eexists. }
  assert (R : reachable p s).
  { exists (sched_2x4_reduced ++ sched_2x4_ahead ++ sched_2x4_rest).
    by vm_compute. }
  assert (F : finished s) by (apply finishedb_spec; by vm_compute).
  split; [exact (conj R1 D1) |].
  split; [split; by vm_compute |].
  split; [by vm_compute |]. split; [by vm_compute |].
  split; [split; by vm_compute |].
  split; [by vm_compute |].
  split; [exact (conj R F) |]. by vm_compute.
Qed.

(** C3, as the code has it: for [num_threads >= 1] and [gridsize >= 1] with
    [num_threads * gridsize < INT_MAX] the row ranges
    [start_row .. end_row] that the [int] expressions of life.c:45-46 give
    to two different workers share no row, and when [num_threads] divides
    [gridsize] every interior row [1 .. gridsize] belongs to the range of
    exactly one worker. *)
Theorem C3_row_ranges p :
  1 <= num_threads p -> 1 <= gridsize p ->
  num_threads p * gridsize p < INT_MAX ->
  (forall t1 t2 r,
     is_worker p t1 -> is_worker p t2 -> t1 <> t2 ->
     ~ (owns_int p t1 r /\ owns_int p t2 r)) /\
  (gridsize p `mod` num_threads p = 0 ->
   forall r, 1 <= r <= gridsize p ->
     exists t, is_worker p t /\ owns_int p t r /\
               forall t', is_worker p t' -> owns_int p t' r -> t' = t).
Proof.
  intros Hk Hn Hmax.
  assert (Hex : forall t r, is_worker p t -> owns_int p t r <-> owns p t r).
  { intros t r Ht. apply owns_int_exact; [done | lia | done]. }
  split.
  - intros t1 t2 r W1 W2 Hne [O1 O2]. apply Hne.
    apply Hex in O1; [| done]. apply Hex in O2; [| done].
    destruct W1 as [H1 _], W2 as [H2 _].
    apply (owns_unique p) with r; try done; lia.
  - intros Hm r Hr.
    destruct (exact_cover p) with r as (t & Ht & Ho); [lia .. | done | done |].
    exists t. split_and!; [done | by apply Hex |].
    intros t' Wt' Ho'. apply Hex in Ho'; [| done].
    destruct Wt' as [Ht' _], Ht as [Ht _].
    apply (owns_unique p) with r; try done; lia.
Qed.

Lemma C3_row_ranges_witness :
  1 <= num_threads run_2x4 /\ 1 <= gridsize run_2x4 /\
  num_threads run_2x4 * gridsize run_2x4 < INT_MAX /\
  (forall t1 t2 r,
     is_worker run_2x4 t1 -> is_worker run_2x4 t2 -> t1 <> t2 ->
     ~ (owns_int run_2x4 t1 r /\ owns_int run_2x4 t2 r)) /\
  (gridsize run_2x4 `mod` num_threads run_2x4 = 0 ->
   forall r, 1 <= r <= gridsize run_2x4 ->
     exists t, is_worker run_2x4 t /\ owns_int run_2x4 t r /\
               forall t', is_worker run_2x4 t' -> owns_int run_2x4 t' r -> t' = t).
Proof.
  assert (H1 : 1 <= num_threads run_2x4) by (simpl; lia).
  assert (H2 : 1 <= gridsize run_2x4) by (simpl; lia).
  assert (H3 : num_threads run_2x4 * gridsize run_2x4 < INT_MAX)
    by (vm_compute; reflexivity).
  split; [exact H1 |]. split; [exact H2 |]. split; [exact H3 |].
  exact (C3_row_ranges run_2x4 H1 H2 H3).
Defined.

(** C3 as the claim words it, for every [num_threads >= 1] and
    [gridsize >= 1], fails beyond that bound.  With 65536 workers on 131072
    rows the product [thread_num * gridsize] of worker 32768 is [2^32],
    of which an [int] keeps 0: workers 0 and 32768 both get rows 1 and 2.
    [num_threads] divides [gridsize] here, and row 1 is not in the range
    of exactly one worker. *)
Lemma C3_counterexample :
  let p := run_overflow in
  1 <= num_threads p /\ 1 <= gridsize p /\
  gridsize p `mod` num_threads p = 0 /\
  is_worker p 0 /\ is_worker p 32768 /\
  (start_row_int p 0 = 1 /\ end_row_int p 0 = 2) /\
  (start_row_int p 32768 = 1 /\ end_row_int p 32768 = 2) /\
  ~ (forall t1 t2 r,
       is_worker p t1 -> is_worker p t2 -> t1 <> t2 ->
       ~ (owns_int p t1 r /\ owns_int p t2 r)) /\
  ~ (exists t, is_worker p t /\ owns_int p t 1 /\
               forall t', is_worker p t' -> owns_int p t' 1 -> t' = t).
Proof.
  intros p.
  assert (W0 : is_worker p 0) by (split; [done | reflexivity]).
  assert (W1 : is_worker p 32768) by (split; [discriminate | reflexivity]).
  assert (O0 : owns_int p 0 1) by (vm_compute; split; discriminate).
  assert (O1 : owns_int p 32768 1) by (vm_compute; split; discriminate).
  split; [by vm_compute |]. split; [by vm_compute |].
  split; [by vm_compute |]. split; [exact W0 |]. split; [exact W1 |].
  split; [by vm_compute |]. split; [by vm_compute |]. split.
  - intros H. by apply (H 0 32768 1).
  - intros (t & Wt & Ot & Huniq).
    pose proof (Huniq 0 W0 O0) as E0. pose proof (Huniq 32768 W1 O1) as E1.
    congruence.
Qed.

(** C4, as the code has it: when [num_threads] does not divide [gridsize]
    the last interior row (row [gridsize]) is owned by no worker, and in
    every state of the run every cell of an unowned row holds in buffer 0
    what the seeding put there and in buffer 1 the 0 it was initialised
    with: no worker writes it in either buffer. *)
Theorem C4_unowned_rows p s :
  1 <= num_threads p -> 1 <= gridsize p ->
  gridsize p `mod` num_threads p <> 0 ->
  reachable p s ->
  unowned p (gridsize p) /\
  forall r j, unowned p r -> 0 <= j <= gridsize p + 1 ->
    get_cell (grid0 (mem s)) r j = get_cell (seeding p).1.1 r j /\
    get_cell (grid1 (mem s)) r j = 0.
Proof.
  intros Hk Hn Hm Hr. split; [apply last_row_unowned; lia || done |].
  intros r j [Hrow Hun] Hj.
  assert (Hin : in_grid (gridsize p) (r, j)) by (split; simpl; lia).
  assert (Hnv : unvisited p (r, j)).
  { intros t Ht [Ho _]%elem_of_cells. by apply (Hun t). }
  destruct (unvisited_frame p s (r, j) Hr Hin Hnv) as [E0 E1].
  simpl in E0, E1. rewrite E0, E1, mem_init_state. simpl.
  split; [done | by apply get_zero_grid].
Qed.

Lemma C4_unowned_rows_witness :
  let p := run_2x3 in
  let s := after p [0%nat; 0%nat; 1%nat; 1%nat] in
  1 <= num_threads p /\ 1 <= gridsize p /\
  gridsize p `mod` num_threads p <> 0 /\
  reachable p s /\
  unowned p (gridsize p) /\
  forall r j, unowned p r -> 0 <= j <= gridsize p + 1 ->
    get_cell (grid0 (mem s)) r j = get_cell (seeding p).1.1 r j /\
    get_cell (grid1 (mem s)) r j = 0.
Proof.
  intros p s.
  assert (H1 : 1 <= num_threads p) by (simpl; lia).
  assert (H2 : 1 <= gridsize p) by (simpl; lia).
  assert (H3 : gridsize p `mod` num_threads p <> 0) by (vm_compute; discriminate).
  assert (H4 : reachable p s).
  { exists [0%nat; 0%nat; 1%nat; 1%nat]. vm_compute. reflexivity. }
  do 4 (split; [assumption |]).
  exact (C4_unowned_rows p s H1 H2 H3 H4).
Defined.

(** C4 as the claim words it fails twice.  With 3 workers on 5 rows the
    unowned rows are rows 3 and 5, with the owned row 4 between them, so
    they are no block at the top of the grid.  And with 2 workers on 3
    rows, seeded all live, the unowned row 3 is dead in buffer 1, the
    buffer that holds generation 1, although it was seeded live. *)
Lemma C4_counterexample :
  ~ high_block run_3x5 /\
  (let s := after run_2x3 [0%nat; 0%nat; 1%nat; 1%nat] in
   reachable run_2x3 s /\ unowned run_2x3 3 /\
   get_cell (seeding run_2x3).1.1 3 1 = 1 /\
   get_cell (sel (mem s) 1) 3 1 = 0).
Proof.
  split.
  - intros [m Hm].
    assert (H3 : unowned run_3x5 3) by (by apply unownedb_spec).
    assert (H4 : ~ unowned run_3x5 4).
    { rewrite <- unownedb_spec. by vm_compute. }
    apply (Hm 3) in H3; [| simpl; lia]. apply H4, (Hm 4); simpl; lia.
  - split_and!.
    + exists [0%nat; 0%nat; 1%nat; 1%nat]. vm_compute. reflexivity.
    + by apply unownedb_spec.
    + vm_compute. reflexivity.
    + vm_compute. reflexivity.
Qed.

(** C5: in every state of every run (any grid size, any seeding
    probability, any number of workers and generations) every halo cell,
    that is every cell of row 0, row N+1, column 0 or column N+1, holds 0
    in both buffers; no worker has such a cell among the cells it
    writes. *)
Theorem C5_halo_dead p s ij :
  reachable p s -> halo (gridsize p) ij ->
  get_cell (grid0 (mem s)) ij.1 ij.2 = 0 /\
  get_cell (grid1 (mem s)) ij.1 ij.2 = 0 /\
  forall t, is_worker p t -> ij ∉ cells p t.
Proof.
  intros Hr Hh.
  pose proof (halo_unvisited p ij Hh) as Hun.
  destruct (unvisited_frame p s ij Hr (proj1 Hh) Hun) as [E0 E1].
  rewrite E0, E1, mem_init_state. simpl. split_and!.
  - by apply halo_seeding.
  - destruct ij. apply get_zero_grid, Hh.
  - exact Hun.
Qed.

Lemma C5_halo_dead_witness :
  let p := run_1x3 in
  let s := after p [0%nat; 0%nat] in
  reachable p s /\ halo (gridsize p) (4, 2) /\
  get_cell (grid0 (mem s)) 4 2 = 0 /\
  get_cell (grid1 (mem s)) 4 2 = 0 /\
  forall t, is_worker p t -> (4, 2) ∉ cells p t.
Proof.
  intros p s.
  assert (H1 : reachable p s) by (exists [0%nat; 0%nat]; vm_compute; reflexivity).
  assert (H2 : halo (gridsize p) (4, 2)).
  { split; [split; simpl; lia | simpl; lia]. }
  split; [exact H1 |]. split; [exact H2 |].
  exact (C5_halo_dead p s (4, 2) H1 H2).
Defined.

(** C6 at grid size 3, all cells seeded live, one generation: both runs
    have complete executions; every complete run with one worker leaves
    cell (3, 1) live in the buffer of generation 1, and every complete run
    with two workers, whose row 3 has no owner, leaves it dead there. *)
Lemma C6_two_workers_differ :
  (finished (after run_1x3 sched_1x3) /\
   reachable run_1x3 (after run_1x3 sched_1x3)) /\
  (finished (after run_2x3 sched_2x3) /\
   reachable run_2x3 (after run_2x3 sched_2x3)) /\
  forall s1 s2,
    reachable run_1x3 s1 /\ finished s1 /\
    reachable run_2x3 s2 /\ finished s2 ->
    get_cell (sel (mem s1) 1) 3 1 = 1 /\ get_cell (sel (mem s2) 1) 3 1 = 0.
Proof.
  split_and!.
  - apply finishedb_spec. by vm_compute.
  - exists sched_1x3. by vm_compute.
  - apply finishedb_spec. by vm_compute.
  - exists sched_2x3. by vm_compute.
  - intros s1 s2 ([sched1 Hex1] & Hfin1 & Hr2 & _). split.
    + rewrite (run_1x3_complete sched1 s1 Hex1 Hfin1). by vm_compute.
    + assert (Hun : unvisited run_2x3 (3, 1)).
      { intros t Ht [Ho _]%elem_of_cells.
        assert (H3 : unowned run_2x3 3) by (by apply unownedb_spec).
        by apply (proj2 H3 t). }
      destruct (unvisited_frame run_2x3 s2 (3, 1) Hr2) as [_ E1];
        [split; simpl; lia | done |].
      etrans; [exact E1 |]. vm_compute. reflexivity.
Qed.

(** C7: [./life 1 3 1.0 1] seeds all nine interior cells live, and when the
    single worker has returned the buffer of generation 1 has the four
    corner cells of the interior live and the other five dead; the line
    printed for the generation reports 4 living cells (5 died, 0 born). *)
Theorem C7_all_live_3x3 s :
  reachable run_1x3 s -> finished s ->
  grid0 (mem (init_state run_1x3)) =
    [[0; 0; 0; 0; 0]; [0; 1; 1; 1; 0]; [0; 1; 1; 1; 0]; [0; 1; 1; 1; 0];
     [0; 0; 0; 0; 0]] /\
  sel (mem s) 1 =
    [[0; 0; 0; 0; 0]; [0; 1; 0; 1; 0]; [0; 0; 0; 0; 0]; [0; 1; 0; 1; 0];
     [0; 0; 0; 0; 0]] /\
  stdout s = [InitialLine 9 9; IterationLine 1; CountersLine 4 5 0].
Proof.
  intros [sched Hex] Hfin.
  rewrite (run_1x3_complete sched s Hex Hfin).
  by vm_compute.
Qed.

Lemma C7_all_live_3x3_witness :
  let s := after run_1x3 sched_1x3 in
  reachable run_1x3 s /\ finished s /\
  grid0 (mem (init_state run_1x3)) =
    [[0; 0; 0; 0; 0]; [0; 1; 1; 1; 0]; [0; 1; 1; 1; 0]; [0; 1; 1; 1; 0];
     [0; 0; 0; 0; 0]] /\
  sel (mem s) 1 =
    [[0; 0; 0; 0; 0]; [0; 1; 0; 1; 0]; [0; 0; 0; 0; 0]; [0; 1; 0; 1; 0];
     [0; 0; 0; 0; 0]] /\
  stdout s = [InitialLine 9 9; IterationLine 1; CountersLine 4 5 0].
Proof.
  intros s.
  assert (H1 : reachable run_1x3 s) by (exists sched_1x3; vm_compute; reflexivity).
  assert (H2 : finished s) by (apply finishedb_spec; vm_compute; reflexivity).
  split; [exact H1 |]. split; [exact H2 |].
  exact (C7_all_live_3x3 s H1 H2).
Defined.

(** C8 at [./life 2 4 0.5 2]: when both workers have entered the second
    barrier call of generation 1 the protocol is complete, and the global
    counters are the sums of the local ones: 7 living, 3 died, 3 born.
    Worker 1 then leaves the barrier, runs the cell loops of generation 2
    and zeroes the global counters; worker 0 leaves the barrier after
    that.  It stands at the statement that reads the counters of
    generation 1, with its local counts of generation 1 untouched, and
    what it reads and prints is 0, 0 and 0: the contributions of both
    workers are lost. *)
Lemma C8_sums_lost_before_read :
  let p := run_2x4_half in
  let s1 := after p sched_2x4_reduced in
  let s2 := after p (sched_2x4_reduced ++ sched_2x4_ahead ++ [0%nat]) in
  let s3 := after p (sched_2x4_reduced ++ sched_2x4_ahead ++ [0%nat; 0%nat]) in
  (reachable p s1 /\ reduction_done 1 s1 /\
   shared s1 = Counts 7 3 3 /\
   (forall c, cnt (shared s1) c = sumZ (fun w => cnt (local w) c) (workers s1)) /\
   (local <$> workers s1) !! 0%nat = Some (Counts 2 2 1) /\
   (local <$> workers s1) !! 1%nat = Some (Counts 5 1 2)) /\
  (exec p (sched_2x4_ahead ++ [0%nat]) s1 = Some s2 /\
   workers s2 !! 0%nat = Some (Worker Report 1 1 0 (Counts 2 2 1) 0) /\
   (pc <$> workers s2) !! 1%nat = Some (Wait B1 2) /\
   (iter <$> workers s2) !! 1%nat = Some 2 /\
   shared s2 = Counts 0 0 0) /\
  (thread_compute p 0 s2 = Some s3 /\
   stdout s3 = [InitialLine 7 16; IterationLine 1; CountersLine 0 0 0]).
Proof.
  intros p s1 s2 s3.
  assert (R1 : reachable p s1) by (exists sched_2x4_reduced; by vm_compute).
  assert (D1 : reduction_done 1 s1).
  { vm_compute. repeat constructor; by eexists. }
  split; [| split].
  - split; [exact R1 |]. split; [exact D1 |]. split; [by vm_compute |].
    split; [by intros [] |]. split; by vm_compute.
  - split; [by vm_compute |]. split; [by vm_compute |].
    split; [by vm_compute |]. split; by vm_compute.
  - split; by vm_compute.
Qed.

(** C9 at [./life 0 4 1.0 1]: [pthread_barrier_init] fails with [EINVAL],
    nothing is written to standard error and [main] does not exit: it goes
    on as if the barrier had been created. *)
Lemma C9_barrier_failure_unreported :
  barrier_init_rc env_barrier_fails <> 0 /\
  main_startup 5 "./life" run_0x4 env_barrier_fails = Proceeds [] [].
Proof. split; [discriminate | reflexivity]. Qed.

(** C10 at [./life 2 2 1.0 2]: two complete runs, which differ only in the
    order in which the two workers take their steps, print different
    statistics for generation 1, although they end with the same grids. *)
Lemma C10_statistics_differ :
  (reachable run_2x2 (after run_2x2 sched_2x2_a) /\
   finished (after run_2x2 sched_2x2_a)) /\
  (reachable run_2x2 (after run_2x2 sched_2x2_b) /\
   finished (after run_2x2 sched_2x2_b)) /\
  stdout (after run_2x2 sched_2x2_a) =
    [InitialLine 4 4; IterationLine 1; CountersLine 4 0 0;
     IterationLine 2; CountersLine 4 0 0] /\
  stdout (after run_2x2 sched_2x2_b) =
    [InitialLine 4 4; IterationLine 1; CountersLine 0 0 0;
     IterationLine 2; CountersLine 4 0 0] /\
  mem (after run_2x2 sched_2x2_a) = mem (after run_2x2 sched_2x2_b).
Proof.
  assert (Ha : reachable run_2x2 (after run_2x2 sched_2x2_a)).
  { exists sched_2x2_a. by vm_compute. }
  assert (Hb : reachable run_2x2 (after run_2x2 sched_2x2_b)).
  { exists sched_2x2_b. by vm_compute. }
  assert (Fa : finished (after run_2x2 sched_2x2_a)).
  { apply finishedb_spec. by vm_compute. }
  assert (Fb : finished (after run_2x2 sched_2x2_b)).
  { apply finishedb_spec. by vm_compute. }
  split; [exact (conj Ha Fa) |]. split; [exact (conj Hb Fb) |].
  split; [vm_compute; reflexivity |]. split; [vm_compute; reflexivity |].
  exact (final_grids_unique run_2x2 _ _ Ha Fa Hb Fb).
Qed.

(** * Further properties of the program *)

(** ** The cell loops *)

(** X1: for [num_threads * gridsize < INT_MAX], every array element the
    cell loops of a worker touch lies inside the arrays [main] allocated:
    for a cell [(i, j)] of the rows the [int] expressions of life.c:45-46
    give the worker and of the columns [1 .. gridsize], the cell and its
    eight neighbours have both indices in [0 .. gridsize + 1], and the
    indices fit an [int]. *)
Theorem X1_accesses_in_bounds p t i j di dj :
  is_worker p t -> num_threads p * gridsize p < INT_MAX ->
  owns_int p t i -> 1 <= j <= gridsize p ->
  -1 <= di <= 1 -> -1 <= dj <= 1 ->
  (0 <= i + di <= gridsize p + 1 /\ 0 <= j + dj <= gridsize p + 1) /\
  in_int (i + di) /\ in_int (j + dj).
Proof.
  intros Ht Hmax Ho Hj Hdi Hdj.
  apply owns_int_exact in Ho; [| done | lia | done].
  assert (Hin : 0 <= i + di <= gridsize p + 1 /\ 0 <= j + dj <= gridsize p + 1).
  { apply (accesses_in_grid p t i j di dj); try done. by apply elem_of_cells. }
  split; [exact Hin |].
  assert (gridsize p <= num_threads p * gridsize p) by (destruct Ht; nia).
  unfold in_int, INT_MIN, INT_MAX in *. lia.
Qed.

Lemma X1_accesses_in_bounds_witness :
  is_worker run_2x4 1 /\ num_threads run_2x4 * gridsize run_2x4 < INT_MAX /\
  owns_int run_2x4 1 4 /\ 1 <= 4 <= gridsize run_2x4 /\
  -1 <= 1 <= 1 /\ -1 <= 1 <= 1 /\
  (0 <= 4 + 1 <= gridsize run_2x4 + 1 /\ 0 <= 4 + 1 <= gridsize run_2x4 + 1) /\
  in_int (4 + 1) /\ in_int (4 + 1).
Proof.
  assert (H1 : is_worker run_2x4 1) by (unfold is_worker; simpl; lia).
  assert (H0 : num_threads run_2x4 * gridsize run_2x4 < INT_MAX)
    by (vm_compute; reflexivity).
  assert (H2 : owns_int run_2x4 1 4) by (vm_compute; split; discriminate).
  assert (H3 : 1 <= 4 <= gridsize run_2x4) by (simpl; lia).
  assert (H4 : -1 <= 1 <= 1) by lia.
  split; [exact H1 |]. split; [exact H0 |]. split; [exact H2 |].
  split; [exact H3 |]. split; [exact H4 |]. split; [exact H4 |].
  exact (X1_accesses_in_bounds run_2x4 1 4 4 1 1 H1 H0 H2 H3 H4 H4).
Defined.

(** X2: for a worker [t] of a run with [gridsize >= 0] and
    [num_threads * gridsize < INT_MAX], every value computed on the way to
    [start_row] and [end_row] fits an [int]: the product, the two
    quotients, the sums and the results. *)
Theorem X2_partition_no_overflow p t :
  is_worker p t -> 0 <= gridsize p ->
  num_threads p * gridsize p < INT_MAX ->
  in_int (t * gridsize p) /\
  in_int ((t * gridsize p) ÷ num_threads p) /\
  in_int (start_row p t) /\
  in_int (gridsize p ÷ num_threads p) /\
  in_int (start_row p t + gridsize p ÷ num_threads p) /\
  in_int (end_row p t).
Proof. apply partition_in_int. Qed.

Lemma X2_partition_no_overflow_witness :
  is_worker run_2x4 1 /\ 0 <= gridsize run_2x4 /\
  num_threads run_2x4 * gridsize run_2x4 < INT_MAX /\
  in_int (1 * gridsize run_2x4) /\
  in_int ((1 * gridsize run_2x4) ÷ num_threads run_2x4) /\
  in_int (start_row run_2x4 1) /\
  in_int (gridsize run_2x4 ÷ num_threads run_2x4) /\
  in_int (start_row run_2x4 1 + gridsize run_2x4 ÷ num_threads run_2x4) /\
  in_int (end_row run_2x4 1).
Proof.
  assert (H1 : is_worker run_2x4 1) by (unfold is_worker; simpl; lia).
  assert (H2 : 0 <= gridsize run_2x4) by (simpl; lia).
  assert (H3 : num_threads run_2x4 * gridsize run_2x4 < INT_MAX)
    by (vm_compute; reflexivity).
  split; [exact H1 |]. split; [exact H2 |]. split; [exact H3 |].
  exact (X2_partition_no_overflow run_2x4 1 H1 H2 H3).
Defined.

(** X3: the cell loops of two different workers on the same buffers can be
    run in either order: the grids are the same afterwards, and each
    worker's counts are those it gets when it runs first. *)
Theorem X3_sweeps_commute p t1 t2 curr prev gs lc1 lc2 :
  is_worker p t1 -> is_worker p t2 -> t1 <> t2 ->
  buffers_ok curr prev -> shaped2 (gridsize p) gs ->
  let a1 := sweep p t1 curr prev (gs, lc1) in
  let a2 := sweep p t2 curr prev (a1.1, lc2) in
  let b2 := sweep p t2 curr prev (gs, lc2) in
  let b1 := sweep p t1 curr prev (b2.1, lc1) in
  a2.1 = b1.1 /\ a1.2 = b1.2 /\ a2.2 = b2.2.
Proof. apply sweeps_commute. Qed.

Lemma X3_sweeps_commute_witness :
  let p := run_2x4 in
  let gs := mem (init_state p) in
  is_worker p 0 /\ is_worker p 1 /\ 0 <> 1 /\
  buffers_ok 1 0 /\ shaped2 (gridsize p) gs /\
  let a1 := sweep p 0 1 0 (gs, zero_counts) in
  let a2 := sweep p 1 1 0 (a1.1, zero_counts) in
  let b2 := sweep p 1 1 0 (gs, zero_counts) in
  let b1 := sweep p 0 1 0 (b2.1, zero_counts) in
  a2.1 = b1.1 /\ a1.2 = b1.2 /\ a2.2 = b2.2.
Proof.
  intros p gs.
  assert (H1 : is_worker p 0) by (unfold is_worker; simpl; lia).
  assert (H2 : is_worker p 1) by (unfold is_worker; simpl; lia).
  assert (H3 : 0 <> 1) by lia.
  assert (H4 : buffers_ok 1 0) by (by right).
  assert (H5 : shaped2 (gridsize p) gs) by apply shaped_init.
  split; [exact H1 |]. split; [exact H2 |]. split; [exact H3 |].
  split; [exact H4 |]. split; [exact H5 |].
  exact (X3_sweeps_commute p 0 1 1 0 gs zero_counts zero_counts H1 H2 H3 H4 H5).
Defined.

(** X4: in every state of a run every cell of both buffers, halo
    included, holds 0 or 1, and the sum of the eight neighbours of an
    interior cell lies between 0 and 8. *)
Theorem X4_cells_binary p s b i j :
  reachable p s -> in_grid (gridsize p) (i, j) ->
  (get_cell (sel (mem s) b) i j = 0 \/ get_cell (sel (mem s) b) i j = 1) /\
  (1 <= i <= gridsize p -> 1 <= j <= gridsize p ->
   0 <= neigh_count (sel (mem s) b) i j <= 8).
Proof.
  intros Hr Hij. destruct (reachable_binary p s Hr) as [B0 B1].
  assert (Hb : binary (gridsize p) (sel (mem s) b)) by (by apply binary_sel).
  split; [by apply Hb |]. intros Hi Hj. by apply (neigh_count_bound (gridsize p)).
Qed.

Lemma X4_cells_binary_witness :
  let p := run_2x3 in
  let s := after p [0%nat; 0%nat; 1%nat; 1%nat] in
  reachable p s /\ in_grid (gridsize p) (2, 2) /\
  (get_cell (sel (mem s) 1) 2 2 = 0 \/ get_cell (sel (mem s) 1) 2 2 = 1) /\
  (1 <= 2 <= gridsize p -> 1 <= 2 <= gridsize p ->
   0 <= neigh_count (sel (mem s) 1) 2 2 <= 8).
Proof.
  intros p s.
  assert (H1 : reachable p s).
  { exists [0%nat; 0%nat; 1%nat; 1%nat]. vm_compute. reflexivity. }
  assert (H2 : in_grid (gridsize p) (2, 2)) by (split; simpl; lia).
  split; [exact H1 |]. split; [exact H2 |].
  exact (X4_cells_binary p s 1 2 2 H1 H2).
Defined.

(** ** The barrier and the mutex *)

(** X5: at most one worker at a time is between [pthread_mutex_lock] and
    [pthread_mutex_unlock], and the mutex is taken while one is. *)
Theorem X5_mutual_exclusion p s t1 t2 w1 w2 :
  reachable p s ->
  workers s !! t1 = Some w1 -> workers s !! t2 = Some w2 ->
  in_cs w1 = true -> in_cs w2 = true ->
  t1 = t2 /\ mutex s = true.
Proof.
  intros Hr H1 H2 C1 C2. pose proof (reachable_mutex p s Hr) as Hm. split.
  - by apply (cs_unique s t1 t2 w1 w2).
  - pose proof (sumZ_b2z_member in_cs (workers s) t1 w1 H1 C1) as Hge.
    unfold mutex_inv in Hm. destruct (mutex s); [done | simpl in Hm; lia].
Qed.

Lemma X5_mutual_exclusion_witness :
  let p := run_2x2 in
  let s := after p sched_2x2_locked in
  let w := Worker (Load Live) 1 1 0 (Counts 2 0 0) 0 in
  reachable p s /\
  workers s !! 1%nat = Some w /\ workers s !! 1%nat = Some w /\
  in_cs w = true /\ in_cs w = true /\
  1%nat = 1%nat /\ mutex s = true.
Proof.
  intros p s w.
  assert (H1 : reachable p s) by (exists sched_2x2_locked; vm_compute; reflexivity).
  assert (H2 : workers s !! 1%nat = Some w) by (vm_compute; reflexivity).
  assert (H3 : in_cs w = true) by reflexivity.
  split; [exact H1 |]. split; [exact H2 |]. split; [exact H2 |].
  split; [exact H3 |]. split; [exact H3 |].
  exact (X5_mutual_exclusion p s 1 1 w w H1 H2 H2 H3 H3).
Defined.

(** X6: two workers that are in their cell loops at the same time are in
    the same generation and use the same two buffers, one to read and the
    other to write. *)
Theorem X6_sweeps_same_generation p s t1 t2 w1 w2 :
  reachable p s ->
  workers s !! t1 = Some w1 -> workers s !! t2 = Some w2 ->
  pc w1 = Sweep -> pc w2 = Sweep ->
  iter w2 = iter w1 /\ curr w2 = curr w1 /\ prev w2 = prev w1 /\
  buffers_ok (curr w1) (prev w1).
Proof.
  intros Hr H1 H2 P1 P2.
  destruct (reachable_sync p s Hr) as (Hall & _ & _).
  pose proof (reachable_local p s Hr) as Hloc.
  destruct (reachable_well_formed p s Hr) as (_ & _ & Hbuf).
  sync_of Hall H1 P1. sync_of Hall H2 P2.
  pose proof (Forall_lookup_1 _ _ _ _ Hloc H1) as (Hc1 & Hp1 & _).
  pose proof (Forall_lookup_1 _ _ _ _ Hloc H2) as (Hc2 & Hp2 & _).
  unfold post_sweep in Hc1, Hc2. rewrite P1 in Hc1. rewrite P2 in Hc2.
  assert (Hi : iter w2 = iter w1) by lia.
  split_and!; [done | congruence | congruence |].
  by apply (Forall_lookup_1 _ _ _ _ Hbuf H1).
Qed.

Lemma X6_sweeps_same_generation_witness :
  let p := run_2x2 in
  let s := after p [0%nat; 1%nat] in
  let w := Worker Sweep 1 1 0 zero_counts 0 in
  reachable p s /\
  workers s !! 0%nat = Some w /\ workers s !! 1%nat = Some w /\
  pc w = Sweep /\ pc w = Sweep /\
  iter w = iter w /\ curr w = curr w /\ prev w = prev w /\
  buffers_ok (curr w) (prev w).
Proof.
  intros p s w.
  assert (H1 : reachable p s) by (exists [0%nat; 1%nat]; vm_compute; reflexivity).
  assert (H2 : workers s !! 0%nat = Some w) by (vm_compute; reflexivity).
  assert (H3 : workers s !! 1%nat = Some w) by (vm_compute; reflexivity).
  assert (H4 : pc w = Sweep) by reflexivity.
  split; [exact H1 |]. split; [exact H2 |]. split; [exact H3 |].
  split; [exact H4 |]. split; [exact H4 |].
  exact (X6_sweeps_same_generation p s 0 1 w w H1 H2 H3 H4 H4).
Defined.

(** X7: while a worker is taking the mutex, adding its counts to the
    global counters or giving the mutex back, every worker is in the same
    generation and in its reduction: each has zeroed the global counters and
    entered the first barrier call, and none has left the second; so none
    is zeroing a counter, running its cell loops or printing. *)
Theorem X7_adding_after_resets p s t1 t2 w1 w2 :
  reachable p s ->
  workers s !! t1 = Some w1 -> workers s !! t2 = Some w2 ->
  accumulating w1 = true ->
  iter w2 = iter w1 /\ reducing w2 = true.
Proof.
  intros Hr H1 H2 A1.
  destruct (reachable_sync p s Hr) as (Hall & _ & _).
  pose proof (Forall_lookup_1 _ _ _ _ Hall H1) as S1.
  pose proof (Forall_lookup_1 _ _ _ _ Hall H2) as S2.
  unfold in_sync, arrivals, accumulating, reducing in *.
  destruct (pc w1) eqn:E1; try done;
    destruct (pc w2) eqn:E2; cases_cb; (split; [lia | done || lia]).
Qed.

Lemma X7_adding_after_resets_witness :
  let p := run_2x2 in
  let s := after p sched_2x2_locked in
  let w1 := Worker (Load Live) 1 1 0 (Counts 2 0 0) 0 in
  let w2 := Worker (Wait B1 0) 1 1 0 (Counts 2 0 0) 0 in
  reachable p s /\
  workers s !! 1%nat = Some w1 /\ workers s !! 0%nat = Some w2 /\
  accumulating w1 = true /\
  iter w2 = iter w1 /\ reducing w2 = true.
Proof.
  intros p s w1 w2.
  assert (H1 : reachable p s) by (exists sched_2x2_locked; vm_compute; reflexivity).
  assert (H2 : workers s !! 1%nat = Some w1) by (vm_compute; reflexivity).
  assert (H3 : workers s !! 0%nat = Some w2) by (vm_compute; reflexivity).
  assert (H4 : accumulating w1 = true) by reflexivity.
  split; [exact H1 |]. split; [exact H2 |]. split; [exact H3 |].
  split; [exact H4 |].
  exact (X7_adding_after_resets p s 1 0 w1 w2 H1 H2 H3 H4).
Defined.

(** X8: when a worker is at the statement that prints the counters of its
    generation, no worker is still adding to them: every other worker is
    through the second barrier call of that generation too, or is one
    generation further and there has not gone beyond the first barrier
    call, or has returned, which it has only after the last generation. *)
Theorem X8_report_after_adding p s t1 t2 w1 w2 :
  reachable p s ->
  workers s !! t1 = Some w1 -> workers s !! t2 = Some w2 ->
  pc w1 = Report ->
  accumulating w2 = false /\
  ((iter w2 = iter w1 /\ reduced w2 = true) \/
   (iter w2 = iter w1 + 1 /\ opening w2 = true)) /\
  (pc w2 = Done -> iter w1 = num_iters p).
Proof.
  intros Hr H1 H2 P1.
  destruct (reachable_sync p s Hr) as (Hall & _ & _).
  pose proof (Forall_lookup_1 _ _ _ _ Hall H1) as S1.
  pose proof (Forall_lookup_1 _ _ _ _ Hall H2) as S2.
  pose proof (Forall_lookup_1 _ _ _ _ (reachable_iter p s Hr) H1)
    as (_ & _ & _ & I1).
  pose proof (Forall_lookup_1 _ _ _ _ (reachable_iter p s Hr) H2)
    as (_ & _ & I2 & _).
  rewrite P1 in I1.
  assert (iter w1 <= num_iters p) by (by apply I1).
  unfold in_sync, arrivals, accumulating, reduced, opening in *.
  rewrite P1 in S1.
  destruct (pc w2) eqn:E2; cases_cb;
    (split; [done || lia |]);
    (split; [| intros Hd; try discriminate Hd; specialize (I2 eq_refl); lia]);
    try (left; split; [lia | done]); try (right; split; [lia | done]);
    exfalso; lia.
Qed.

Lemma X8_report_after_adding_witness :
  let p := run_2x4_half in
  let s := after p (sched_2x4_reduced ++ sched_2x4_ahead ++ [0%nat]) in
  let w1 := Worker Report 1 1 0 (Counts 2 2 1) 0 in
  let w2 := Worker (Wait B1 2) 2 0 1 (Counts 5 1 1) 1 in
  reachable p s /\
  workers s !! 0%nat = Some w1 /\ workers s !! 1%nat = Some w2 /\
  pc w1 = Report /\
  accumulating w2 = false /\
  ((iter w2 = iter w1 /\ reduced w2 = true) \/
   (iter w2 = iter w1 + 1 /\ opening w2 = true)) /\
  (pc w2 = Done -> iter w1 = num_iters p).
Proof.
  intros p s w1 w2.
  assert (H1 : reachable p s).
  { exists (sched_2x4_reduced ++ sched_2x4_ahead ++ [0%nat]).
    vm_compute. reflexivity. }
  assert (H2 : workers s !! 0%nat = Some w1) by (vm_compute; reflexivity).
  assert (H3 : workers s !! 1%nat = Some w2) by (vm_compute; reflexivity).
  assert (H4 : pc w1 = Report) by reflexivity.
  split; [exact H1 |]. split; [exact H2 |]. split; [exact H3 |].
  split; [exact H4 |].
  exact (X8_report_after_adding p s 0 1 w1 w2 H1 H2 H3 H4).
Defined.

(** ** Progress and termination *)

(** X9: a run never deadlocks: in every state of a run in which some
    worker has not returned, some worker can take its next step. *)
Theorem X9_no_deadlock p s :
  reachable p s -> ~ finished s -> exists t s', thread_compute p t s = Some s'.
Proof. apply no_deadlock. Qed.

Lemma X9_no_deadlock_witness :
  let p := run_2x2 in
  let s := after p sched_2x2_locked in
  reachable p s /\ ~ finished s /\ exists t s', thread_compute p t s = Some s'.
Proof.
  intros p s.
  assert (H1 : reachable p s) by (exists sched_2x2_locked; vm_compute; reflexivity).
  assert (H2 : ~ finished s).
  { intros Hf%finishedb_spec. vm_compute in Hf. discriminate Hf. }
  split; [exact H1 |]. split; [exact H2 |].
  exact (X9_no_deadlock p s H1 H2).
Defined.

(** X10: for [num_iters < INT_MAX] every run ends.  The loop counter
    [iter] of every worker stays within the [int] range, so that [iter++]
    never overflows; a run of [num_threads] workers for [num_iters]
    generations has at most [num_threads * (18 * num_iters + 1)] steps,
    whatever the order in which the workers take them, and has exactly as
    many when all workers have returned. *)
Theorem X10_run_length p sched s :
  num_iters p < INT_MAX ->
  exec p sched (init_state p) = Some s ->
  Forall (fun w => in_int (iter w) /\ (pc w = Report -> in_int (iter w + 1)))
         (workers s) /\
  Z.of_nat (length sched) <= run_length p /\
  (finished s -> Z.of_nat (length sched) = run_length p).
Proof.
  intros Hn Hex. split; [| by apply run_steps].
  apply Forall_lookup. intros t w Hw.
  apply (iter_in_int p s t w); [by exists sched | done | done].
Qed.

Lemma X10_run_length_witness :
  let p := run_2x2 in
  let s := after p sched_2x2_a in
  num_iters p < INT_MAX /\
  exec p sched_2x2_a (init_state p) = Some s /\
  Forall (fun w => in_int (iter w) /\ (pc w = Report -> in_int (iter w + 1)))
         (workers s) /\
  Z.of_nat (length sched_2x2_a) <= run_length p /\
  (finished s -> Z.of_nat (length sched_2x2_a) = run_length p).
Proof.
  intros p s.
  assert (H0 : num_iters p < INT_MAX) by (vm_compute; reflexivity).
  assert (H1 : exec p sched_2x2_a (init_state p) = Some s)
    by (vm_compute; reflexivity).
  split; [exact H0 |]. split; [exact H1 |].
  exact (X10_run_length p sched_2x2_a s H0 H1).
Defined.

(** X11: on a command line with [num_threads >= 1], [gridsize >= 0],
    [num_threads * gridsize < INT_MAX] and [num_iters < INT_MAX] no [int]
    computation of the workers overflows, the row bounds and the loop
    counter are the mathematical ones, and every state of a run can be
    continued to the end: some schedule takes it to a state in which all
    workers have returned. *)
Theorem X11_run_completes p s :
  1 <= num_threads p -> 0 <= gridsize p ->
  num_threads p * gridsize p < INT_MAX -> num_iters p < INT_MAX ->
  reachable p s ->
  (forall t, is_worker p t ->
     start_row_int p t = start_row p t /\ end_row_int p t = end_row p t) /\
  Forall (fun w => in_int (iter w) /\ (pc w = Report -> in_int (iter w + 1)))
         (workers s) /\
  exists sched s', exec p sched s = Some s' /\ finished s'.
Proof.
  intros Hk Hg Hmax Hn Hr. split; [| split].
  { intros t Ht. by apply partition_int_exact. }
  { apply Forall_lookup. intros t w Hw. by apply (iter_in_int p s t w). }
  clear Hk Hg Hmax Hn.
  remember (Z.to_nat (run_length p - sumZ steps_taken (workers s))) as m eqn:Em.
  revert s Hr Em. induction m as [m IH] using lt_wf_ind. intros s Hr Em.
  destruct (finishedb s) eqn:Efin.
  - apply finishedb_spec in Efin. exists [], s. done.
  - assert (Hnf : ~ finished s).
    { rewrite <- finishedb_spec, Efin. done. }
    destruct (no_deadlock p s Hr Hnf) as (t & s1 & Hstep).
    pose proof (reachable_step p t s s1 Hr Hstep) as Hr1.
    pose proof (step_counts p t s s1 Hstep) as Hc.
    destruct Hr1 as [sched1 Hex1].
    pose proof (run_steps p sched1 s1 Hex1) as [Hle _].
    pose proof (exec_counts p sched1 _ s1 Hex1) as Hc1.
    rewrite steps_taken_init in Hc1.
    destruct (IH (Z.to_nat (run_length p - sumZ steps_taken (workers s1))))
      with s1 as (sched & s' & Hex & Hfin); [lia | by exists sched1 | done |].
    exists (t :: sched), s'. simpl. rewrite Hstep. done.
Qed.

Lemma X11_run_completes_witness :
  let p := run_2x2 in
  let s := after p sched_2x2_locked in
  1 <= num_threads p /\ 0 <= gridsize p /\
  num_threads p * gridsize p < INT_MAX /\ num_iters p < INT_MAX /\
  reachable p s /\
  (forall t, is_worker p t ->
     start_row_int p t = start_row p t /\ end_row_int p t = end_row p t) /\
  Forall (fun w => in_int (iter w) /\ (pc w = Report -> in_int (iter w + 1)))
         (workers s) /\
  exists sched s', exec p sched s = Some s' /\ finished s'.
Proof.
  intros p s.
  assert (H1 : 1 <= num_threads p) by (simpl; lia).
  assert (H2 : 0 <= gridsize p) by (simpl; lia).
  assert (H3 : num_threads p * gridsize p < INT_MAX) by (vm_compute; reflexivity).
  assert (H4 : num_iters p < INT_MAX) by (vm_compute; reflexivity).
  assert (H5 : reachable p s) by (exists sched_2x2_locked; vm_compute; reflexivity).
  split; [exact H1 |]. split; [exact H2 |]. split; [exact H3 |].
  split; [exact H4 |]. split; [exact H5 |].
  exact (X11_run_completes p s H1 H2 H3 H4 H5).
Defined.

(** ** The grids and the counters against the run by turns *)

(** X12: when all workers have returned, the grids are those of the run
    in which the workers take turns, generation after generation; so all
    complete runs of the same command line end with the same grids,
    whatever the schedule. *)
Theorem X12_final_grids p s :
  reachable p s -> finished s ->
  mem s = run_grids p (Z.to_nat (num_iters p)) /\
  forall s2, reachable p s2 -> finished s2 -> mem s2 = mem s.
Proof.
  intros Hr Hf. split; [by apply final_grids |].
  intros s2 Hr2 Hf2. by apply (final_grids_unique p).
Qed.

Lemma X12_final_grids_witness :
  let p := run_2x2 in
  let s := after p sched_2x2_b in
  reachable p s /\ finished s /\
  mem s = run_grids p (Z.to_nat (num_iters p)) /\
  forall s2, reachable p s2 -> finished s2 -> mem s2 = mem s.
Proof.
  intros p s.
  assert (H1 : reachable p s) by (exists sched_2x2_b; vm_compute; reflexivity).
  assert (H2 : finished s) by (apply finishedb_spec; vm_compute; reflexivity).
  split; [exact H1 |]. split; [exact H2 |].
  exact (X12_final_grids p s H1 H2).
Defined.

(** X13: when [num_threads] divides [gridsize], every complete run ends
    with the grids of every complete run of a single worker on the same
    grid size, seeding probability and number of generations. *)
Theorem X13_divisible_runs_agree p s sk :
  1 <= num_threads p -> gridsize p `mod` num_threads p = 0 ->
  reachable (single p) s -> finished s ->
  reachable p sk -> finished sk ->
  mem s = mem sk.
Proof. apply divisible_runs_agree. Qed.

Lemma X13_divisible_runs_agree_witness :
  let p := run_2x2 in
  let s := after (single p) (replicate 37 0%nat) in
  let sk := after p sched_2x2_a in
  1 <= num_threads p /\ gridsize p `mod` num_threads p = 0 /\
  reachable (single p) s /\ finished s /\
  reachable p sk /\ finished sk /\
  mem s = mem sk.
Proof.
  intros p s sk.
  assert (H1 : 1 <= num_threads p) by (simpl; lia).
  assert (H2 : gridsize p `mod` num_threads p = 0) by reflexivity.
  assert (H3 : reachable (single p) s).
  { exists (replicate 37 0%nat). vm_compute. reflexivity. }
  assert (H4 : finished s) by (apply finishedb_spec; vm_compute; reflexivity).
  assert (H5 : reachable p sk) by (exists sched_2x2_a; vm_compute; reflexivity).
  assert (H6 : finished sk) by (apply finishedb_spec; vm_compute; reflexivity).
  split; [exact H1 |]. split; [exact H2 |]. split; [exact H3 |].
  split; [exact H4 |]. split; [exact H5 |]. split; [exact H6 |].
  exact (X13_divisible_runs_agree p s sk H1 H2 H3 H4 H5 H6).
Defined.

(** X14: in the states in which every worker is inside the second barrier
    call of generation [g], the two buffers hold generations [g - 1] and
    [g] of the run by turns, and the three global counters hold the
    statistics of generation [g]: the visited cells that live in it, those
    that died and those that were born in it. *)
Theorem X14_reduction_statistics p s g :
  reachable p s -> 1 <= num_threads p -> reduction_done g s ->
  1 <= g /\
  sel (mem s) (1 - g `mod` 2) = generation_grid p (g - 1) /\
  sel (mem s) (g `mod` 2) = generation_grid p g /\
  shared s = stats p g.
Proof.
  intros Hr Hk Hall.
  destruct (reduction_grids p s g Hr Hk Hall) as (Hg & Eb & En).
  split_and!; try done.
  pose proof (reduction_stats p s g Live Hr Hk Hall) as HL.
  pose proof (reduction_stats p s g Death Hr Hk Hall) as HD.
  pose proof (reduction_stats p s g Birth Hr Hk Hall) as HB.
  cbn [cnt] in HL, HD, HB.
  destruct (shared s), (stats p g). simpl in *. congruence.
Qed.

Lemma X14_reduction_statistics_witness :
  let p := run_2x3 in
  let s := after p sched_2x3_reduced in
  reachable p s /\ 1 <= num_threads p /\ reduction_done 1 s /\
  1 <= 1 /\
  sel (mem s) (1 - 1 `mod` 2) = generation_grid p (1 - 1) /\
  sel (mem s) (1 `mod` 2) = generation_grid p 1 /\
  shared s = stats p 1.
Proof.
  intros p s.
  assert (H1 : reachable p s) by (exists sched_2x3_reduced; vm_compute; reflexivity).
  assert (H2 : 1 <= num_threads p) by (simpl; lia).
  assert (H3 : reduction_done 1 s).
  { vm_compute. repeat constructor; by eexists. }
  split; [exact H1 |]. split; [exact H2 |]. split; [exact H3 |].
  exact (X14_reduction_statistics p s 1 H1 H2 H3).
Defined.

(** X15: in those states the global live count is the number of visited
    cells that are live in the current buffer, and it is the number of
    visited cells that were live in the previous buffer, plus the births,
    minus the deaths. *)
Theorem X15_live_count p s g :
  reachable p s -> 1 <= num_threads p -> reduction_done g s ->
  let before := sel (mem s) (1 - g `mod` 2) in
  let now := sel (mem s) (g `mod` 2) in
  c_live (shared s) = count_cells (alive now) (visited p) /\
  c_live (shared s) =
    count_cells (alive before) (visited p) + c_birth (shared s) - c_death (shared s).
Proof. apply reduction_live. Qed.

Lemma X15_live_count_witness :
  let p := run_2x3 in
  let s := after p sched_2x3_reduced in
  let before := sel (mem s) (1 - 1 `mod` 2) in
  let now := sel (mem s) (1 `mod` 2) in
  reachable p s /\ 1 <= num_threads p /\ reduction_done 1 s /\
  c_live (shared s) = count_cells (alive now) (visited p) /\
  c_live (shared s) =
    count_cells (alive before) (visited p) + c_birth (shared s) - c_death (shared s).
Proof.
  intros p s before now.
  assert (H1 : reachable p s) by (exists sched_2x3_reduced; vm_compute; reflexivity).
  assert (H2 : 1 <= num_threads p) by (simpl; lia).
  assert (H3 : reduction_done 1 s).
  { vm_compute. repeat constructor; by eexists. }
  split; [exact H1 |]. split; [exact H2 |]. split; [exact H3 |].
  exact (X15_live_count p s 1 H1 H2 H3).
Defined.

(** X16: no counter overflows on a grid of at most [INT_MAX] interior
    cells: in every state of a run the global counters, the local counters
    of every worker and the copy a worker holds while adding lie between 0
    and the number of interior cells. *)
Theorem X16_counters_bounded p s t w c :
  reachable p s -> workers s !! t = Some w ->
  0 <= cnt (shared s) c <= capacity p /\
  0 <= cnt (local w) c <= capacity p /\
  0 <= tmp w <= capacity p.
Proof.
  intros Hr Hw. split; [| split].
  - by apply reachable_shared_bound.
  - pose proof (reachable_local_bound p s t w c Hr Hw) as H.
    pose proof (cells_capacity p) as Hc.
    destruct (reachable_well_formed p s Hr) as (_ & Hlen & _).
    apply lookup_lt_Some in Hw. nia.
  - apply (Forall_lookup_1 _ _ _ _ (reachable_tmp_bound p s Hr) Hw).
Qed.

Lemma X16_counters_bounded_witness :
  let p := run_2x2 in
  let s := after p sched_2x2_locked in
  let w := Worker (Load Live) 1 1 0 (Counts 2 0 0) 0 in
  reachable p s /\ workers s !! 1%nat = Some w /\
  0 <= cnt (shared s) Live <= capacity p /\
  0 <= cnt (local w) Live <= capacity p /\
  0 <= tmp w <= capacity p.
Proof.
  intros p s w.
  assert (H1 : reachable p s) by (exists sched_2x2_locked; vm_compute; reflexivity).
  assert (H2 : workers s !! 1%nat = Some w) by (vm_compute; reflexivity).
  split; [exact H1 |]. split; [exact H2 |].
  exact (X16_counters_bounded p s 1 w Live H1 H2).
Defined.


(** ** The seeding *)

(** X17: the seeding in closed form.  Grid 0 keeps the shape [main]
    allocated; [drand48] has been called [gridsize * gridsize] times when
    the loops end; interior cell [(i, j)] is live exactly when the
    [((i - 1) * gridsize + j)]-th number drawn since [srand48(0)] is below
    [init_pct]; and the count of the first output line is the number of
    live interior cells of grid 0. *)
Theorem X17_seeding_cells p :
  let n := gridsize p in
  shaped n (seeding p).1.1 /\
  (seeding p).1.2 = draw (Z.to_nat n * Z.to_nat n) /\
  (forall i j, 1 <= i <= n -> 1 <= j <= n ->
     get_cell (seeding p).1.1 i j =
     Z.b2z (below (draw (Z.to_nat ((i - 1) * n + j))) (init_pct p))) /\
  (seeding p).2 = count_cells (alive (seeding p).1.1) (interior n).
Proof. apply seeding_spec. Qed.

(** X18: with [init_pct] at least 1.0 (or positive infinity) every
    interior cell is seeded live and the count is the number of interior
    cells, because [drand48] returns numbers below 1. *)
Theorem X18_seeding_all p :
  seeds_all (init_pct p) = true ->
  (forall i j, 1 <= i <= gridsize p -> 1 <= j <= gridsize p ->
     get_cell (seeding p).1.1 i j = 1) /\
  (seeding p).2 = Z.max 0 (gridsize p) * Z.max 0 (gridsize p).
Proof.
  intros Hall. destruct (seeding_spec p) as (_ & _ & C & L).
  assert (Hc : forall i j, 1 <= i <= gridsize p -> 1 <= j <= gridsize p ->
            get_cell (seeding p).1.1 i j = 1).
  { intros i j Hi Hj. rewrite C by done.
    replace (Z.to_nat ((i - 1) * gridsize p + j))
      with (S (Z.to_nat ((i - 1) * gridsize p + j - 1))) by nia.
    by rewrite below_all by (apply draw_range || done). }
  split; [done |]. rewrite L, count_cells_all, length_interior; [lia |].
  intros [i j] [Hi Hj]%elem_of_interior. unfold alive, dead. simpl.
  by rewrite Hc.
Qed.

Lemma X18_seeding_all_witness :
  seeds_all (init_pct run_2x3) = true /\
  (forall i j, 1 <= i <= gridsize run_2x3 -> 1 <= j <= gridsize run_2x3 ->
     get_cell (seeding run_2x3).1.1 i j = 1) /\
  (seeding run_2x3).2 = Z.max 0 (gridsize run_2x3) * Z.max 0 (gridsize run_2x3).
Proof.
  assert (H1 : seeds_all (init_pct run_2x3) = true) by reflexivity.
  split; [exact H1 |].
  exact (X18_seeding_all run_2x3 H1).
Defined.

(** X19: with [init_pct] at most 0.0 (or negative infinity, or NaN) no
    cell is seeded live: grid 0 is all dead and the count is 0, because
    [drand48] returns no negative number and no comparison with NaN
    holds. *)
Theorem X19_seeding_none p :
  seeds_none (init_pct p) = true ->
  (seeding p).1.1 = zero_grid (gridsize p) /\ (seeding p).2 = 0.
Proof. apply seeding_none. Qed.

Lemma X19_seeding_none_witness :
  seeds_none (init_pct run_dead) = true /\
  (seeding run_dead).1.1 = zero_grid (gridsize run_dead) /\
  (seeding run_dead).2 = 0.
Proof.
  assert (H1 : seeds_none (init_pct run_dead) = true) by reflexivity.
  split; [exact H1 |].
  exact (X19_seeding_none run_dead H1).
Defined.

(** ** Runs in which nothing changes *)

(** X20: a run seeded with no live cell stays dead: in every state both
    buffers are all dead, and every line of counters printed reads 0 living,
    0 died, 0 born. *)
Theorem X20_dead_run p s :
  seeds_none (init_pct p) = true -> reachable p s ->
  mem s = zero_grids (gridsize p) /\
  forall living died born,
    CountersLine living died born ∈ stdout s ->
    living = 0 /\ died = 0 /\ born = 0.
Proof.
  intros Hn Hr.
  destruct (reachable_quiet p s (still_none p Hn) Hr) as (Hm & _ & _ & _ & _ & Ho).
  split.
  - rewrite Hm, mem_init_state. destruct (seeding_none p Hn) as [-> _]. done.
  - intros a b c Hin. apply (proj1 (Forall_forall _ _) Ho _ Hin).
Qed.

Lemma X20_dead_run_witness :
  let p := run_dead in
  let s := after p sched_2x3 in
  seeds_none (init_pct p) = true /\ reachable p s /\
  mem s = zero_grids (gridsize p) /\
  forall living died born,
    CountersLine living died born ∈ stdout s ->
    living = 0 /\ died = 0 /\ born = 0.
Proof.
  intros p s.
  assert (H1 : seeds_none (init_pct p) = true) by reflexivity.
  assert (H2 : reachable p s) by (exists sched_2x3; vm_compute; reflexivity).
  split; [exact H1 |]. split; [exact H2 |].
  exact (X20_dead_run p s H1 H2).
Defined.

(** X21: with more workers than rows ([gridsize < num_threads]) no worker
    has a row: no cell is ever written, the grids stay as [main] seeded
    them, and every line of counters printed reads 0 living, 0 died, 0 born,
    whatever lives in the grid. *)
Theorem X21_more_workers_than_rows p s :
  gridsize p < num_threads p -> reachable p s ->
  visited p = [] /\
  mem s = mem (init_state p) /\
  forall living died born,
    CountersLine living died born ∈ stdout s ->
    living = 0 /\ died = 0 /\ born = 0.
Proof.
  intros Hlt Hr.
  destruct (reachable_quiet p s (still_crowded p Hlt) Hr)
    as (Hm & _ & _ & _ & _ & Ho).
  split_and!; [| done |].
  - unfold visited. induction (worker_ids p) as [| t l IH]; [done |].
    by rewrite bind_cons, IH, cells_none.
  - intros a b c Hin. apply (proj1 (Forall_forall _ _) Ho _ Hin).
Qed.

Lemma X21_more_workers_than_rows_witness :
  let p := run_3x2 in
  let s := after p sched_3x2 in
  gridsize p < num_threads p /\ reachable p s /\
  visited p = [] /\
  mem s = mem (init_state p) /\
  forall living died born,
    CountersLine living died born ∈ stdout s ->
    living = 0 /\ died = 0 /\ born = 0.
Proof.
  intros p s.
  assert (H1 : gridsize p < num_threads p) by reflexivity.
  assert (H2 : reachable p s) by (exists sched_3x2; vm_compute; reflexivity).
  split; [exact H1 |]. split; [exact H2 |].
  exact (X21_more_workers_than_rows p s H1 H2).
Defined.

(** X22: with [num_threads >= 1] and [num_iters <= 0] the workers return
    at once: in every state of the run the grids and the global counters
    are as [main] set them up, and the output is the first line alone.
    Its second number is the [int] product [gridsize * gridsize]; its
    first number, the count of the seeding, fits an [int] when there are
    at most [INT_MAX] interior cells. *)
Theorem X22_no_generations p s :
  1 <= num_threads p -> num_iters p <= 0 -> capacity p <= INT_MAX ->
  reachable p s ->
  mem s = mem (init_state p) /\ shared s = shared (init_state p) /\
  stdout s = [InitialLine (seeding p).2 (int_mul (gridsize p) (gridsize p))] /\
  Forall line_in_int (stdout s).
Proof.
  intros _ Hk Hcap Hr.
  assert (Hint : Forall line_in_int (stdout s)).
  { apply (reachable_output_in_int p); [done | | done].
    unfold INT_MAX. lia. }
  revert Hint.
  assert (Hinit : stdout (init_state p) =
                  [InitialLine (seeding p).2 (int_mul (gridsize p) (gridsize p))]).
  { unfold init_state. by destruct (seeding p) as [[? ?] ?]. }
  rewrite <- Hinit. clear Hinit. intros Hint.
  cut (mem s = mem (init_state p) /\ shared s = shared (init_state p) /\
       stdout s = stdout (init_state p)); [tauto |].
  clear Hint. revert s Hr. apply reachable_ind; [done |].
  intros t s s' Hr IH Hstep.
  pose proof (reachable_iter p s Hr) as Hit.
  step_inv Hstep w Hw;
    pose proof (Forall_lookup_1 _ _ _ _ Hit Hw) as (H1 & _ & _ & H4);
    rewrite Hpc in H4; try (assert (iter w <= num_iters p) by (by apply H4); lia).
  - apply Z.leb_le in H. lia.
  - done.
Qed.

Lemma X22_no_generations_witness :
  let p := run_square in
  let s := after p [0%nat] in
  1 <= num_threads p /\ num_iters p <= 0 /\ capacity p <= INT_MAX /\
  reachable p s /\
  mem s = mem (init_state p) /\ shared s = shared (init_state p) /\
  stdout s = [InitialLine (seeding p).2 (int_mul (gridsize p) (gridsize p))] /\
  Forall line_in_int (stdout s).
Proof.
  intros p s.
  assert (H0 : 1 <= num_threads p) by (simpl; lia).
  assert (H1 : num_iters p <= 0) by (simpl; lia).
  assert (Hc : capacity p <= INT_MAX) by (vm_compute; discriminate).
  assert (H2 : reachable p s) by (exists [0%nat]; vm_compute; reflexivity).
  split; [exact H0 |]. split; [exact H1 |]. split; [exact Hc |].
  split; [exact H2 |].
  exact (X22_no_generations p s H0 H1 Hc H2).
Defined.

(** ** The output *)

(** X23: the output of a complete run, line by line, when there are at
    most [INT_MAX] interior cells and [num_iters < INT_MAX], so that every
    number printed fits an [int]: the first line with the count of the
    seeding and the [int] product [gridsize * gridsize]; then for every
    generation [g] the line "Iteration g" and a line of counters, in this
    order and nothing else.  The counters printed for [g] are the
    statistics of generation [g] of the run by turns when there is a single
    worker, and for the last generation. *)
Theorem X23_output_lines p s :
  reachable p s -> finished s -> 1 <= num_threads p ->
  capacity p <= INT_MAX -> num_iters p < INT_MAX ->
  Forall line_in_int (stdout s) /\
  Z.of_nat (length (stdout s)) = 1 + 2 * Z.max 0 (num_iters p) /\
  stdout s !! 0%nat = Some (InitialLine (seeding p).2 (int_mul (gridsize p) (gridsize p))) /\
  forall g, 1 <= g <= num_iters p ->
    stdout s !! Z.to_nat (2 * g - 1) = Some (IterationLine g) /\
    exists living died born,
      stdout s !! Z.to_nat (2 * g) = Some (CountersLine living died born) /\
      (settled p g -> Counts living died born = stats p g).
Proof.
  intros Hr Hfin Hk Hcap Hn.
  split; [apply (reachable_output_in_int p); [done | lia | done] |].
  destruct (finished_output p s Hr Hfin Hk) as (body & -> & Hbody).
  destruct (prints_lookup p _ body Hbody) as [Hlen Hlook].
  rewrite length_seqZ in Hlen. split_and!.
  - simpl length. lia.
  - done.
  - intros g Hg.
    destruct (Hlook (Z.to_nat (g - 1)) g) as (Hit & a & b & c & Hct & Hst).
    { apply lookup_seqZ. lia. }
    replace (Z.to_nat (2 * g - 1)) with (S (2 * Z.to_nat (g - 1))) by lia.
    replace (Z.to_nat (2 * g)) with (S (2 * Z.to_nat (g - 1) + 1)) by lia.
    simpl. split; [done |]. by exists a, b, c.
Qed.

Lemma X23_output_lines_witness :
  let p := run_2x2 in
  let s := after p sched_2x2_b in
  reachable p s /\ finished s /\ 1 <= num_threads p /\
  capacity p <= INT_MAX /\ num_iters p < INT_MAX /\
  Forall line_in_int (stdout s) /\
  Z.of_nat (length (stdout s)) = 1 + 2 * Z.max 0 (num_iters p) /\
  stdout s !! 0%nat = Some (InitialLine (seeding p).2 (int_mul (gridsize p) (gridsize p))) /\
  forall g, 1 <= g <= num_iters p ->
    stdout s !! Z.to_nat (2 * g - 1) = Some (IterationLine g) /\
    exists living died born,
      stdout s !! Z.to_nat (2 * g) = Some (CountersLine living died born) /\
      (settled p g -> Counts living died born = stats p g).
Proof.
  intros p s.
  assert (H1 : reachable p s) by (exists sched_2x2_b; vm_compute; reflexivity).
  assert (H2 : finished s) by (apply finishedb_spec; vm_compute; reflexivity).
  assert (H3 : 1 <= num_threads p) by (simpl; lia).
  assert (H4 : capacity p <= INT_MAX) by (vm_compute; discriminate).
  assert (H5 : num_iters p < INT_MAX) by (vm_compute; reflexivity).
  split; [exact H1 |]. split; [exact H2 |]. split; [exact H3 |].
  split; [exact H4 |]. split; [exact H5 |].
  exact (X23_output_lines p s H1 H2 H3 H4 H5).
Defined.

(** X24: with a single worker, at most [INT_MAX] interior cells and
    [num_iters < INT_MAX], the output of a complete run is fully
    determined: the first line, with the count of the seeding and the
    [int] product [gridsize * gridsize], and for every generation its
    "Iteration" line and its statistics; every number printed fits an
    [int]. *)
Theorem X24_single_worker_output p s :
  num_threads p = 1 -> capacity p <= INT_MAX -> num_iters p < INT_MAX ->
  reachable p s -> finished s ->
  stdout s = expected_output p /\ Forall line_in_int (expected_output p).
Proof.
  intros Hone Hcap Hn Hr Hfin.
  assert (E : stdout s = expected_output p).
  { destruct (finished_output p s Hr Hfin) as (body & -> & Hbody); [lia |].
    unfold expected_output. f_equal. apply prints_settled; [| done].
    apply Forall_forall. intros g _. by left. }
  split; [exact E |]. rewrite <- E.
  apply (reachable_output_in_int p); [done | lia | done].
Qed.

Lemma X24_single_worker_output_witness :
  let p := run_1x3 in
  let s := after p sched_1x3 in
  num_threads p = 1 /\ capacity p <= INT_MAX /\ num_iters p < INT_MAX /\
  reachable p s /\ finished s /\
  stdout s = expected_output p /\ Forall line_in_int (expected_output p).
Proof.
  intros p s.
  assert (H1 : num_threads p = 1) by reflexivity.
  assert (H4 : capacity p <= INT_MAX) by (vm_compute; discriminate).
  assert (H5 : num_iters p < INT_MAX) by (vm_compute; reflexivity).
  assert (H2 : reachable p s) by (exists sched_1x3; vm_compute; reflexivity).
  assert (H3 : finished s) by (apply finishedb_spec; vm_compute; reflexivity).
  split; [exact H1 |]. split; [exact H4 |]. split; [exact H5 |].
  split; [exact H2 |]. split; [exact H3 |].
  exact (X24_single_worker_output p s H1 H4 H5 H2 H3).
Defined.

(** X25: whatever the number of workers and the schedule, the last line
    of a complete run of at least one generation is the line of counters of
    the last generation, and its counters are the statistics of that
    generation: no worker zeroes the counters after the last reduction. *)
Theorem X25_last_counters_line p s :
  reachable p s -> finished s -> 1 <= num_threads p -> 1 <= num_iters p ->
  last (stdout s) =
  Some (CountersLine (c_live (stats p (num_iters p)))
                     (c_death (stats p (num_iters p)))
                     (c_birth (stats p (num_iters p)))).
Proof.
  intros Hr Hfin Hk Hn.
  destruct (finished_output p s Hr Hfin Hk) as (body & -> & Hbody).
  rewrite script_snoc in Hbody by done.
  apply Forall2_app_inv_l in Hbody as (b1 & b2 & _ & H2 & ->).
  apply Forall2_cons_inv_l in H2 as (l1 & b3 & _ & H2 & ->).
  apply Forall2_cons_inv_l in H2 as (l2 & b4 & Hl2 & H2 & ->).
  apply Forall2_nil_inv_l in H2 as ->.
  destruct Hl2 as (a & b & c & -> & Hst).
  rewrite <- (Hst (or_intror eq_refl)). simpl c_live. simpl c_death. simpl c_birth.
  replace (InitialLine _ _ :: b1 ++ [l1; CountersLine a b c])
    with ((InitialLine (seeding p).2 (int_mul (gridsize p) (gridsize p)) :: b1 ++ [l1]) ++
          [CountersLine a b c]) by (simpl; by rewrite <- app_assoc).
  apply last_snoc.
Qed.

Lemma X25_last_counters_line_witness :
  let p := run_2x2 in
  let s := after p sched_2x2_b in
  reachable p s /\ finished s /\ 1 <= num_threads p /\ 1 <= num_iters p /\
  last (stdout s) =
  Some (CountersLine (c_live (stats p (num_iters p)))
                     (c_death (stats p (num_iters p)))
                     (c_birth (stats p (num_iters p)))).
Proof.
  intros p s.
  assert (H1 : reachable p s) by (exists sched_2x2_b; vm_compute; reflexivity).
  assert (H2 : finished s) by (apply finishedb_spec; vm_compute; reflexivity).
  assert (H3 : 1 <= num_threads p) by (simpl; lia).
  assert (H4 : 1 <= num_iters p) by (simpl; lia).
  split; [exact H1 |]. split; [exact H2 |]. split; [exact H3 |].
  split; [exact H4 |].
  exact (X25_last_counters_line p s H1 H2 H3 H4).
Defined.

(** ** Start-up *)

(** X26: when the command line has its four arguments and [pthread_create]
    fails for worker [t] after succeeding for the workers before it, [main]
    writes "Could not create thread t" to standard error and exits with
    status 1, with workers [0 .. t-1] created and running. *)
Theorem X26_create_failure argv0 p env t :
  is_worker p t ->
  Forall (fun t' => create_rc env t' = 0) (seqZ 0 t) -> create_rc env t <> 0 ->
  main_startup 5 argv0 p env = Exits 1 [CreateFailedLine t] (seqZ 0 t).
Proof.
  intros [Ht0 Htk] Hok Hbad. unfold main_startup, worker_ids. simpl.
  replace (num_threads p) with (t + (1 + (num_threads p - t - 1))) by lia.
  rewrite seqZ_app, (seqZ_cons (0 + t)) by lia.
  by rewrite (create_loop_failure env (seqZ 0 t) (0 + t)).
Qed.

Lemma X26_create_failure_witness :
  is_worker run_2x4 1 /\
  Forall (fun t' => create_rc env_create_fails t' = 0) (seqZ 0 1) /\
  create_rc env_create_fails 1 <> 0 /\
  main_startup 5 "./life" run_2x4 env_create_fails =
  Exits 1 [CreateFailedLine 1] (seqZ 0 1).
Proof.
  assert (H1 : is_worker run_2x4 1) by (unfold is_worker; simpl; lia).
  assert (H2 : Forall (fun t' => create_rc env_create_fails t' = 0) (seqZ 0 1)).
  { by repeat constructor. }
  assert (H3 : create_rc env_create_fails 1 <> 0) by (vm_compute; discriminate).
  split; [exact H1 |]. split; [exact H2 |]. split; [exact H3 |].
  exact (X26_create_failure "./life" run_2x4 env_create_fails 1 H1 H2 H3).
Defined.

(** X27: the two ways the start-up of [main] ends.  It goes on to join the
    workers only when the command line has four arguments and every
    [pthread_create] succeeded, and then it has written nothing to standard
    error and created all the workers in the order of their numbers.
    Otherwise it exits, always with status 1 and one line on standard
    error: the usage line, with no worker created, or the line that names a
    worker whose creation failed. *)
Theorem X27_startup_outcomes argc argv0 p env :
  (forall err created,
     main_startup argc argv0 p env = Proceeds err created <->
     argc = 5 /\ Forall (fun t => create_rc env t = 0) (worker_ids p) /\
     err = [] /\ created = worker_ids p) /\
  (forall status err created,
     main_startup argc argv0 p env = Exits status err created ->
     status = 1 /\
     ((argc <> 5 /\ err = [UsageLine argv0] /\ created = []) \/
      (argc = 5 /\ exists t, is_worker p t /\ create_rc env t <> 0 /\
                             err = [CreateFailedLine t]))).
Proof.
  unfold main_startup. split.
  - intros err cr. destruct (Z.eqb_spec argc 5) as [E | E].
    + rewrite create_loop_proceeds. simpl. tauto.
    + split; [done | tauto].
  - intros st err cr. destruct (Z.eqb_spec argc 5) as [E | E].
    + intros (-> & t & Hin & Hbad & ->)%create_loop_exits. split; [done |].
      right. split; [done |]. exists t. split_and!; try done.
      apply elem_of_seqZ in Hin. unfold is_worker. lia.
    + intros [= <- <- <-]. split; [done |]. by left.
Qed.

(** ** The buffers and the end of a run *)

(** X28: in every state of a run a worker's [curr] and [prev] are 0 and 1
    in some order, so that [grid[curr]] and [grid[prev]] are the two
    buffers; and from the swap at the head of the loop to the end of the
    loop body the worker writes the buffer with the parity of its
    generation: [curr = iter mod 2]. *)
Theorem X28_buffer_indices p s t w :
  reachable p s -> workers s !! t = Some w ->
  buffers_ok (curr w) (prev w) /\
  (in_generation w = true -> curr w = iter w `mod` 2).
Proof.
  intros Hr Hw.
  destruct (reachable_well_formed p s Hr) as (_ & _ & Hbuf).
  pose proof (Forall_lookup_1 _ _ _ _ (reachable_local p s Hr) Hw) as (Hc & _ & _).
  split; [by apply (Forall_lookup_1 _ _ _ _ Hbuf Hw) |].
  unfold in_generation, post_sweep in *. by destruct (pc w).
Qed.

Lemma X28_buffer_indices_witness :
  let p := run_2x2 in
  let s := after p sched_2x2_locked in
  let w := Worker (Load Live) 1 1 0 (Counts 2 0 0) 0 in
  reachable p s /\ workers s !! 1%nat = Some w /\
  buffers_ok (curr w) (prev w) /\
  (in_generation w = true -> curr w = iter w `mod` 2).
Proof.
  intros p s w.
  assert (H1 : reachable p s) by (exists sched_2x2_locked; vm_compute; reflexivity).
  assert (H2 : workers s !! 1%nat = Some w) by (vm_compute; reflexivity).
  split; [exact H1 |]. split; [exact H2 |].
  exact (X28_buffer_indices p s 1 w H1 H2).
Defined.

(** X29: after a complete run of [num_iters >= 1] generations the last
    generation is in buffer [num_iters mod 2] and the one before it in the
    other buffer: every visited cell of the first holds the next state of
    the second. *)
Theorem X29_final_buffers p s ij :
  reachable p s -> finished s -> 1 <= num_iters p -> ij ∈ visited p ->
  get_cell (sel (mem s) (num_iters p `mod` 2)) ij.1 ij.2 =
  next_state (sel (mem s) (1 - num_iters p `mod` 2)) ij.
Proof.
  intros Hr Hfin Hn Hij. rewrite (final_grids p s Hr Hfin).
  destruct (Z.to_nat (num_iters p)) as [| n'] eqn:En; [lia |].
  change (run_grids p (S n')) with
    (generation p (Z.of_nat (S n')) (run_grids p n')).
  replace (num_iters p) with (Z.of_nat (S n')) by lia.
  destruct (generation_spec p (Z.of_nat (S n')) (run_grids p n')
              (shaped_run_grids p n')) as (_ & Hprev & Hcells).
  rewrite Hprev. apply Hcells; [| done].
  by apply (proj1 (Forall_forall _ _) (visited_in_grid p)).
Qed.

Lemma X29_final_buffers_witness :
  let p := run_2x2 in
  let s := after p sched_2x2_b in
  reachable p s /\ finished s /\ 1 <= num_iters p /\ (1, 2) ∈ visited p /\
  get_cell (sel (mem s) (num_iters p `mod` 2)) 1 2 =
  next_state (sel (mem s) (1 - num_iters p `mod` 2)) (1, 2).
Proof.
  intros p s.
  assert (H1 : reachable p s) by (exists sched_2x2_b; vm_compute; reflexivity).
  assert (H2 : finished s) by (apply finishedb_spec; vm_compute; reflexivity).
  assert (H3 : 1 <= num_iters p) by (simpl; lia).
  assert (H4 : (1, 2) ∈ visited p).
  { apply visited_spec. exists 0. split; [unfold is_worker; simpl; lia |].
    apply elem_of_cells. split; [vm_compute; split; discriminate | simpl; lia]. }
  split; [exact H1 |]. split; [exact H2 |]. split; [exact H3 |].
  split; [exact H4 |].
  exact (X29_final_buffers p s (1, 2) H1 H2 H3 H4).
Defined.

(** X30: when all workers have returned, which is when [main] destroys
    the barrier and the mutex, no worker holds the mutex, none waits in the
    barrier, and the barrier has opened twice for every generation. *)
Theorem X30_clean_exit p s :
  reachable p s -> finished s ->
  mutex s = false /\ arrived s = 0 /\
  (1 <= num_threads p -> Z.of_nat (epoch s) = 2 * Z.max 0 (num_iters p)).
Proof.
  intros Hr Hfin.
  pose proof (reachable_mutex p s Hr) as Hm.
  destruct (reachable_sync p s Hr) as (Hall & Harr & _).
  destruct (reachable_well_formed p s Hr) as (_ & Hlen & _).
  split; [| split].
  - unfold mutex_inv in Hm. rewrite sumZ_zero in Hm; [by destruct (mutex s) |].
    eapply Forall_impl; [exact Hfin |]. simpl. intros w Hpc.
    unfold in_cs. by rewrite Hpc.
  - rewrite Harr. apply sumZ_zero.
    eapply Forall_impl; [exact Hfin |]. simpl. intros w Hpc.
    unfold blocked. by rewrite Hpc.
  - intros Hk.
    destruct (lookup_lt_is_Some_2 (workers s) O) as [w Hw]; [lia |].
    pose proof (Forall_lookup_1 _ _ _ _ Hfin Hw) as Hpc. simpl in Hpc.
    pose proof (Forall_lookup_1 _ _ _ _ (reachable_iter p s Hr) Hw)
      as (H1 & H2 & H3 & _).
    specialize (H3 Hpc). sync_of Hall Hw Hpc. lia.
Qed.

Lemma X30_clean_exit_witness :
  let p := run_2x2 in
  let s := after p sched_2x2_b in
  reachable p s /\ finished s /\
  mutex s = false /\ arrived s = 0 /\
  (1 <= num_threads p -> Z.of_nat (epoch s) = 2 * Z.max 0 (num_iters p)).
Proof.
  intros p s.
  assert (H1 : reachable p s) by (exists sched_2x2_b; vm_compute; reflexivity).
  assert (H2 : finished s) by (apply finishedb_spec; vm_compute; reflexivity).
  split; [exact H1 |]. split; [exact H2 |].
  exact (X30_clean_exit p s H1 H2).
Defined.
